(** * PNGFuse: the chunk codecs and the PNG container of [src/image.h] and
    [src/subfileimage.h], embedded as functions on byte lists.

    Conventions of the embedding.
    - [unsigned char] is [Byte.byte]; a [std::vector<unsigned char>] or a
      [std::basic_string<unsigned char>] is a [list byte].
    - A [const unsigned char *] into a buffer is modelled by what can be read
      through it: the list of bytes from the pointee to the end of the buffer.
      Inside [Image] a pointer is the offset [std::distance(begin, p)].
    - [unsigned] is 32 bits and [std::size_t] is 64 bits; both are [Z] with the
      wrap-around written out.
    - A call either returns, throws, or has undefined behaviour (a read outside
      the buffer, an invalid iterator range): see [outcome]. *)

From Stdlib Require Import ZArith Lia List String.
From Stdlib Require Import Strings.Byte.
From stdpp Require Import base list.

#[global] Instance byte_eq_dec : EqDecision byte := Byte.byte_eq_dec.

(** ** Outcomes of a call *)

Inductive exn : Type :=
| CorruptChunk   (* std::runtime_error("Encountered corrupt chunk") *)
| LodePNGError   (* std::runtime_error(lodepng_error_text(error)), from check_error *)
| NotValidPNG.   (* native_runtime_error(file + " is not a valid PNG file.") *)

Inductive outcome (A : Type) : Type :=
| Ok (a : A)
| Throw (e : exn)
| Undefined.
Arguments Ok {A} a.
Arguments Throw {A} e.
Arguments Undefined {A}.

#[global] Instance outcome_ret : MRet outcome := @Ok.
#[global] Instance outcome_bind : MBind outcome := λ A B f m,
  match m with
  | Ok a => f a
  | Throw e => Throw e
  | Undefined => Undefined
  end.

(** ** Bytes and fixed-width integers *)

Definition Z_of_byte (b : byte) : Z := Z.of_N (Byte.to_N b).

Definition byte_of_Z (z : Z) : byte :=
  default x00 (Byte.of_N (Z.to_N (z mod 256))).

Definition wrap32 (z : Z) : Z := (z mod 2 ^ 32)%Z.
Definition wrap64 (z : Z) : Z := (z mod 2 ^ 64)%Z.

Definition bytes (s : string) : list byte := list_byte_of_string s.

(** ** The C library routines the sources call *)

(** [memchr(buf, c, n)]: the offset of the first [c] among the first [n] bytes
    of [buf], read in order and stopping at the first match; [None] is the null
    pointer.  Scanning past the end of the buffer without a match is undefined. *)
Definition memchr (buf : list byte) (c : byte) (n : Z) : outcome (option nat) :=
  match list_find (λ b, b = c) buf with
  | Some (i, _) => if decide (Z.of_nat i < n)%Z then Ok (Some i) else Ok None
  | None => if decide (n ≤ Z.of_nat (length buf))%Z then Ok None else Undefined
  end.

(** [!memcmp(a, buf, n)] with [n = length a]: reads [n] bytes of [buf]. *)
Definition memcmp_eq (a buf : list byte) : outcome bool :=
  if decide (length a ≤ length buf)
  then Ok (bool_decide (take (length a) buf = a))
  else Undefined.

(** The range [{p, p + n}] handed over as a [std::span]: the first [n] bytes
    behind [p], which have to lie inside the buffer. *)
Definition span (p : list byte) (n : Z) : outcome (list byte) :=
  if decide (n ≤ Z.of_nat (length p))%Z then Ok (take (Z.to_nat n) p) else Undefined.

(** ** LodePNG

    [lodepng.h] is included by [src/image.h] but is not among the sources.  Its
    chunk routines are modelled on the wire format the specification fixes:
    [chunk := length(u32) type(4 bytes) payload(length bytes) crc32(u32)], all
    integers big-endian.  The zlib routines stay parameters (class [Zlib]). *)
Module LodePNG.

(** Modelled from the spec: lodepng_read32bitInt, a big-endian u32. *)
Definition read32bitInt (buf : list byte) : Z :=
  match buf with
  | b0 :: b1 :: b2 :: b3 :: _ =>
      Z.lor (Z.lor (Z.lor (Z.shiftl (Z_of_byte b0) 24) (Z.shiftl (Z_of_byte b1) 16))
               (Z.shiftl (Z_of_byte b2) 8)) (Z_of_byte b3)
  | _ => 0%Z
  end.

(** Modelled from the spec: lodepng_set32bitInt, the four bytes of a u32,
    most significant first. *)
Definition set32bitInt (value : Z) : list byte :=
  [ byte_of_Z (Z.land (Z.shiftr value 24) 255);
    byte_of_Z (Z.land (Z.shiftr value 16) 255);
    byte_of_Z (Z.land (Z.shiftr value 8) 255);
    byte_of_Z (Z.land value 255) ].

(** Modelled from the spec: lodepng_crc32, the CRC-32 of PNG (polynomial
    0xEDB88320, initial value and final complement 0xFFFFFFFF). *)
Definition crc32_bit (r : Z) : Z :=
  if Z.testbit r 0 then Z.lxor (Z.shiftr r 1) 0xEDB88320 else Z.shiftr r 1.

Definition crc32_byte (r : Z) (b : byte) : Z :=
  Nat.iter 8 crc32_bit (Z.lxor r (Z_of_byte b)).

Definition crc32 (data : list byte) : Z :=
  Z.lxor (fold_left crc32_byte data 0xFFFFFFFF%Z) 0xFFFFFFFF.

(** Modelled from the spec: lodepng_chunk_length, the length field at the
    head of the chunk. *)
Definition chunk_length (chunk : list byte) : outcome Z :=
  if decide (4 ≤ length chunk) then Ok (read32bitInt chunk) else Undefined.

(** Modelled from the spec: lodepng_chunk_data_const, the payload starts
    after the length and the type code. *)
Definition chunk_data_const (chunk : list byte) : list byte := drop 8 chunk.

(** Modelled from the spec: lodepng_chunk_type_equals, the four bytes of the
    type code compared with [type]. *)
Definition chunk_type_equals (chunk : list byte) (type : list byte) : outcome bool :=
  if decide (8 ≤ length chunk)
  then Ok (bool_decide (take 4 (drop 4 chunk) = type))
  else Undefined.

(** Modelled from the spec: lodepng_chunk_create on an empty output buffer,
    the payload wrapped with its length, its type code and the CRC over type
    code and payload. *)
Definition chunk_create (data : list byte) (type : list byte) : list byte :=
  set32bitInt (Z.of_nat (length data)) ++ type ++ data
    ++ set32bitInt (crc32 (type ++ data)).

(** The eight bytes every PNG file starts with. *)
Definition PNG_magic : list byte := [x89; x50; x4e; x47; x0d; x0a; x1a; x0a].

(** Modelled from the spec: lodepng_chunk_next_const(chunk, end) on offsets
    into [image], with [end = length image].  The next chunk starts
    [length + 12] bytes further; a chunk that is truncated or claims to extend
    past the end of the buffer ends the walk.  LodePNG also steps over a PNG
    signature it is pointed at; no whole chunk ([wf_chunk]) starts with one. *)
Definition chunk_next_const (image : list byte) (chunk : nat) : nat :=
  let available_size := length image - chunk in
  if decide (length image ≤ chunk ∨ available_size < 12) then length image
  else if bool_decide (take 8 (drop chunk image) = PNG_magic) then chunk + 8
  else
    let total_chunk_length := (read32bitInt (drop chunk image) + 12)%Z in
    if decide (Z.of_nat available_size < total_chunk_length)%Z then length image
    else chunk + Z.to_nat total_chunk_length.

(** Modelled from the spec: lodepng_chunk_find_const(chunk, end, type), the
    first chunk at or after [chunk] whose type code is [type]; [None] is the
    null pointer returned when the walk reaches the end. *)
Fixpoint chunk_find_const (fuel : nat) (image : list byte) (chunk : nat)
    (type : list byte) : option nat :=
  match fuel with
  | 0 => None
  | S fuel =>
      if decide (length image ≤ chunk ∨ length image - chunk < 12) then None
      else if bool_decide (take 4 (drop 4 (drop chunk image)) = type) then Some chunk
      else chunk_find_const fuel image (chunk_next_const image chunk) type
  end.

End LodePNG.

(** ** zlib, as [ImageImplementation::compress] and [::decompress] use it

    [lodepng_zlib_compress] and [lodepng_zlib_decompress] are parameters.
    [None] stands for a non-zero LodePNG error code, which [check_error] turns
    into an exception. *)
Class Zlib : Type := {
  lodepng_zlib_compress : list byte → list byte;
  lodepng_zlib_decompress : list byte → option (list byte);
}.

(** What the development assumes of zlib where it needs it: inflating a
    deflated stream gives the data back. *)
Class ZlibRoundTrip `{Zlib} : Prop :=
  zlib_round_trip : ∀ data, lodepng_zlib_decompress (lodepng_zlib_compress data) = Some data.

Module ImageImplementation.
Section with_zlib.
Context `{Zlib}.

Definition decompress (compressed : list byte) : outcome (list byte) :=
  match lodepng_zlib_decompress compressed with
  | Some decompressed => Ok decompressed
  | None => Throw LodePNGError
  end.

Definition compress (data : list byte) : list byte := lodepng_zlib_compress data.

Definition chunk_encode (data : list byte) (type : list byte) : list byte :=
  LodePNG.chunk_create data type.
End with_zlib.
End ImageImplementation.

(** ** [template <class ChunkT> struct Image] asks this of [ChunkT] *)
Class ChunkT (T : Type) : Type := MkChunkT {
  (* ChunkT::encode() *)
  encode : T → list byte;
  (* ChunkT::is_valid(chunk) *)
  is_valid : list byte → outcome bool;
  (* ChunkT::ChunkT(chunk), the constructor from a pointer to a raw chunk *)
  from_raw : list byte → outcome T;
}.

(** ** [struct TextChunk] *)
Module TextChunk.

Record t : Type := Build { key : list byte; value : list byte }.

Definition type : list byte := Eval cbv in bytes "zTXt".

Section with_zlib.
Context `{Zlib}.

(** [explicit TextChunk(const unsigned char *chunk)] *)
Definition decode (chunk : list byte) : outcome t :=
  length ← LodePNG.chunk_length chunk;
  let data := LodePNG.chunk_data_const chunk in
  end_of_key ← memchr data x00 (wrap32 (length - 1));
  match end_of_key with
  | None => Throw CorruptChunk
  | Some end_of_key =>
      let key := take end_of_key data in
      let compression_method := S end_of_key in
      method ← from_option Ok Undefined (data !! compression_method);
      if decide (method ≠ x00) then Throw CorruptChunk
      else
        let compressed := S compression_method in
        let compressed_length := wrap64 (length - Z.of_nat compressed) in
        input ← span (drop compressed data) compressed_length;
        decompressed ← ImageImplementation.decompress input;
        Ok (Build key decompressed)
  end.

(** [encode_data()] *)
Definition encode_data (c : t) : list byte :=
  let compressed := ImageImplementation.compress (value c) in
  key c ++ [x00] ++ [x00] ++ compressed.

(** [encode()] *)
Definition encode (c : t) : list byte :=
  ImageImplementation.chunk_encode (encode_data c) type.

(** [is_valid(const unsigned char *chunk)] *)
Definition is_valid (chunk : list byte) : outcome bool :=
  LodePNG.chunk_type_equals chunk type.

#[global] Instance chunkT : ChunkT t := MkChunkT t encode is_valid decode.
End with_zlib.
End TextChunk.

(** ** [struct SubFile] *)

(** A [std::filesystem::path] is kept as its UTF-8 encoding: [u8string()] reads
    it and the constructor from a [std::u8string] stores it. *)
Record path : Type := Path { u8string : list byte }.

Module SubFile.

Record t : Type := Build { name : path; contents : list byte }.

(** [from_merged(std::basic_string_view<unsigned char> data)].  The result of
    [memchr] is used unchecked: with a null [end_of_filename] the ranges
    [{data.data(), end_of_filename}] and [{end_of_filename + 1, ...}] are not
    ranges at all. *)
Definition from_merged (data : list byte) : outcome t :=
  end_of_filename ← memchr data x00 (Z.of_nat (length data));
  match end_of_filename with
  | Some end_of_filename =>
      let filename := Path (take end_of_filename data) in
      let contents := drop (S end_of_filename) data in
      Ok (Build filename contents)
  | None => Undefined
  end.

(** [merged() &&] *)
Definition merged (f : t) : list byte :=
  let filename := u8string (name f) in
  filename ++ [x00] ++ contents f.

End SubFile.

(** ** [struct FuseChunk final : public TextChunk<std::vector<unsigned char>>] *)
Module FuseChunk.

(** The data members are those of the base class. *)
Record t : Type := Build { base : TextChunk.t }.

(** [static constexpr std::string_view key = "PNGFuse"] *)
Definition key : list byte := Eval cbv in bytes "PNGFuse".

Definition type : list byte := Eval cbv in bytes "fuSe".

Section with_zlib.
Context `{Zlib}.

(** [encode() const final] *)
Definition encode (c : t) : list byte :=
  ImageImplementation.chunk_encode (TextChunk.encode_data (base c)) type.

(** [explicit FuseChunk(SubFile &&data) : TextChunk(key, std::move(data).merged())] *)
Definition of_subfile (data : SubFile.t) : t :=
  Build (TextChunk.Build key (SubFile.merged data)).

(** [explicit FuseChunk(const unsigned char *chunk) : TextChunk(chunk)] *)
Definition decode (chunk : list byte) : outcome t :=
  b ← TextChunk.decode chunk;
  Ok (Build b).

(** [to_subfile()] *)
Definition to_subfile (c : t) : outcome SubFile.t :=
  SubFile.from_merged (TextChunk.value (base c)).

(** [is_valid(const unsigned char *chunk)]; [&&] evaluates the [memcmp]
    only when the type code matched. *)
Definition is_valid (chunk : list byte) : outcome bool :=
  type_ok ← LodePNG.chunk_type_equals chunk type;
  if type_ok : bool then memcmp_eq key (LodePNG.chunk_data_const chunk)
  else Ok false.

#[global] Instance chunkT : ChunkT t := MkChunkT t encode is_valid decode.
End with_zlib.
End FuseChunk.

(** ** [std::vector<unsigned char>] operations used by [Image] *)

(** [v.insert(std::next(v.begin(), pos), first, last)]: [pos] has to be a
    position of [v] ([v.end()] included). *)
Definition vector_insert (v : list byte) (pos : nat) (range : list byte) : outcome (list byte) :=
  if decide (pos ≤ length v) then Ok (take pos v ++ range ++ drop pos v) else Undefined.

(** [v.erase(std::next(b, first), std::next(b, last))]: [[first, last)] has to
    be a range of [v]. *)
Definition vector_erase (v : list byte) (first last : nat) : outcome (list byte) :=
  if decide (first ≤ last ∧ last ≤ length v) then Ok (take first v ++ drop last v) else Undefined.

(** ** [template <class ChunkT> struct Image] *)
Module Image.

(** The object: the raw PNG data and the protected member [idat_end_pos]. *)
Record t : Type := Build { image : list byte; idat_end_pos : nat }.

Definition PNG_SIGNATURE : list byte := [x89; x50; x4e; x47; x0d; x0a; x1a; x0a].

Definition IDAT : list byte := Eval cbv in bytes "IDAT".

(** The [while] loop of [find_idat_end]; every round moves [chunk] forward,
    so [S (length image)] rounds of fuel are never used up
    (lemma [find_idat_end_loop_fuel]). *)
Fixpoint find_idat_end_loop (fuel : nat) (image : list byte) (chunk : nat) : outcome nat :=
  match fuel with
  | 0 => Undefined
  | S fuel =>
      is_idat ← LodePNG.chunk_type_equals (drop chunk image) IDAT;
      if is_idat : bool
      then find_idat_end_loop fuel image (LodePNG.chunk_next_const image chunk)
      else Ok chunk
  end.

(** [find_idat_end()].  A null result of [lodepng_chunk_find_const] is passed
    on to [lodepng_chunk_type_equals], which reads through it. *)
Definition find_idat_end (image : list byte) : outcome nat :=
  match LodePNG.chunk_find_const (S (length image)) image 8 IDAT with
  | Some chunk => find_idat_end_loop (S (length image)) image chunk
  | None => Undefined
  end.

(** [explicit Image(const path &file)], from the bytes [read(file)] returned. *)
Definition load (file : list byte) : outcome t :=
  if decide (length file < 8 ∨ take 8 file ≠ PNG_SIGNATURE) then Throw NotValidPNG
  else
    idat_end_pos ← find_idat_end file;
    Ok (Build file idat_end_pos).

Section with_chunk.
Context {T : Type} `{ChunkT T}.

(** [void add_chunk(const ChunkT &chunk)] *)
Definition add_chunk (chunk : T) (img : t) : outcome t :=
  let encoded_chunk := encode chunk in
  image' ← vector_insert (image img) (idat_end_pos img) encoded_chunk;
  Ok (Build image' (idat_end_pos img)).

(** The last loop of the multi-chunk [add_chunk], over
    [std::ranges::reverse_view(encoded)]. *)
Fixpoint insert_each (encoded : list (list byte)) (image : list byte) (pos : nat)
    : outcome (list byte) :=
  match encoded with
  | [] => Ok image
  | encoded_chunk :: encoded =>
      image' ← vector_insert image pos encoded_chunk;
      insert_each encoded image' pos
  end.

(** [void add_chunk(const std::vector<ChunkT> &chunks)]: every chunk is
    encoded (by [std::async], each from its own data), then the encoded
    chunks are inserted last to first at [idat_end_pos]. *)
Definition add_chunks (chunks : list T) (img : t) : outcome t :=
  let encoded := map encode chunks in
  image' ← insert_each (rev encoded) (image img) (idat_end_pos img);
  Ok (Build image' (idat_end_pos img)).

(** The [for] loop of [get_chunks], from [chunk] on, appending to [chunks]. *)
Fixpoint get_chunks_loop (fuel : nat) (image : list byte) (chunk : nat) (chunks : list T)
    : outcome (list T) :=
  match fuel with
  | 0 => Undefined
  | S fuel =>
      if decide (chunk < length image) then
        valid ← is_valid (drop chunk image);
        if valid : bool then
          c ← from_raw (drop chunk image);
          get_chunks_loop fuel image (LodePNG.chunk_next_const image chunk) (chunks ++ [c])
        else
          get_chunks_loop fuel image (LodePNG.chunk_next_const image chunk) chunks
      else Ok chunks
  end.

(** [std::vector<ChunkT> get_chunks() const]; [image.back()] and
    [begin + 8] need the eight bytes the constructor checked. *)
Definition get_chunks (img : t) : outcome (list T) :=
  if decide (8 ≤ length (image img))
  then get_chunks_loop (S (length (image img))) (image img) 8 []
  else Undefined.

(** The scanning loop of [clear_chunks]: the state is [ranges],
    [range_begin] and [chunk_count]. *)
Fixpoint clear_chunks_scan (fuel : nat) (image : list byte) (chunk : nat)
    (ranges : list (nat * nat)) (range_begin : option nat) (chunk_count : nat)
    : outcome (list (nat * nat) * option nat * nat) :=
  match fuel with
  | 0 => Undefined
  | S fuel =>
      if decide (chunk < length image) then
        valid ← is_valid (drop chunk image);
        let next := LodePNG.chunk_next_const image chunk in
        if valid : bool then
          clear_chunks_scan fuel image next ranges
            (match range_begin with None => Some chunk | Some _ => range_begin end)
            (S chunk_count)
        else
          match range_begin with
          | Some range_begin =>
              let range_end := chunk in
              clear_chunks_scan fuel image next (ranges ++ [(range_begin, range_end)])
                None chunk_count
          | None => clear_chunks_scan fuel image next ranges None chunk_count
          end
      else Ok (ranges, range_begin, chunk_count)
  end.

(** The erasing loop of [clear_chunks], over
    [std::ranges::reverse_view(ranges)]. *)
Fixpoint erase_each (ranges : list (nat * nat)) (image : list byte) : outcome (list byte) :=
  match ranges with
  | [] => Ok image
  | (_range_begin, _range_end) :: ranges =>
      image' ← vector_erase image _range_begin _range_end;
      erase_each ranges image'
  end.

(** [size_t clear_chunks()]: the count returned and the object afterwards. *)
Definition clear_chunks (img : t) : outcome (nat * t) :=
  if decide (8 ≤ length (image img)) then
    '(ranges, _, chunk_count) ←
      clear_chunks_scan (S (length (image img))) (image img) 8 [] None 0;
    image' ← erase_each (rev ranges) (image img);
    Ok (chunk_count, Build image' (idat_end_pos img))
  else Undefined.

End with_chunk.
End Image.

(** ** [struct SubFileImage : public Image<FuseChunk>] *)
Module SubFileImage.
Section with_zlib.
Context `{Zlib}.

(** [add_sub_file(const path &file)], from the [SubFile] that
    [SubFile::from_file] made of the file. *)
Definition add_sub_file (file : SubFile.t) (img : Image.t) : outcome Image.t :=
  Image.add_chunk (FuseChunk.of_subfile file) img.

(** [add_sub_file(const std::vector<path> &files)] *)
Definition add_sub_files (files : list SubFile.t) (img : Image.t) : outcome Image.t :=
  Image.add_chunks (map FuseChunk.of_subfile files) img.

(** The loop of [get_sub_files()]. *)
Fixpoint to_subfiles (chunks : list FuseChunk.t) : outcome (list SubFile.t) :=
  match chunks with
  | [] => Ok []
  | chunk :: chunks =>
      f ← FuseChunk.to_subfile chunk;
      fs ← to_subfiles chunks;
      Ok (f :: fs)
  end.

(** [get_sub_files() const] *)
Definition get_sub_files (img : Image.t) : outcome (list SubFile.t) :=
  chunks ← Image.get_chunks img;
  to_subfiles chunks.
End with_zlib.
End SubFileImage.

(** ** Chunk streams

    The vocabulary of the statements about [Image]: a buffer that is the PNG
    signature followed by whole chunks. *)

(** The bytes of one whole chunk: twelve bytes of framing around a payload of
    the length the header announces.  Length and type code together are not
    the PNG signature (a type code is made of letters). *)
Definition wf_chunk (c : list byte) : Prop :=
  12 ≤ length c ∧
  (LodePNG.read32bitInt c + 12 = Z.of_nat (length c))%Z ∧
  take 8 c ≠ LodePNG.PNG_magic.

(** What the scanning loops see at each chunk of a stream: the chunk followed
    by the rest of the buffer. *)
Fixpoint views (cs : list (list byte)) : list (list byte) :=
  match cs with
  | [] => []
  | c :: cs => (c ++ concat cs) :: views cs
  end.

Section chunk_streams.
Context {T : Type} `{ChunkT T}.

(** [ChunkT::is_valid] and, on a chunk it accepts, the constructor look at
    the chunk [c] only and not at what follows it in the buffer. *)
Definition self_contained (c : list byte) : Prop :=
  ∀ rest1 rest2,
    is_valid (c ++ rest1) = is_valid (c ++ rest2) ∧
    (is_valid (c ++ rest1) = Ok true → from_raw (c ++ rest1) = from_raw (c ++ rest2)).

(** At this place of the buffer [is_valid] returns, and the constructor
    returns too if [is_valid] said yes. *)
Definition scannable (view : list byte) : Prop :=
  ∃ valid, is_valid view = Ok valid ∧ (valid = true → ∃ c, from_raw view = Ok c).

(** The chunks of the stream [cs] that [is_valid] accepts, decoded, in stream
    order; the first failure on the way is the result. *)
Fixpoint enumerate (cs : list (list byte)) : outcome (list T) :=
  match cs with
  | [] => Ok []
  | c :: cs =>
      valid ← is_valid (c ++ concat cs);
      if valid : bool then
        x ← from_raw (c ++ concat cs);
        xs ← enumerate cs;
        Ok (x :: xs)
      else enumerate cs
  end.

(** The chunks that can be embedded: encoding gives a whole chunk that
    [is_valid] accepts and the constructor decodes, wherever it is put. *)
Class ChunkCodec (encodable : T → Prop) : Prop := {
  encode_wf : ∀ x, encodable x → wf_chunk (encode x);
  encode_is_valid : ∀ x rest, encodable x → is_valid (encode x ++ rest) = Ok true;
  encode_from_raw : ∀ x rest, encodable x → from_raw (encode x ++ rest) = Ok x;
}.
End chunk_streams.

(** The [TextChunk]s and [FuseChunk]s that fit the format: no NUL in the key,
    a payload whose length fits the 32-bit length field, and for a [FuseChunk]
    the keyword as key. *)
Definition TextChunk_encodable `{Zlib} (c : TextChunk.t) : Prop :=
  (x00 ∉ TextChunk.key c) ∧ (Z.of_nat (length (TextChunk.encode_data c)) < 2 ^ 32)%Z.

Definition FuseChunk_encodable `{Zlib} (c : FuseChunk.t) : Prop :=
  TextChunk.key (FuseChunk.base c) = FuseChunk.key ∧
  (Z.of_nat (length (TextChunk.encode_data (FuseChunk.base c))) < 2 ^ 32)%Z.

(** ** What [clear_chunks] leaves of a stream *)

Section verdicts.
Context {T : Type} `{ChunkT T}.

(** [is_valid] is of one mind about the chunk [c], whatever follows it. *)
Definition verdict (c : list byte) (valid : bool) : Prop :=
  ∀ rest, is_valid (c ++ rest) = Ok valid.

(** A whole chunk together with its verdict. *)
Definition judged (cv : list byte * bool) : Prop := wf_chunk cv.1 ∧ verdict cv.1 cv.2.
End verdicts.

(** The ranges, the open range and the number of chunks that the scan of
    [clear_chunks] adds to its state over the chunks [vs] (each with the
    verdict of [is_valid]), the first of them at offset [off]. *)
Fixpoint scanned (off : nat) (range_begin : option nat) (vs : list (list byte * bool))
    : list (nat * nat) * option nat * nat :=
  match vs with
  | [] => ([], range_begin, 0)
  | (c, true) :: vs =>
      let '(ranges, range_begin', n) :=
        scanned (off + length c)
          (match range_begin with None => Some off | Some _ => range_begin end) vs in
      (ranges, range_begin', S n)
  | (c, false) :: vs =>
      let '(ranges, range_begin', n) := scanned (off + length c) None vs in
      (match range_begin with Some b => (b, off) :: ranges | None => ranges end,
       range_begin', n)
  end.

(** The bytes that stay of the open run [run] followed by the chunks [vs]: a
    run of accepted chunks goes when a chunk that is not accepted follows it,
    and stays when the stream ends in it. *)
Fixpoint remaining (run : list byte) (vs : list (list byte * bool)) : list byte :=
  match vs with
  | [] => run
  | (c, true) :: vs => remaining (run ++ c) vs
  | (c, false) :: vs => c ++ remaining [] vs
  end.

(** The chunks of [vs] that [is_valid] does not accept. *)
Definition rejected (vs : list (list byte * bool)) : list (list byte * bool) :=
  filter (λ cv, cv.2 = false) vs.

(** The number of chunks of [vs] that [is_valid] accepts. *)
Definition accepted (vs : list (list byte * bool)) : nat :=
  length (filter (λ cv, cv.2 = true) vs).

(** ** Sample data

    A one-pixel greyscale PNG and the chunks used by the closed examples below.
    [stored_a_txt] is the zlib stream (one stored block) of the merged record
    of the file [a.txt] with contents [hi]. *)
Module Sample.

Definition IHDR : list byte :=
  LodePNG.chunk_create
    [x00; x00; x00; x01; x00; x00; x00; x01; x08; x00; x00; x00; x00] (bytes "IHDR").

Definition IDAT : list byte :=
  LodePNG.chunk_create [x78; x9c; x63; x60; x00; x00; x00; x02; x00; x01] Image.IDAT.

Definition IEND : list byte := LodePNG.chunk_create [] (bytes "IEND").

Definition png : list byte := Image.PNG_SIGNATURE ++ IHDR ++ IDAT ++ IEND.

Definition stored_a_txt : list byte :=
  [x78; x01; x01; x08; x00; xf7; xff; x61; x2e; x74; x78; x74; x00; x68; x69;
   x0c; x6b; x02; xc1].

(** A [fuSe] chunk as PNGFuse writes it, and one whose key is longer than
    the keyword. *)
Definition fuSe_a_txt : list byte :=
  LodePNG.chunk_create (bytes "PNGFuse" ++ [x00; x00] ++ stored_a_txt) FuseChunk.type.

Definition fuSe_long_key : list byte :=
  LodePNG.chunk_create (bytes "PNGFuseX" ++ [x00; x00] ++ stored_a_txt) FuseChunk.type.

(** A [zTXt] chunk with an empty payload. *)
Definition zTXt_empty : list byte := LodePNG.chunk_create [] TextChunk.type.

(** The PNG with that embedded file after [IEND]. *)
Definition png_trailing : list byte := png ++ fuSe_a_txt.

(** The degenerate zlib that stores the data as it is: an instance of the
    parameters for which [ZlibRoundTrip] holds. *)
Definition store : Zlib :=
  {| lodepng_zlib_compress := λ data, data; lodepng_zlib_decompress := Some |}.

Definition file (name contents : string) : SubFile.t :=
  SubFile.Build (Path (bytes name)) (bytes contents).

Definition A : FuseChunk.t := FuseChunk.of_subfile (file "A" "first").
Definition B : FuseChunk.t := FuseChunk.of_subfile (file "B" "second").
Definition C : FuseChunk.t := FuseChunk.of_subfile (file "C" "third").
Definition E : FuseChunk.t := FuseChunk.of_subfile (file "E" "earlier").

(** A PNG that already carries the embedded file [E], placed before the
    image data. *)
Definition early : list byte := FuseChunk.encode (H := store) E.

Definition png_early : list byte := Image.PNG_SIGNATURE ++ IHDR ++ early ++ IDAT ++ IEND.

End Sample.

(** ** More vocabulary for the statements beyond the claims *)

(** The type code of a whole chunk. *)
Definition chunk_type (c : list byte) : list byte := take 4 (drop 4 c).

(** Ranges as the scan of [clear_chunks] collects them: in ascending order,
    none empty, none overlapping the next, all between [lo] and [hi]. *)
Fixpoint ranges_ok (lo : nat) (ranges : list (nat * nat)) (hi : nat) : Prop :=
  match ranges with
  | [] => lo ≤ hi
  | (b, e) :: ranges => lo ≤ b ∧ b < e ∧ ranges_ok e ranges hi
  end.

(** ** [src/nativeunicode.h] and [src/argumentparsing.h]

    The build that is not for Windows: [native_string] is [std::string], a
    [list byte], and [NATIVE_WIDTH] leaves its literal as it is.  The program
    sets no locale, so [tolower] is that of the "C" locale. *)

(** [tolower((unsigned char) c)] in the "C" locale: the letters [A] to [Z] go
    to [a] to [z], every other byte stays. *)
Definition tolower (c : byte) : byte :=
  if decide (65 ≤ Z_of_byte c ≤ 90)%Z then byte_of_Z (Z_of_byte c + 32) else c.

(** [string_to_lowercase(native_string s)] *)
Definition string_to_lowercase (s : list byte) : list byte := map tolower s.

(** [a.starts_with(b)] of [std::basic_string] and [std::basic_string_view] *)
Definition starts_with (a b : list byte) : bool := bool_decide (b `prefix_of` a).

(** [a.ends_with(b)] *)
Definition ends_with (a b : list byte) : bool := bool_decide (b `suffix_of` a).

(** [a.find(c)]: the position of the first [c]; [None] is [npos]. *)
Definition find (a : list byte) (c : byte) : option nat :=
  fst <$> list_find (λ b, b = c) a.

(** What parsing the command line can throw. *)
Inductive flag_error : Type :=
| NoOutputPath                  (* std::runtime_error("Custom output flag was specified, but no path was given.") *)
| UnknownFlag (flag : list byte) (* native_runtime_error("Unknown flag specified: " + flag) *)
| InvalidFlagFormat             (* std::logic_error("Attempted to process an invalid flag format.") *)
| OverwriteAndOutput.           (* std::runtime_error("Cannot specify both overwrite mode and a custom output path.") *)

(** A call of the parsing code returns, throws, or has undefined behaviour
    (an index outside the arguments, [front()] of an empty string). *)
Inductive parse (A : Type) : Type :=
| Parsed (a : A)
| Rejected (e : flag_error)
| Unspecified.
Arguments Parsed {A} a.
Arguments Rejected {A} e.
Arguments Unspecified {A}.

#[global] Instance parse_ret : MRet parse := @Parsed.
#[global] Instance parse_bind : MBind parse := λ A B f m,
  match m with
  | Parsed a => f a
  | Rejected e => Rejected e
  | Unspecified => Unspecified
  end.

(** [args[index]] of a [std::span] or [std::vector] *)
Definition at_index {A} (args : list A) (index : nat) : parse A :=
  from_option Parsed Unspecified (args !! index).

(** [struct Flags] *)
Module Flags.

Record t : Type := Build {
  help : bool;
  list' : bool;       (* the member [list] *)
  clean : bool;
  overwrite : bool;
  _ignore_rest : bool;
  output : option path;
}.

(** The default member initializers. *)
Definition initial : t := Build false false false false false None.

Definition set_help (f : t) : t :=
  Build true (list' f) (clean f) (overwrite f) (_ignore_rest f) (output f).
Definition set_list (f : t) : t :=
  Build (help f) true (clean f) (overwrite f) (_ignore_rest f) (output f).
Definition set_clean (f : t) : t :=
  Build (help f) (list' f) true (overwrite f) (_ignore_rest f) (output f).
Definition set_overwrite (f : t) : t :=
  Build (help f) (list' f) (clean f) true (_ignore_rest f) (output f).
Definition set_ignore_rest (f : t) : t :=
  Build (help f) (list' f) (clean f) (overwrite f) true (output f).
(** [output.emplace(value)] *)
Definition emplace_output (value : list byte) (f : t) : t :=
  Build (help f) (list' f) (clean f) (overwrite f) (_ignore_rest f) (Some (Path value)).

(** [FlagValue::split_value(arg)] *)
Definition split_value (arg : list byte) : option (list byte) :=
  let equals_separator := "="%byte in
  match find arg equals_separator with
  | Some equals_pos =>
      if decide (equals_pos + 1 < length arg) then Some (drop (equals_pos + 1) arg)
      else None
  | None => None
  end.

(** [FlagValue::split_prefix(arg)]; [substr(0, npos)] is all of [arg]. *)
Definition split_prefix (arg : list byte) : list byte :=
  let equals_separator := "="%byte in
  match find arg equals_separator with
  | Some equals_pos => take equals_pos arg
  | None => arg
  end.

(** The constructor [FlagValue(args, index)]: the members [value] and
    [reached_ahead]. *)
Definition FlagValue (args : list (list byte)) (index : nat)
    : parse (option (list byte) * bool) :=
  arg ← at_index args index;
  match split_value arg with
  | Some value => Parsed (Some value, false)
  | None =>
      if decide (index + 1 < length args) then
        next ← at_index args (index + 1);
        Parsed (Some next, true)
      else Parsed (None, false)
  end.

(** The body shared by the two places that read the value of an output
    flag. *)
Definition read_output (args : list (list byte)) (index : nat)
    (flags : t) (extra_value_consumed : bool) : parse (t * bool) :=
  '(arg_value, reached_ahead) ← FlagValue args index;
  match arg_value with
  | Some value => Parsed (emplace_output value flags, extra_value_consumed || reached_ahead)
  | None => Rejected NoOutputPath
  end.

(** The loop over the grouped short flags. *)
Fixpoint short_flags (arg : list byte) (args : list (list byte)) (index : nat)
    (equals_encountered : bool) (flags : t) (extra_value_consumed : bool)
    : parse (t * bool) :=
  match arg with
  | [] => Parsed (flags, extra_value_consumed)
  | short_flag :: arg =>
      if equals_encountered then Parsed (flags, extra_value_consumed)
      else if decide (short_flag = "="%byte) then
        short_flags arg args index true flags extra_value_consumed
      else if decide (short_flag = "h"%byte) then
        short_flags arg args index false (set_help flags) extra_value_consumed
      else if decide (short_flag = "l"%byte) then
        short_flags arg args index false (set_list flags) extra_value_consumed
      else if decide (short_flag = "c"%byte ∨ short_flag = "r"%byte) then
        short_flags arg args index false (set_clean flags) extra_value_consumed
      else if decide (short_flag = "m"%byte) then
        short_flags arg args index false (set_overwrite flags) extra_value_consumed
      else if decide (short_flag = "o"%byte) then
        '(flags, extra_value_consumed) ← read_output args index flags extra_value_consumed;
        short_flags arg args index false flags extra_value_consumed
      else Rejected (UnknownFlag [short_flag])
  end.

Definition help_flag : list byte := Eval cbv in bytes "help".
Definition list_flag : list byte := Eval cbv in bytes "list".
Definition clean_flag_1 : list byte := Eval cbv in bytes "clean".
Definition clean_flag_2 : list byte := Eval cbv in bytes "remove".
Definition overwrite_flag_1 : list byte := Eval cbv in bytes "overwrite".
Definition overwrite_flag_2 : list byte := Eval cbv in bytes "modify".
Definition output_flag : list byte := Eval cbv in bytes "out".

(** [int process_flag(std::span<native_string> args, int index)]: the
    number returned and the object afterwards. *)
Definition process_flag (flags : t) (args : list (list byte)) (index : nat)
    : parse (nat * t) :=
  if _ignore_rest flags then Parsed (0, flags)
  else
    arg ← at_index args index;
    let arg := string_to_lowercase arg in
    if decide (arg = bytes "--") then Parsed (0, set_ignore_rest flags)
    else if starts_with arg (bytes "--") then
      let arg := drop 2 arg in
      if starts_with help_flag arg then Parsed (0, set_help flags)
      else if starts_with list_flag arg then Parsed (0, set_list flags)
      else if starts_with clean_flag_1 arg || starts_with clean_flag_2 arg
      then Parsed (0, set_clean flags)
      else if starts_with overwrite_flag_2 arg
              || (bool_decide (1 < length arg) && starts_with overwrite_flag_1 arg)
      then Parsed (0, set_overwrite flags)
      else
        let arg_prefix := split_prefix arg in
        if starts_with output_flag arg_prefix || starts_with arg_prefix output_flag then
          '(flags, extra_value_consumed) ← read_output args index flags false;
          Parsed (Nat.b2n extra_value_consumed, flags)
        else Rejected (UnknownFlag arg)
    else if starts_with arg (bytes "-") then
      let arg := drop 1 arg in
      '(flags, extra_value_consumed) ← short_flags arg args index false flags false;
      Parsed (Nat.b2n extra_value_consumed, flags)
    else Rejected InvalidFlagFormat.

End Flags.

(** [struct Arguments] *)
Module Arguments.

(** The members [flags] and [args], and the static [program_path]. *)
Record t : Type := Build {
  flags : Flags.t;
  args : list path;
  program_path : option path;
}.

(** The [for] loop of the constructor; [i] grows in every round, so the
    fuel [length unprocessed_args] is never used up. *)
Fixpoint loop (fuel : nat) (unprocessed_args : list (list byte)) (i : nat)
    (flags : Flags.t) (args : list path) : parse (Flags.t * list path) :=
  match fuel with
  | 0 => Unspecified
  | S fuel =>
      if decide (i < length unprocessed_args) then
        arg ← at_index unprocessed_args i;
        front ← from_option Parsed Unspecified (head arg);
        if decide (front = "-"%byte) then
          '(consumed, flags) ← Flags.process_flag flags unprocessed_args i;
          loop fuel unprocessed_args (S (i + consumed)) flags args
        else loop fuel unprocessed_args (S i) flags (args ++ [Path arg])
      else Parsed (flags, args)
  end.

(** [Arguments(int argc, char **argv)], from the vector that [native_argv]
    made of [argv]. *)
Definition parse_arguments (unprocessed_args : list (list byte)) : parse t :=
  program ← from_option Parsed Unspecified (head unprocessed_args);
  '(flags, args) ← loop (length unprocessed_args) unprocessed_args 1 Flags.initial [];
  if Flags.overwrite flags && bool_decide (is_Some (Flags.output flags))
  then Rejected OverwriteAndOutput
  else Parsed (Build flags args (Some (Path program))).

(** [num_args()] *)
Definition num_args (a : t) : nat := length (args a).

End Arguments.

(** ** Vocabulary for the statements about the command line *)

(** An argument that the constructor of [Arguments] does not hand to
    [process_flag]: it does not start with [-]. *)
Definition positional (arg : list byte) : Prop := head arg ≠ Some "-"%byte.

#[global] Instance positional_dec arg : Decision (positional arg).
Proof. unfold positional. apply _. Defined.

(** The letters of the short flags without a value. *)
Definition plain_short_flag (c : byte) : Prop :=
  tolower c ∈ [ "h"%byte; "l"%byte; "c"%byte; "r"%byte; "m"%byte ].

(** ** The output names of [src/main.cpp]

    The members of [std::filesystem::path] that [fuse], [clean] and
    [find_target] call, as the C++ standard gives them for a POSIX system: the
    separator is [/], a path has no root name, and the path is kept as the
    string it was made from. *)
Module fs.

(** [a.rfind(c)]: the position of the last [c]. *)
Fixpoint rfind (a : list byte) (c : byte) : option nat :=
  match a with
  | [] => None
  | b :: a =>
      match rfind a c with
      | Some pos => Some (S pos)
      | None => if decide (b = c) then Some 0 else None
      end
  end.

(** [p.filename()]: what follows the last separator. *)
Definition filename (p : path) : path :=
  match rfind (u8string p) "/"%byte with
  | Some pos => Path (drop (S pos) (u8string p))
  | None => p
  end.

(** Where the extension starts in a file name: at its last period, unless
    the name is [.] or [..], has no period, or has only the one it starts
    with. *)
Definition extension_pos (f : list byte) : option nat :=
  if decide (f = bytes "." ∨ f = bytes "..") then None
  else
    match rfind f "."%byte with
    | Some (S pos) => Some (S pos)
    | _ => None
    end.

(** [p.extension()] *)
Definition extension (p : path) : path :=
  let f := u8string (filename p) in
  match extension_pos f with
  | Some pos => Path (drop pos f)
  | None => Path []
  end.

(** [p.stem()] *)
Definition stem (p : path) : path :=
  let f := u8string (filename p) in
  match extension_pos f with
  | Some pos => Path (take pos f)
  | None => Path f
  end.

(** [p += x] *)
Definition concat (p x : path) : path := Path (u8string p ++ u8string x).

(** [p.replace_extension(replacement)]: the extension is taken off the end,
    a period is added when the replacement is not empty and does not start
    with one, and the replacement is added. *)
Definition replace_extension (p replacement : path) : path :=
  let removed :=
    Path (take (length (u8string p) - length (u8string (extension p))) (u8string p)) in
  let dotted :=
    match u8string replacement with
    | [] => removed
    | c :: _ => if decide (c = "."%byte) then removed else concat removed (Path (bytes "."))
    end in
  concat dotted replacement.

(** [p.remove_filename()] *)
Definition remove_filename (p : path) : path :=
  Path (take (length (u8string p) - length (u8string (filename p))) (u8string p)).

(** [p /= x]: an absolute [x] replaces [p]; otherwise a separator is added
    when [p] ends in a file name, and [x] is added. *)
Definition append (p x : path) : path :=
  if decide (head (u8string x) = Some "/"%byte) then x
  else if decide (u8string (filename p) = []) then concat p x
  else concat (concat p (Path (bytes "/"))) x.

(** [p.replace_filename(replacement)] *)
Definition replace_filename (p replacement : path) : path :=
  append (remove_filename p) replacement.

End fs.

Definition PNG_EXTENSION : list byte := Eval cbv in bytes ".png".

(** The predicate of [find_target]: the [std::u8string] overload of
    [string_to_lowercase] in [main.cpp] is the one of [nativeunicode.h] on the
    same bytes. *)
Definition is_target (p : path) : bool :=
  bool_decide (string_to_lowercase (u8string (fs.extension p)) = PNG_EXTENSION).

(** [find_target(r)]: the position of the first path whose extension is
    [.png] in whatever case; [None] is the end iterator. *)
Definition find_target (r : list path) : option nat := fst <$> list_find is_target r.

(** The path that [fuse] saves to: the lines from [path output_file] to the
    call of [save]. *)
Definition fuse_output_file (target_file : path) (overwrite : bool) (output : option path)
    : path :=
  let output_file := default target_file output in
  if negb (bool_decide (is_Some output)) && negb overwrite then
    let output_file := fs.replace_extension output_file (Path (bytes ".fused")) in
    fs.concat output_file (fs.extension target_file)
  else output_file.

(** The path that [clean] saves to: the lines from [path output_path] to the
    call of [save]. *)
Definition clean_output_path (source : path) (overwrite : bool) (output : option path)
    : path :=
  let output_path := default source output in
  if negb (bool_decide (is_Some output)) && negb overwrite then
    let new_stem := u8string (fs.stem output_path) in
    let new_extension := u8string (fs.extension output_path) in
    let '(new_stem, new_extension) :=
      if ends_with (string_to_lowercase new_stem) (bytes ".fused")
      then (take (length new_stem - 6) new_stem, new_extension)
      else (new_stem, bytes ".unfused" ++ new_extension) in
    fs.replace_filename output_path (Path (new_stem ++ new_extension))
  else output_path.

(** ** Vocabulary for the statements about the names *)

(** A path is a directory part, empty or ending in the separator, and a file
    name without separator. *)
Definition splits (p d f : list byte) : Prop :=
  p = d ++ f ∧ ("/"%byte ∉ f) ∧ (d = [] ∨ ∃ d', d = d' ++ ["/"%byte]).


(** * Proofs *)

(** ** Bytes, integers and the C library *)

(** The CRC of the [IEND] chunk of every PNG file. *)
Example crc32_IEND :
  LodePNG.set32bitInt (LodePNG.crc32 (bytes "IEND")) = [xae; x42; x60; x82].
Proof. vm_compute. reflexivity. Qed.

Lemma Z_of_byte_range b : (0 ≤ Z_of_byte b < 256)%Z.
Proof.
  unfold Z_of_byte. pose proof (Byte.to_N_bounded b). lia.
Qed.

Lemma Z_of_byte_of_Z z : (0 ≤ z < 256)%Z → Z_of_byte (byte_of_Z z) = z.
Proof.
  intros Hz. unfold Z_of_byte, byte_of_Z.
  rewrite Z.mod_small by lia.
  destruct (Byte.of_N (Z.to_N z)) as [b|] eqn:E; simpl.
  - apply Byte.to_of_N in E. rewrite E. lia.
  - apply Byte.of_N_None_iff in E. lia.
Qed.

Lemma land_255_range x : (0 ≤ Z.land x 255 < 256)%Z.
Proof.
  change 255%Z with (Z.ones 8). rewrite Z.land_ones by lia.
  apply Z.mod_pos_bound. lia.
Qed.

Lemma testbit_byte_field n s i :
  (0 ≤ s)%Z → (0 ≤ i)%Z →
  Z.testbit (Z.shiftl (Z.land (Z.shiftr n s) 255) s) i
  = Z.testbit n i && (s <=? i)%Z && (i <? s + 8)%Z.
Proof.
  intros Hs Hi.
  destruct (Z.leb_spec s i) as [Hle|Hlt].
  - rewrite Z.shiftl_spec by lia. rewrite Z.land_spec, Z.shiftr_spec by lia.
    replace (i - s + s)%Z with i by lia.
    change 255%Z with (Z.ones 8). rewrite Z.testbit_ones_nonneg by lia.
    destruct (Z.ltb_spec (i - s) 8), (Z.ltb_spec i (s + 8)); try lia;
      destruct (Z.testbit n i); reflexivity.
  - rewrite Z.shiftl_spec_low by lia. destruct (Z.testbit n i); reflexivity.
Qed.

Lemma read32bitInt_set32bitInt n rest :
  (0 ≤ n < 2 ^ 32)%Z → LodePNG.read32bitInt (LodePNG.set32bitInt n ++ rest) = n.
Proof.
  intros Hn. unfold LodePNG.set32bitInt. cbn [app LodePNG.read32bitInt].
  rewrite !Z_of_byte_of_Z by apply land_255_range.
  apply Z.bits_inj'. intros i Hi.
  rewrite !Z.lor_spec.
  rewrite <- (Z.shiftl_0_r (Z.land n 255)) at 1.
  rewrite <- (Z.shiftr_0_r n) at 4.
  rewrite !testbit_byte_field by lia.
  destruct (Z.ltb_spec i 32) as [Hlt|Hge].
  - destruct (Z.testbit n i); simpl; [|reflexivity].
    destruct (Z.leb_spec 24 i), (Z.leb_spec 16 i), (Z.leb_spec 8 i), (Z.leb_spec 0 i),
      (Z.ltb_spec i (24 + 8)), (Z.ltb_spec i (16 + 8)), (Z.ltb_spec i (8 + 8)),
      (Z.ltb_spec i (0 + 8)); simpl; try reflexivity; lia.
  - assert (Z.testbit n i = false) as ->.
    { destruct (Z.eq_dec n 0%Z) as [->|]; [apply Z.bits_0|].
      apply Z.bits_above_log2; [lia|].
      assert (Z.log2 n < 32)%Z by (apply Z.log2_lt_pow2; lia). lia. }
    reflexivity.
Qed.

Lemma length_set32bitInt n : length (LodePNG.set32bitInt n) = 4.
Proof. reflexivity. Qed.


Lemma list_find_first (c : byte) pre post :
  c ∉ pre → list_find (λ b, b = c) (pre ++ c :: post) = Some (length pre, c).
Proof.
  induction pre as [|b pre IH]; intros Hpre; simpl.
  - rewrite decide_True by done. done.
  - apply not_elem_of_cons in Hpre as [Hb Hpre].
    rewrite decide_False by congruence. rewrite IH by done. done.
Qed.

Lemma memchr_first pre c post n :
  c ∉ pre → (Z.of_nat (length pre) < n)%Z →
  memchr (pre ++ c :: post) c n = Ok (Some (length pre)).
Proof.
  intros Hpre Hn. unfold memchr. rewrite list_find_first by done.
  rewrite decide_True by done. done.
Qed.

Lemma memchr_beyond pre c post n :
  c ∉ pre → (n ≤ Z.of_nat (length pre))%Z →
  memchr (pre ++ c :: post) c n = Ok None.
Proof.
  intros Hpre Hn. unfold memchr. rewrite list_find_first by done.
  rewrite decide_False by lia. done.
Qed.

Lemma memchr_absent buf c n :
  c ∉ buf → (n ≤ Z.of_nat (length buf))%Z → memchr buf c n = Ok None.
Proof.
  intros Hbuf Hn. unfold memchr.
  assert (list_find (λ b, b = c) buf = None) as ->.
  { apply list_find_None, Forall_forall. intros b Hb ->. done. }
  rewrite decide_True by done. done.
Qed.

Lemma memchr_all_absent buf c :
  c ∉ buf → memchr buf c (Z.of_nat (length buf)) = Ok None.
Proof. intros. apply memchr_absent; [done|lia]. Qed.

(** ** Encoding and decoding a text chunk *)

Section text_chunk.
Context `{ZlibRoundTrip}.

Lemma decompress_compress data :
  ImageImplementation.decompress (ImageImplementation.compress data) = Ok data.
Proof.
  unfold ImageImplementation.decompress, ImageImplementation.compress.
  rewrite zlib_round_trip. done.
Qed.

Lemma length_encode_data c :
  length (TextChunk.encode_data c)
  = length (TextChunk.key c) + 2 + length (lodepng_zlib_compress (TextChunk.value c)).
Proof.
  unfold TextChunk.encode_data, ImageImplementation.compress.
  rewrite !length_app. simpl. lia.
Qed.

(** Decoding reads nothing behind the chunk: whatever follows the encoded
    chunk in the buffer, the pair comes back. *)
Lemma decode_chunk_create k v type rest :
  length type = 4 →
  x00 ∉ k →
  (Z.of_nat (length (TextChunk.encode_data (TextChunk.Build k v))) < 2 ^ 32)%Z →
  TextChunk.decode
    (ImageImplementation.chunk_encode (TextChunk.encode_data (TextChunk.Build k v)) type
       ++ rest)
  = Ok (TextChunk.Build k v).
Proof.
  intros Htype Hk Hlen.
  pose proof (length_encode_data (TextChunk.Build k v)) as HL. simpl in HL.
  set (L := length (TextChunk.encode_data (TextChunk.Build k v))) in *.
  set (comp := lodepng_zlib_compress v) in *.
  unfold ImageImplementation.chunk_encode, LodePNG.chunk_create. fold L.
  set (crc := LodePNG.set32bitInt _) at 2.
  assert (TextChunk.encode_data (TextChunk.Build k v) = k ++ x00 :: x00 :: comp) as ->
    by done.
  set (tail := comp ++ crc ++ rest).
  assert (((LodePNG.set32bitInt (Z.of_nat L) ++ type ++ (k ++ x00 :: x00 :: comp) ++ crc)
             ++ rest)
          = LodePNG.set32bitInt (Z.of_nat L) ++ (type ++ k ++ x00 :: x00 :: tail)) as ->.
  { unfold tail. rewrite <- !app_assoc. simpl. done. }
  unfold TextChunk.decode, LodePNG.chunk_length, LodePNG.chunk_data_const.
  rewrite decide_True by (rewrite length_app, length_set32bitInt; lia).
  rewrite read32bitInt_set32bitInt by lia. cbn [mbind outcome_bind].
  assert (drop 8 (LodePNG.set32bitInt (Z.of_nat L) ++ type ++ k ++ x00 :: x00 :: tail)
          = k ++ x00 :: x00 :: tail) as ->.
  { rewrite app_assoc. apply drop_app_length'.
    rewrite length_app, length_set32bitInt. lia. }
  assert (wrap32 (Z.of_nat L - 1) = (Z.of_nat L - 1)%Z) as ->
    by (unfold wrap32; apply Z.mod_small; lia).
  rewrite memchr_first by (done || lia). cbn [mbind outcome_bind].
  rewrite take_app_length.
  rewrite (lookup_app_r k) by lia.
  replace (S (length k) - length k) with 1 by lia. cbn [lookup list_lookup from_option].
  cbn [mbind outcome_bind].
  rewrite decide_False by (intros ?; done).
  assert (wrap64 (Z.of_nat L - Z.of_nat (S (S (length k)))) = Z.of_nat (length comp)) as ->
    by (unfold wrap64; rewrite Z.mod_small; lia).
  assert (drop (S (S (length k))) (k ++ x00 :: x00 :: tail) = tail) as ->.
  { change (x00 :: x00 :: tail) with ([x00; x00] ++ tail). rewrite app_assoc.
    apply drop_app_length'. rewrite length_app. simpl. lia. }
  unfold span. rewrite decide_True by (unfold tail; rewrite length_app; lia).
  rewrite Nat2Z.id. unfold tail. rewrite take_app_length. cbn [mbind outcome_bind].
  unfold comp. fold (ImageImplementation.compress v).
  rewrite decompress_compress. done.
Qed.
End text_chunk.


(** ** Walking a stream of whole chunks *)

Ltac step := cbn [mbind outcome_bind mret outcome_ret].

Lemma read32bitInt_nonneg buf : (0 ≤ LodePNG.read32bitInt buf)%Z.
Proof.
  destruct buf as [|b0 [|b1 [|b2 [|b3 buf]]]]; simpl; try lia.
  pose proof (Z_of_byte_range b0). pose proof (Z_of_byte_range b1).
  pose proof (Z_of_byte_range b2). pose proof (Z_of_byte_range b3).
  repeat (apply Z.lor_nonneg; split); try apply Z.shiftl_nonneg; lia.
Qed.

Lemma read32bitInt_app c rest :
  4 ≤ length c → LodePNG.read32bitInt (c ++ rest) = LodePNG.read32bitInt c.
Proof.
  destruct c as [|b0 [|b1 [|b2 [|b3 c]]]]; simpl; intros; lia.
Qed.

Lemma wf_chunk_length c : wf_chunk c → 12 ≤ length c.
Proof. by intros (? & ? & ?). Qed.

Lemma chunk_next_const_wf pre c post :
  wf_chunk c →
  LodePNG.chunk_next_const (pre ++ c ++ post) (length pre) = length pre + length c.
Proof.
  intros (Hlen & Hhdr & Hmagic). unfold LodePNG.chunk_next_const.
  rewrite drop_app_length, read32bitInt_app by lia.
  rewrite take_app_le by lia.
  rewrite !length_app.
  rewrite decide_False by lia. rewrite bool_decide_false by done.
  rewrite decide_False by lia. lia.
Qed.

Lemma chunk_next_const_gt image chunk :
  chunk < length image → chunk < LodePNG.chunk_next_const image chunk.
Proof.
  intros Hlt. unfold LodePNG.chunk_next_const.
  pose proof (read32bitInt_nonneg (drop chunk image)).
  repeat (case_decide || case_bool_decide); lia.
Qed.

Lemma chunk_next_const_le image chunk :
  chunk ≤ length image → LodePNG.chunk_next_const image chunk ≤ length image.
Proof.
  intros Hle. unfold LodePNG.chunk_next_const.
  pose proof (read32bitInt_nonneg (drop chunk image)).
  repeat (case_decide || case_bool_decide); lia.
Qed.

Lemma length_concat_wf cs : Forall wf_chunk cs → 12 * length cs ≤ length (concat cs).
Proof.
  induction 1 as [|c cs Hc _ IH]; simpl; [lia|].
  rewrite length_app. apply wf_chunk_length in Hc. lia.
Qed.

Section streams.
Context {T : Type} `{ChunkT T}.

Lemma get_chunks_loop_stream cs : ∀ fuel pre chunks,
  Forall wf_chunk cs → length cs < fuel →
  Image.get_chunks_loop fuel (pre ++ concat cs) (length pre) chunks
  = (xs ← enumerate cs; Ok (chunks ++ xs)).
Proof.
  induction cs as [|c cs IH]; intros fuel pre chunks Hwf Hfuel;
    (destruct fuel as [|fuel]; [simpl in Hfuel; lia|]); simpl.
  - rewrite decide_False by (rewrite length_app; simpl; lia).
    step. by rewrite app_nil_r.
  - apply Forall_cons in Hwf as [Hc Hwf].
    pose proof (wf_chunk_length _ Hc).
    rewrite decide_True by (rewrite !length_app; lia).
    rewrite drop_app_length, chunk_next_const_wf by done.
    destruct (is_valid (c ++ concat cs)) as [[|]| |]; step; try done.
    + destruct (from_raw (c ++ concat cs)) as [x| |]; step; try done.
      rewrite <- length_app, (app_assoc pre c), IH by (done || simpl in Hfuel; lia).
      destruct (enumerate cs); step; try done.
      by rewrite <- app_assoc.
    + rewrite <- length_app, (app_assoc pre c), IH by (done || simpl in Hfuel; lia).
      done.
Qed.

Lemma get_chunks_stream img cs :
  Image.image img = Image.PNG_SIGNATURE ++ concat cs → Forall wf_chunk cs →
  Image.get_chunks img = enumerate cs.
Proof.
  intros Himg Hwf. unfold Image.get_chunks. rewrite Himg.
  rewrite decide_True by (rewrite length_app; simpl; lia).
  change 8 with (length Image.PNG_SIGNATURE).
  rewrite get_chunks_loop_stream.
  - destruct (enumerate cs); done.
  - done.
  - pose proof (length_concat_wf cs Hwf). rewrite length_app. lia.
Qed.

Lemma enumerate_app cs1 cs2 :
  Forall self_contained cs1 →
  enumerate (cs1 ++ cs2) = (l1 ← enumerate cs1; l2 ← enumerate cs2; Ok (l1 ++ l2)).
Proof.
  induction 1 as [|c cs1 Hc _ IH]; simpl.
  - destruct (enumerate cs2); done.
  - rewrite concat_app.
    destruct (Hc (concat cs1 ++ concat cs2) (concat cs1)) as [-> Hraw].
    destruct (is_valid (c ++ concat cs1)) as [[|]| |] eqn:Hvalid; step; try done.
    destruct (Hc (concat cs1 ++ concat cs2) (concat cs1)) as [Hv' Hraw'].
    rewrite Hraw' by (by rewrite Hv').
    destruct (from_raw (c ++ concat cs1)); step; try done.
    rewrite IH. destruct (enumerate cs1); step; try done.
    destruct (enumerate cs2); done.
Qed.

Lemma enumerate_encoded encodable `{!ChunkCodec encodable} chunks cs :
  Forall encodable chunks →
  enumerate (map encode chunks ++ cs) = (l ← enumerate cs; Ok (chunks ++ l)).
Proof.
  induction 1 as [|x chunks Hx _ IH]; simpl.
  - destruct (enumerate cs); done.
  - rewrite encode_is_valid, encode_from_raw by done. step.
    rewrite IH. destruct (enumerate cs); done.
Qed.
End streams.


(** ** The insertion offset *)

Lemma chunk_find_const_stream type cs : ∀ fuel pre q,
  Forall wf_chunk cs →
  LodePNG.chunk_find_const fuel (pre ++ concat cs) (length pre) type = Some q →
  ∃ cs1 cs2, cs = cs1 ++ cs2 ∧ q = length pre + length (concat cs1).
Proof.
  induction cs as [|c cs IH]; intros [|fuel] pre q Hwf; simpl; try done.
  - rewrite decide_True by (rewrite length_app; simpl; lia). done.
  - apply Forall_cons in Hwf as [Hc Hwf]. pose proof (wf_chunk_length _ Hc).
    rewrite decide_False by (rewrite !length_app; lia).
    case_bool_decide.
    + intros [= <-]. exists [], (c :: cs). simpl. split; [done|lia].
    + rewrite chunk_next_const_wf by done.
      rewrite <- length_app, (app_assoc pre c). intros Hfind.
      apply IH in Hfind as (cs1 & cs2 & -> & ->); [|done].
      exists (c :: cs1), cs2. simpl. rewrite !length_app. split; [done|lia].
Qed.

Lemma find_idat_end_loop_stream cs : ∀ fuel pre p,
  Forall wf_chunk cs →
  Image.find_idat_end_loop fuel (pre ++ concat cs) (length pre) = Ok p →
  ∃ cs1 cs2, cs = cs1 ++ cs2 ∧ p = length pre + length (concat cs1).
Proof.
  induction cs as [|c cs IH]; intros [|fuel] pre p Hwf; simpl; try done.
  - rewrite drop_app_length. done.
  - apply Forall_cons in Hwf as [Hc Hwf].
    rewrite drop_app_length.
    destruct (LodePNG.chunk_type_equals (c ++ concat cs) Image.IDAT) as [[|]| |];
      step; try done.
    + rewrite chunk_next_const_wf by done.
      rewrite <- length_app, (app_assoc pre c). intros Hloop.
      apply IH in Hloop as (cs1 & cs2 & -> & ->); [|done].
      exists (c :: cs1), cs2. simpl. rewrite !length_app. split; [done|lia].
    + intros [= <-]. exists [], (c :: cs). simpl. split; [done|lia].
Qed.

Lemma find_idat_end_loop_bound image : ∀ fuel chunk p,
  Image.find_idat_end_loop fuel image chunk = Ok p → p + 8 ≤ length image.
Proof.
  induction fuel as [|fuel IH]; intros chunk p; simpl; [done|].
  unfold LodePNG.chunk_type_equals at 1. rewrite length_drop.
  case_decide; step; [|done].
  case_bool_decide.
  - apply IH.
  - intros [= <-]. lia.
Qed.

Lemma load_image file img : Image.load file = Ok img → Image.image img = file.
Proof.
  unfold Image.load. case_decide; [done|].
  destruct (Image.find_idat_end file); step; [|done..]. by intros [= <-].
Qed.

Lemma load_idat_end_pos file img :
  Image.load file = Ok img → Image.idat_end_pos img + 8 ≤ length (Image.image img).
Proof.
  intros Hload. rewrite (load_image _ _ Hload). revert Hload.
  unfold Image.load. case_decide; [done|].
  destruct (Image.find_idat_end file) as [p| |] eqn:Hfind; step; [|done..].
  intros [= <-]. simpl. revert Hfind. unfold Image.find_idat_end.
  destruct (LodePNG.chunk_find_const _ _ _ _); [|done].
  apply find_idat_end_loop_bound.
Qed.

Lemma load_stream file img cs :
  Image.load file = Ok img → file = Image.PNG_SIGNATURE ++ concat cs → Forall wf_chunk cs →
  ∃ cs1 cs2, cs = cs1 ++ cs2 ∧ Image.idat_end_pos img = 8 + length (concat cs1).
Proof.
  intros Hload -> Hwf. revert Hload.
  unfold Image.load. case_decide; [done|].
  destruct (Image.find_idat_end _) as [p| |] eqn:Hfind; step; [|done..].
  intros [= <-]. simpl. revert Hfind. unfold Image.find_idat_end.
  destruct (LodePNG.chunk_find_const _ _ _ _) as [q|] eqn:Hq; [|done].
  change 8 with (length Image.PNG_SIGNATURE) in Hq.
  apply chunk_find_const_stream in Hq as (cs1 & cs2 & -> & ->); [|done].
  apply Forall_app in Hwf as [Hwf1 Hwf2].
  rewrite concat_app, app_assoc, <- length_app. intros Hloop.
  apply find_idat_end_loop_stream in Hloop as (cs1' & cs2' & -> & ->); [|done].
  exists (cs1 ++ cs1'), cs2'. rewrite concat_app, !length_app, <- app_assoc.
  split; [done|]. simpl. lia.
Qed.

(** ** Insertion *)

Section insertion.
Context {T : Type} `{ChunkT T}.

Lemma vector_insert_ok v pos range :
  pos ≤ length v → vector_insert v pos range = Ok (take pos v ++ range ++ drop pos v).
Proof. intros. unfold vector_insert. by rewrite decide_True. Qed.

Lemma insert_each_rev encoded : ∀ image pos,
  pos ≤ length image →
  Image.insert_each encoded image pos
  = Ok (take pos image ++ concat (rev encoded) ++ drop pos image).
Proof.
  induction encoded as [|e encoded IH]; intros image pos Hpos; simpl.
  - by rewrite take_drop.
  - rewrite vector_insert_ok by done. step.
    rewrite IH by (rewrite length_app, length_take; lia).
    rewrite take_app_length', drop_app_length' by (rewrite length_take; lia).
    rewrite concat_app. simpl. by rewrite app_nil_r, <- !app_assoc.
Qed.

Lemma add_chunk_ok chunk img :
  Image.idat_end_pos img ≤ length (Image.image img) →
  Image.add_chunk chunk img
  = Ok (Image.Build
          (take (Image.idat_end_pos img) (Image.image img) ++ encode chunk
             ++ drop (Image.idat_end_pos img) (Image.image img))
          (Image.idat_end_pos img)).
Proof. intros. unfold Image.add_chunk. by rewrite vector_insert_ok. Qed.

Lemma add_chunks_ok chunks img :
  Image.idat_end_pos img ≤ length (Image.image img) →
  Image.add_chunks chunks img
  = Ok (Image.Build
          (take (Image.idat_end_pos img) (Image.image img) ++ concat (map encode chunks)
             ++ drop (Image.idat_end_pos img) (Image.image img))
          (Image.idat_end_pos img)).
Proof.
  intros. unfold Image.add_chunks. rewrite insert_each_rev by done.
  by rewrite rev_involutive.
Qed.
End insertion.


(** ** Encoded chunks *)

Lemma length_chunk_create data type :
  length type = 4 → length (LodePNG.chunk_create data type) = 12 + length data.
Proof.
  intros Htype. unfold LodePNG.chunk_create.
  rewrite !length_app, !length_set32bitInt. lia.
Qed.

Lemma wf_chunk_create data type :
  length type = 4 → type ≠ drop 4 LodePNG.PNG_magic →
  (Z.of_nat (length data) < 2 ^ 32)%Z →
  wf_chunk (LodePNG.chunk_create data type).
Proof.
  intros Htype Hletters Hlen. split; [|split].
  - rewrite length_chunk_create by done. lia.
  - rewrite length_chunk_create by done. unfold LodePNG.chunk_create.
    rewrite read32bitInt_set32bitInt by lia. lia.
  - unfold LodePNG.chunk_create. intros Hmagic. apply Hletters.
    rewrite <- Hmagic, app_assoc.
    rewrite (take_app_length' _ _ 8) by (rewrite length_app, length_set32bitInt; lia).
    by rewrite (drop_app_length' _ _ 4) by reflexivity.
Qed.

Lemma chunk_type_equals_create data type rest type' :
  length type = 4 →
  LodePNG.chunk_type_equals (LodePNG.chunk_create data type ++ rest) type'
  = Ok (bool_decide (type = type')).
Proof.
  intros Htype. unfold LodePNG.chunk_type_equals.
  rewrite decide_True by (rewrite length_app, length_chunk_create; lia).
  unfold LodePNG.chunk_create. rewrite <- !app_assoc.
  rewrite drop_app_length' by done. rewrite take_app_length' by done. done.
Qed.

Lemma chunk_data_const_create data type rest :
  length type = 4 →
  LodePNG.chunk_data_const (LodePNG.chunk_create data type ++ rest)
  = data ++ LodePNG.set32bitInt (LodePNG.crc32 (type ++ data)) ++ rest.
Proof.
  intros Htype. unfold LodePNG.chunk_data_const, LodePNG.chunk_create.
  rewrite <- !app_assoc, (app_assoc (LodePNG.set32bitInt _) type).
  apply drop_app_length'. rewrite length_app, length_set32bitInt. lia.
Qed.

Section codecs.
Context `{ZlibRoundTrip}.

#[global] Instance TextChunk_codec : ChunkCodec (T := TextChunk.t) TextChunk_encodable.
Proof.
  split.
  - intros c [_ Hlen]. change (wf_chunk (TextChunk.encode c)).
    unfold TextChunk.encode, ImageImplementation.chunk_encode.
    apply wf_chunk_create; [reflexivity|discriminate|exact Hlen].
  - intros c rest _. change (TextChunk.is_valid (TextChunk.encode c ++ rest) = Ok true).
    unfold TextChunk.is_valid, TextChunk.encode, ImageImplementation.chunk_encode.
    rewrite chunk_type_equals_create by reflexivity. by rewrite bool_decide_true.
  - intros [k v] rest [Hk Hlen].
    change (TextChunk.decode (TextChunk.encode (TextChunk.Build k v) ++ rest)
            = Ok (TextChunk.Build k v)).
    apply decode_chunk_create; [reflexivity|exact Hk|exact Hlen].
Qed.

#[global] Instance FuseChunk_codec : ChunkCodec (T := FuseChunk.t) FuseChunk_encodable.
Proof.
  split.
  - intros c [_ Hlen]. change (wf_chunk (FuseChunk.encode c)).
    unfold FuseChunk.encode, ImageImplementation.chunk_encode.
    apply wf_chunk_create; [reflexivity|discriminate|exact Hlen].
  - intros [[k v]] rest [Hk _]. cbn [FuseChunk.base TextChunk.key] in Hk. subst k.
    change (FuseChunk.is_valid
              (FuseChunk.encode (FuseChunk.Build (TextChunk.Build FuseChunk.key v)) ++ rest)
            = Ok true).
    unfold FuseChunk.is_valid, FuseChunk.encode, ImageImplementation.chunk_encode.
    rewrite chunk_type_equals_create by reflexivity.
    rewrite bool_decide_true by reflexivity. step.
    rewrite chunk_data_const_create by reflexivity.
    unfold memcmp_eq, TextChunk.encode_data. cbn [TextChunk.key TextChunk.value FuseChunk.base].
    rewrite <- !app_assoc.
    rewrite decide_True by (rewrite length_app; lia).
    by rewrite take_app_length, bool_decide_true.
  - intros [[k v]] rest [Hk Hlen]. cbn [FuseChunk.base TextChunk.key] in Hk, Hlen. subst k.
    change (FuseChunk.decode
              (FuseChunk.encode (FuseChunk.Build (TextChunk.Build FuseChunk.key v)) ++ rest)
            = Ok (FuseChunk.Build (TextChunk.Build FuseChunk.key v))).
    unfold FuseChunk.decode, FuseChunk.encode. cbn [FuseChunk.base].
    rewrite decode_chunk_create; [done|reflexivity| |exact Hlen].
    unfold FuseChunk.key. rewrite !not_elem_of_cons.
    repeat split; try done. apply not_elem_of_nil.
Qed.

Lemma of_subfile_encodable f :
  (Z.of_nat (length (lodepng_zlib_compress (SubFile.merged f))) + 9 < 2 ^ 32)%Z →
  FuseChunk_encodable (FuseChunk.of_subfile f).
Proof.
  intros Hlen. split; [done|].
  rewrite length_encode_data. cbn [FuseChunk.of_subfile FuseChunk.base TextChunk.key TextChunk.value].
  change (length FuseChunk.key) with 7. lia.
Qed.
End codecs.

Section self_contained.
Context `{Zlib}.

(** A chunk of another type is no concern of [FuseChunk::is_valid],
    whatever follows it. *)
Lemma FuseChunk_other_type c rest :
  8 ≤ length c → take 4 (drop 4 c) ≠ FuseChunk.type →
  FuseChunk.is_valid (c ++ rest) = Ok false.
Proof.
  intros Hlen Htype. unfold FuseChunk.is_valid, LodePNG.chunk_type_equals.
  rewrite decide_True by (rewrite length_app; lia).
  rewrite drop_app_le, take_app_le by (rewrite ?length_drop; lia).
  by rewrite bool_decide_false.
Qed.

Lemma FuseChunk_other_type_self_contained c :
  8 ≤ length c → take 4 (drop 4 c) ≠ FuseChunk.type →
  self_contained (T := FuseChunk.t) c.
Proof.
  intros Hlen Htype rest1 rest2. simpl.
  rewrite !FuseChunk_other_type by done. split; done.
Qed.

Lemma TextChunk_other_type c rest :
  8 ≤ length c → take 4 (drop 4 c) ≠ TextChunk.type →
  TextChunk.is_valid (c ++ rest) = Ok false.
Proof.
  intros Hlen Htype. unfold TextChunk.is_valid, LodePNG.chunk_type_equals.
  rewrite decide_True by (rewrite length_app; lia).
  rewrite drop_app_le, take_app_le by (rewrite ?length_drop; lia).
  by rewrite bool_decide_false.
Qed.

Lemma TextChunk_other_type_self_contained c :
  8 ≤ length c → take 4 (drop 4 c) ≠ TextChunk.type →
  self_contained (T := TextChunk.t) c.
Proof.
  intros Hlen Htype rest1 rest2. simpl.
  rewrite !TextChunk_other_type by done. split; done.
Qed.
End self_contained.

Lemma encode_self_contained {T} `{ChunkT T} encodable `{!ChunkCodec encodable} x :
  encodable x → self_contained (encode x).
Proof.
  intros Hx rest1 rest2.
  rewrite !encode_is_valid, !encode_from_raw by done. done.
Qed.


(** ** The fuel of the loops is never used up

    Every loop walks [chunk] strictly forward, so with more fuel than bytes
    left the result does not depend on the fuel; the callers start with
    [S (length image)]. *)

Lemma chunk_find_const_fuel type image : ∀ fuel1 fuel2 chunk,
  length image - chunk < fuel1 → length image - chunk < fuel2 →
  LodePNG.chunk_find_const fuel1 image chunk type
  = LodePNG.chunk_find_const fuel2 image chunk type.
Proof.
  induction fuel1 as [|fuel1 IH]; intros [|fuel2] chunk H1 H2; try lia. simpl.
  case_decide; [done|]. case_bool_decide; [done|].
  pose proof (chunk_next_const_gt image chunk). apply IH; lia.
Qed.

Lemma find_idat_end_loop_fuel image : ∀ fuel1 fuel2 chunk,
  length image - chunk < fuel1 → length image - chunk < fuel2 →
  Image.find_idat_end_loop fuel1 image chunk = Image.find_idat_end_loop fuel2 image chunk.
Proof.
  induction fuel1 as [|fuel1 IH]; intros [|fuel2] chunk H1 H2; try lia. simpl.
  unfold LodePNG.chunk_type_equals. rewrite length_drop.
  case_decide; step; [|done]. case_bool_decide; [|done].
  pose proof (chunk_next_const_gt image chunk). apply IH; lia.
Qed.

Section fuel.
Context {T : Type} `{ChunkT T}.

Lemma get_chunks_loop_fuel image : ∀ fuel1 fuel2 chunk chunks,
  length image - chunk < fuel1 → length image - chunk < fuel2 →
  Image.get_chunks_loop fuel1 image chunk chunks
  = Image.get_chunks_loop fuel2 image chunk chunks.
Proof.
  induction fuel1 as [|fuel1 IH]; intros [|fuel2] chunk chunks H1 H2; try lia. simpl.
  case_decide; [|done].
  pose proof (chunk_next_const_gt image chunk).
  destruct (is_valid _) as [[|]| |]; step; try done.
  - destruct (from_raw _); step; try done. apply IH; lia.
  - apply IH; lia.
Qed.

Lemma clear_chunks_scan_fuel image : ∀ fuel1 fuel2 chunk ranges range_begin chunk_count,
  length image - chunk < fuel1 → length image - chunk < fuel2 →
  Image.clear_chunks_scan fuel1 image chunk ranges range_begin chunk_count
  = Image.clear_chunks_scan fuel2 image chunk ranges range_begin chunk_count.
Proof.
  induction fuel1 as [|fuel1 IH]; intros [|fuel2] chunk ranges rb n H1 H2; try lia. simpl.
  case_decide; [|done].
  pose proof (chunk_next_const_gt image chunk).
  destruct (is_valid _) as [[|]| |]; step; try done.
  - apply IH; lia.
  - destruct rb; apply IH; lia.
Qed.
End fuel.


(** ** The claims *)

(** C1.  Decoding the chunk that [TextChunk::encode] made of [(key, value)]
    with the raw-chunk constructor gives [(key, value)] back, for every key
    without a NUL byte and every value, the empty one included.  The key need
    not be ASCII nor at most 79 bytes long.  Two things are assumed: zlib
    inflates what it deflated ([ZlibRoundTrip]), and the payload
    [key ++ 0 ++ 0 ++ compressed] is short enough for the 32-bit length field
    of the chunk. *)
Theorem TextChunk_decode_encode `{ZlibRoundTrip} (key value : list byte) :
  x00 ∉ key →
  (Z.of_nat (length key + 2 + length (lodepng_zlib_compress value)) < 2 ^ 32)%Z →
  TextChunk.decode (TextChunk.encode (TextChunk.Build key value))
  = Ok (TextChunk.Build key value).
Proof.
  intros Hkey Hlen.
  rewrite <- (app_nil_r (TextChunk.encode _)).
  apply decode_chunk_create; [reflexivity|exact Hkey|].
  rewrite length_encode_data. exact Hlen.
Qed.

Lemma from_merged_separated (filename c : list byte) :
  x00 ∉ filename →
  SubFile.from_merged (filename ++ [x00] ++ c) = Ok (SubFile.Build (Path filename) c).
Proof.
  intros Hname. unfold SubFile.from_merged. cbn [app].
  rewrite memchr_first by (rewrite ?length_app; simpl; (done || lia)). step.
  rewrite take_app_length.
  change (filename ++ x00 :: c) with (filename ++ [x00] ++ c).
  rewrite app_assoc, drop_app_length' by (rewrite length_app; simpl; lia).
  done.
Qed.

(** C2.  [SubFile::from_merged] undoes [SubFile::merged]: for every file name
    whose UTF-8 bytes hold no NUL and every contents [c] (NUL bytes allowed),
    splitting the merged representation gives the name and [c] back. *)
Theorem SubFile_from_merged_merged (filename c : list byte) :
  x00 ∉ filename →
  SubFile.from_merged (SubFile.merged (SubFile.Build (Path filename) c))
  = Ok (SubFile.Build (Path filename) c).
Proof.
  intros Hname. unfold SubFile.merged. cbn [SubFile.name SubFile.contents u8string].
  by apply from_merged_separated.
Qed.

Section container.
Context {T : Type} `{ChunkT T}.

(** The multi-chunk [add_chunk] on a loaded stream: the encoded chunks
    stand, in the order given, between the chunks [cs1] in front of the
    insertion offset and the chunks [cs2] behind it, and [get_chunks]
    enumerates the three parts one after the other. *)
Lemma add_chunks_stream encodable `{!ChunkCodec encodable}
    (file : list byte) (cs : list (list byte)) (img : Image.t) (chunks : list T) :
  file = Image.PNG_SIGNATURE ++ concat cs →
  Forall wf_chunk cs →
  Forall self_contained cs →
  Image.load file = Ok img →
  Forall encodable chunks →
  ∃ cs1 cs2 img',
    cs = cs1 ++ cs2 ∧
    Image.add_chunks chunks img = Ok img' ∧
    Image.image img' = Image.PNG_SIGNATURE ++ concat (cs1 ++ map encode chunks ++ cs2) ∧
    Image.get_chunks img = (l1 ← enumerate cs1; l2 ← enumerate cs2; Ok (l1 ++ l2)) ∧
    Image.get_chunks img'
    = (l1 ← enumerate cs1; l2 ← enumerate cs2; Ok (l1 ++ chunks ++ l2)).
Proof.
  intros Hfile Hwf Hsc Hload Henc.
  pose proof (load_image _ _ Hload) as Himg.
  pose proof (load_idat_end_pos _ _ Hload) as Hpos.
  destruct (load_stream _ _ _ Hload Hfile Hwf) as (cs1 & cs2 & -> & Hpos').
  apply Forall_app in Hwf as [Hwf1 Hwf2]. apply Forall_app in Hsc as [Hsc1 _].
  exists cs1, cs2. eexists. split; [done|].
  split; [by apply add_chunks_ok; lia|].
  assert (take (Image.idat_end_pos img) (Image.image img) ++ concat (map encode chunks)
            ++ drop (Image.idat_end_pos img) (Image.image img)
          = Image.PNG_SIGNATURE ++ concat (cs1 ++ map encode chunks ++ cs2)) as Himg'.
  { rewrite Himg, Hfile, Hpos', concat_app.
    change 8 with (length Image.PNG_SIGNATURE).
    rewrite <- length_app, (app_assoc Image.PNG_SIGNATURE), take_app_length,
      drop_app_length.
    by rewrite !concat_app, <- !app_assoc. }
  split; [exact Himg'|]. split.
  - rewrite (get_chunks_stream img (cs1 ++ cs2))
      by (by rewrite ?Himg, ?Hfile; try apply Forall_app).
    by apply enumerate_app.
  - rewrite (get_chunks_stream _ (cs1 ++ map encode chunks ++ cs2)).
    + rewrite enumerate_app by done.
      destruct (enumerate cs1); step; try done.
      rewrite (enumerate_encoded encodable) by done.
      by destruct (enumerate cs2).
    + exact Himg'.
    + repeat (apply Forall_app; split); try done.
      apply Forall_fmap. eapply Forall_impl; [exact Henc|].
      intros x Hx. by apply encode_wf.
Qed.

(** C3.  A loaded image whose buffer is the signature followed by whole
    chunks; chunks [chunks] that can be embedded.  After the multi-chunk
    [add_chunk], [get_chunks] returns the records of [chunks] in the order
    given, as one block between what it returned before for the chunks in
    front of the insertion offset ([l1]) and for those behind it ([l2]).
    The chunks already in the image are assumed [self_contained]: whether
    [is_valid] accepts them does not depend on the bytes that follow. *)
Theorem add_chunks_then_get_chunks encodable `{!ChunkCodec encodable}
    (file : list byte) (cs : list (list byte)) (img : Image.t) (chunks l0 : list T) :
  file = Image.PNG_SIGNATURE ++ concat cs →
  Forall wf_chunk cs →
  Forall self_contained cs →
  Image.load file = Ok img →
  Forall encodable chunks →
  Image.get_chunks img = Ok l0 →
  ∃ img' l1 l2,
    Image.add_chunks chunks img = Ok img' ∧
    l0 = l1 ++ l2 ∧
    Image.get_chunks img' = Ok (l1 ++ chunks ++ l2).
Proof.
  intros Hfile Hwf Hsc Hload Henc Hget.
  destruct (add_chunks_stream encodable file cs img chunks Hfile Hwf Hsc Hload Henc)
    as (cs1 & cs2 & img' & _ & Hadd & _ & Hbefore & Hafter).
  rewrite Hbefore in Hget.
  destruct (enumerate cs1) as [l1| |]; try done.
  destruct (enumerate cs2) as [l2| |]; try done.
  injection Hget as <-. by exists img', l1, l2.
Qed.

(** C8.  [get_chunks] walks the whole stream from offset 8: a chunk [x] that
    [is_valid] accepts is decoded and is in the result wherever it stands,
    [pre] being any chunks before it and [post] any after it, so also when
    the image data only comes in [post].  The enumeration returns a result
    when every place of the stream is [scannable]. *)
Theorem get_chunks_scans_whole_stream
    (img : Image.t) (pre : list (list byte)) (x : list byte) (post : list (list byte)) :
  Image.image img = Image.PNG_SIGNATURE ++ concat (pre ++ x :: post) →
  Forall wf_chunk (pre ++ x :: post) →
  Forall scannable (views (pre ++ x :: post)) →
  is_valid (x ++ concat post) = Ok true →
  ∃ l c,
    Image.get_chunks img = Ok l ∧ from_raw (x ++ concat post) = Ok c ∧ c ∈ l.
Proof.
  intros Himg Hwf Hscan Hvalid.
  rewrite (get_chunks_stream img _ Himg Hwf). clear Himg Hwf.
  induction pre as [|p pre IH]; simpl in *.
  - apply Forall_cons in Hscan as [(valid & Hv & Hraw) Hscan].
    rewrite Hvalid in Hv. injection Hv as <-. destruct Hraw as [c Hc]; [done|].
    rewrite Hvalid, Hc. step.
    assert (∃ l, enumerate post = Ok l) as [l ->].
    { clear -Hscan. induction post as [|q post IH]; simpl in *; [by eexists|].
      apply Forall_cons in Hscan as [(valid & -> & Hraw) Hscan].
      destruct (IH Hscan) as [l ->]. step.
      destruct valid; [|by eexists].
      destruct Hraw as [c ->]; [done|]. step. by eexists. }
    step. exists (c :: l), c. split; [done|]. split; [done|]. apply elem_of_cons; by left.
  - apply Forall_cons in Hscan as [(valid & -> & Hraw) Hscan].
    destruct (IH Hscan) as (l & c & -> & Hc & Hin). step.
    destruct valid.
    + destruct Hraw as [c' ->]; [done|]. step.
      exists (c' :: l), c. split; [done|]. split; [done|]. apply elem_of_cons; by right.
    + by exists l, c.
Qed.

(** C9.  For a loaded image both forms of [add_chunk] return, and every byte
    at an offset below the insertion offset [idat_end_pos] is afterwards
    what it was before. *)
Theorem add_chunk_prefix_stable (file : list byte) (img : Image.t)
    (chunk : T) (chunks : list T) :
  Image.load file = Ok img →
  (∃ img', Image.add_chunk chunk img = Ok img' ∧
     ∀ i, i < Image.idat_end_pos img → Image.image img' !! i = Image.image img !! i) ∧
  (∃ img', Image.add_chunks chunks img = Ok img' ∧
     ∀ i, i < Image.idat_end_pos img → Image.image img' !! i = Image.image img !! i).
Proof.
  intros Hload. pose proof (load_idat_end_pos _ _ Hload) as Hpos.
  split; eexists; (split; [by (apply add_chunk_ok || apply add_chunks_ok); lia|]);
    intros i Hi; cbn [Image.image];
    rewrite lookup_app_l by (rewrite length_take; lia);
    by apply lookup_take_lt.
Qed.

(** C10.  [idat_end_pos] is set by the constructor and no operation changes
    it: not the single-chunk [add_chunk], not the multi-chunk one, not
    [clear_chunks].  So two single-chunk calls on a loaded image, first with
    [c1] and then with [c2], leave the bytes of [c2] in front of those of
    [c1]. *)
Theorem idat_end_pos_fixed (file : list byte) (img : Image.t) (c1 c2 : T) :
  Image.load file = Ok img →
  (∀ (i i' : Image.t) (chunk : T), Image.add_chunk chunk i = Ok i' →
     Image.idat_end_pos i' = Image.idat_end_pos i) ∧
  (∀ (i i' : Image.t) (chunks : list T), Image.add_chunks chunks i = Ok i' →
     Image.idat_end_pos i' = Image.idat_end_pos i) ∧
  (∀ (i i' : Image.t) (n : nat), Image.clear_chunks i = Ok (n, i') →
     Image.idat_end_pos i' = Image.idat_end_pos i) ∧
  ∃ img1 img2,
    Image.add_chunk c1 img = Ok img1 ∧
    Image.add_chunk c2 img1 = Ok img2 ∧
    Image.image img2
    = take (Image.idat_end_pos img) (Image.image img) ++ encode c2 ++ encode c1
        ++ drop (Image.idat_end_pos img) (Image.image img).
Proof.
  intros Hload. pose proof (load_idat_end_pos _ _ Hload) as Hpos.
  split; [|split; [|split]].
  - intros i i' chunk. unfold Image.add_chunk.
    destruct (vector_insert _ _ _); step; [|done..]. by intros [= <-].
  - intros i i' chunks. unfold Image.add_chunks.
    destruct (Image.insert_each _ _ _); step; [|done..]. by intros [= <-].
  - intros i i' n. unfold Image.clear_chunks. case_decide; [|done].
    destruct (Image.clear_chunks_scan _ _ _ _ _ _) as [[[ranges rb] count]| |];
      step; [|done..].
    destruct (Image.erase_each _ _); step; [|done..]. by intros [= _ <-].
  - eexists _, _. split; [by apply add_chunk_ok; lia|].
    split.
    + apply add_chunk_ok. cbn [Image.image Image.idat_end_pos].
      rewrite length_app, length_take. lia.
    + cbn [Image.image Image.idat_end_pos].
      rewrite take_app_length', drop_app_length' by (rewrite length_take; lia).
      done.
Qed.
End container.


Lemma memchr_Some buf c n i :
  memchr buf c n = Ok (Some i) →
  buf !! i = Some c ∧ (c ∉ take i buf) ∧ (Z.of_nat i < n)%Z.
Proof.
  unfold memchr.
  destruct (list_find _ buf) as [[j x]|] eqn:Hfind; case_decide; intros [= <-].
  apply list_find_Some in Hfind as (Hj & -> & Hfirst).
  split; [done|]. split; [|done].
  intros (k & Hk)%list_elem_of_lookup. apply lookup_take_Some in Hk as [Hk Hlt].
  by apply (Hfirst k c).
Qed.

Lemma from_merged_no_NUL data : x00 ∉ data → SubFile.from_merged data = Undefined.
Proof.
  intros Hdata. unfold SubFile.from_merged. by rewrite memchr_all_absent.
Qed.

Section fuse_key.
Context `{Zlib}.

Lemma TextChunk_decode_key chunk c :
  TextChunk.decode chunk = Ok c →
  ∃ len i, LodePNG.chunk_length chunk = Ok len ∧
    memchr (LodePNG.chunk_data_const chunk) x00 (wrap32 (len - 1)) = Ok (Some i) ∧
    TextChunk.key c = take i (LodePNG.chunk_data_const chunk).
Proof.
  unfold TextChunk.decode.
  destruct (LodePNG.chunk_length chunk) as [len| |]; step; [|done..].
  destruct (memchr _ _ _) as [[i|]| |] eqn:Hi; step; [|done..].
  destruct (_ !! S i) as [method|]; cbn [from_option]; step; [|done].
  case_decide; [done|].
  destruct (span _ _); step; [|done..].
  destruct (ImageImplementation.decompress _); step; [|done..].
  intros [= <-]. by exists len, i.
Qed.

Lemma FuseChunk_decode_outcome chunk :
  (∀ c, FuseChunk.decode chunk = Ok c ↔ TextChunk.decode chunk = Ok (FuseChunk.base c)) ∧
  (∀ e, FuseChunk.decode chunk = Throw e ↔ TextChunk.decode chunk = Throw e) ∧
  (FuseChunk.decode chunk = Undefined ↔ TextChunk.decode chunk = Undefined).
Proof.
  unfold FuseChunk.decode.
  destruct (TextChunk.decode chunk) as [b|e|]; step; split_and!;
    try intros [c]; try intros e'; split; try done; cbn [FuseChunk.base]; congruence.
Qed.

Lemma FuseChunk_is_valid_key chunk c :
  FuseChunk.decode chunk = Ok c → FuseChunk.is_valid chunk = Ok true →
  FuseChunk.key `prefix_of` TextChunk.key (FuseChunk.base c).
Proof.
  unfold FuseChunk.decode. intros Hdecode Hvalid.
  destruct (TextChunk.decode chunk) as [b| |] eqn:Hb; revert Hdecode; step; [|done..].
  intros [= <-]. cbn [FuseChunk.base].
  apply TextChunk_decode_key in Hb as (len & i & _ & Hi & ->).
  apply memchr_Some in Hi as (Hi & _ & _).
  revert Hvalid. unfold FuseChunk.is_valid.
  destruct (LodePNG.chunk_type_equals _ _) as [[|]| |]; step; [|done..].
  unfold memcmp_eq. case_decide; [|done]. intros [= Hkey%bool_decide_eq_true].
  set (data := LodePNG.chunk_data_const chunk) in *.
  change (length FuseChunk.key) with 7 in *.
  assert (7 ≤ i).
  { destruct (decide (i < 7)) as [Hlt|]; [|lia].
    rewrite <- (lookup_take_lt data 7 i), Hkey in Hi by done.
    do 7 (destruct i as [|i]; [done|]). lia. }
  exists (take (i - 7) (drop 7 data)).
  rewrite <- Hkey, take_take_drop. f_equal. lia.
Qed.

(** C5, as amended.  The raw-chunk constructor of [FuseChunk] is that of
    [TextChunk] with the same outcome in every case: it returns the key and
    the value that constructor decodes, throws what it throws, the
    corrupt-chunk error included, and is undefined where it is.  It never
    compares the key with the keyword: the [fuSe] chunk encoded from any key
    without NUL decodes to that key (for a zlib that gives the data back and
    a payload that fits the length field).  [to_subfile] splits the value
    with [from_merged] and does not look at the key.  The keyword is checked
    by [FuseChunk::is_valid] instead: a chunk whose decoded key does not
    begin with the keyword is not accepted by [is_valid]. *)
Theorem FuseChunk_decode_key (chunk : list byte) :
  (∀ c, FuseChunk.decode chunk = Ok c ↔ TextChunk.decode chunk = Ok (FuseChunk.base c)) ∧
  (∀ e, FuseChunk.decode chunk = Throw e ↔ TextChunk.decode chunk = Throw e) ∧
  (FuseChunk.decode chunk = Undefined ↔ TextChunk.decode chunk = Undefined) ∧
  (∀ key value rest,
     ZlibRoundTrip → x00 ∉ key →
     (Z.of_nat (length (TextChunk.encode_data (TextChunk.Build key value))) < 2 ^ 32)%Z →
     FuseChunk.decode (FuseChunk.encode (FuseChunk.Build (TextChunk.Build key value)) ++ rest)
     = Ok (FuseChunk.Build (TextChunk.Build key value))) ∧
  (∀ c key,
     FuseChunk.to_subfile c = SubFile.from_merged (TextChunk.value (FuseChunk.base c)) ∧
     FuseChunk.to_subfile
       (FuseChunk.Build (TextChunk.Build key (TextChunk.value (FuseChunk.base c))))
     = FuseChunk.to_subfile c) ∧
  (∀ c, FuseChunk.decode chunk = Ok c →
     ¬ FuseChunk.key `prefix_of` TextChunk.key (FuseChunk.base c) →
     FuseChunk.is_valid chunk ≠ Ok true).
Proof.
  destruct (FuseChunk_decode_outcome chunk) as (HOk & HThrow & HUndefined).
  split_and!; try done.
  - intros key value rest Hzlib Hkey Hsize.
    unfold FuseChunk.decode, FuseChunk.encode. cbn [FuseChunk.base].
    by rewrite decode_chunk_create.
  - intros c Hdecode Hkey Hvalid. apply Hkey. by apply (FuseChunk_is_valid_key chunk).
Qed.
End fuse_key.

Import Sample.

(** C5, the counterexample.  A [fuSe] chunk with the key ["PNGFuseX"] passes
    [is_valid], and decoding it under any zlib is the outcome of inflating its
    stream, returned with the key ["PNGFuseX"]: never the corrupt-chunk error,
    although the key is not the keyword. *)
Lemma FuseChunk_decode_long_key :
  FuseChunk.is_valid fuSe_long_key = Ok true ∧
  (λ zlib : Zlib, FuseChunk.decode fuSe_long_key)
  = (λ zlib : Zlib,
       base ← (value ← ImageImplementation.decompress stored_a_txt;
               Ok (TextChunk.Build (bytes "PNGFuseX") value));
       Ok (FuseChunk.Build base)) ∧
  bytes "PNGFuseX" ≠ FuseChunk.key.
Proof. split; [|split]; [vm_compute; reflexivity..|discriminate]. Qed.

Lemma FuseChunk_decode_key_witness :
  FuseChunk.is_valid
    (LodePNG.chunk_create (bytes "Title" ++ [x00; x00] ++ stored_a_txt) FuseChunk.type)
  ≠ Ok true.
Proof.
  refine (proj2 (proj2 (proj2 (proj2 (proj2
            (FuseChunk_decode_key (H := store)
               (LodePNG.chunk_create (bytes "Title" ++ [x00; x00] ++ stored_a_txt)
                  FuseChunk.type))))))
            (FuseChunk.Build (TextChunk.Build (bytes "Title") stored_a_txt)) _ _).
  - vm_compute. reflexivity.
  - intros [suffix Hkey]. vm_compute in Hkey. discriminate.
Defined.

(** C6.  On the three bytes [abc], which hold no NUL, [from_merged] throws
    nothing: the null result of [memchr] is used as the end of the file name. *)
Theorem from_merged_without_NUL : SubFile.from_merged (bytes "abc") = Undefined.
Proof. vm_compute. reflexivity. Qed.

(** C7.  A [zTXt] chunk with an empty payload, followed by [IEND].  The length
    is 0, so no NUL is among the first [length - 1] bytes of the payload; but
    [length - 1] wraps to 2^32 - 1, [memchr] runs on into the CRC and the next
    chunk and finds a NUL there, the byte after it is 0, and the constructor
    goes on to inflate a range of 2^64 - 6 bytes instead of throwing. *)
Theorem TextChunk_decode_empty_payload `{Zlib} :
  TextChunk.is_valid (zTXt_empty ++ IEND) = Ok true ∧
  LodePNG.chunk_length (zTXt_empty ++ IEND) = Ok 0%Z ∧
  memchr (LodePNG.chunk_data_const (zTXt_empty ++ IEND)) x00 (wrap32 (0 - 1)) = Ok (Some 4) ∧
  TextChunk.decode (zTXt_empty ++ IEND) = Undefined.
Proof. repeat split; vm_compute; reflexivity. Qed.

(** C4.  A PNG whose last chunk is an embedded file.  [get_chunks] finds it;
    [clear_chunks] counts it and returns 1, but its range is still open when
    the scan ends and is never erased: the object is unchanged, and a second
    call returns 1 again. *)
Theorem clear_chunks_trailing_run `{Zlib} :
  Image.load png_trailing = Ok (Image.Build png_trailing 55) ∧
  Image.get_chunks (T := FuseChunk.t) (Image.Build png_trailing 55)
  = (c ← FuseChunk.decode fuSe_a_txt; Ok [c]) ∧
  Image.clear_chunks (T := FuseChunk.t) (Image.Build png_trailing 55)
  = Ok (1, Image.Build png_trailing 55) ∧
  ('(_, img) ← Image.clear_chunks (T := FuseChunk.t) (Image.Build png_trailing 55);
   Image.clear_chunks (T := FuseChunk.t) img)
  = Ok (1, Image.Build png_trailing 55).
Proof. repeat split; vm_compute; reflexivity. Qed.


(** ** Beyond the claims: the two checks of the [TextChunk] constructor *)

Lemma lt_pow2_of_high_bits x n :
  (0 ≤ x)%Z → (0 ≤ n)%Z → (∀ i, (n ≤ i)%Z → Z.testbit x i = false) → (x < 2 ^ n)%Z.
Proof.
  intros Hx Hn Hbits. destruct (Z.eq_dec x 0%Z) as [->|Hne]; [by apply Z.pow_pos_nonneg|].
  apply Z.log2_lt_pow2; [lia|].
  destruct (Z.lt_ge_cases (Z.log2 x) n) as [|Hge]; [done|].
  pose proof (Hbits _ Hge) as Hbit. rewrite Z.bit_log2 in Hbit by lia. done.
Qed.

Lemma Z_of_byte_high_bits b i : (8 ≤ i)%Z → Z.testbit (Z_of_byte b) i = false.
Proof.
  intros Hi. pose proof (Z_of_byte_range b).
  destruct (Z.eq_dec (Z_of_byte b) 0%Z) as [->|]; [apply Z.bits_0|].
  apply Z.bits_above_log2; [lia|].
  assert (Z.log2 (Z_of_byte b) < 8)%Z by (apply Z.log2_lt_pow2; lia). lia.
Qed.

Lemma read32bitInt_bound buf : (LodePNG.read32bitInt buf < 2 ^ 32)%Z.
Proof.
  apply lt_pow2_of_high_bits; [apply read32bitInt_nonneg|lia|].
  intros i Hi. destruct buf as [|b0 [|b1 [|b2 [|b3 buf]]]]; simpl; try apply Z.bits_0.
  rewrite !Z.lor_spec, !Z.shiftl_spec by lia.
  by rewrite !Z_of_byte_high_bits by lia.
Qed.

Lemma chunk_length_range chunk length :
  LodePNG.chunk_length chunk = Ok length → (0 ≤ length < 2 ^ 32)%Z.
Proof.
  unfold LodePNG.chunk_length. case_decide; [|done]. intros [= <-].
  split; [apply read32bitInt_nonneg|apply read32bitInt_bound].
Qed.

Lemma memchr_none buf c n :
  (0 ≤ n ≤ Z.of_nat (length buf))%Z → c ∉ take (Z.to_nat n) buf → memchr buf c n = Ok None.
Proof.
  intros Hn Habsent. unfold memchr.
  destruct (list_find _ buf) as [[j x]|] eqn:Hfind.
  - apply list_find_Some in Hfind as (Hj & -> & _).
    case_decide; [|done]. destruct Habsent.
    apply list_elem_of_lookup. exists j. rewrite lookup_take_lt by lia. done.
  - by rewrite decide_True by lia.
Qed.

Lemma memchr_found buf c n i :
  buf !! i = Some c → c ∉ take i buf → (Z.of_nat i < n)%Z → memchr buf c n = Ok (Some i).
Proof.
  intros Hi Habsent Hn. pose proof (lookup_lt_Some _ _ _ Hi) as Hlt.
  rewrite <- (take_drop_middle buf i c Hi).
  pose proof (memchr_first (take i buf) c (drop (S i) buf) n Habsent) as Hfirst.
  rewrite length_take_le in Hfirst by lia. by apply Hfirst.
Qed.

Section checks.
Context `{Zlib}.

(** X1.  For a chunk whose length field is at least 1 and whose payload
    lies in the buffer, the constructor does what C7 says: it throws the
    corrupt-chunk error when the first [length - 1] bytes of the payload hold
    no NUL, and when the byte after the first NUL is not 0; otherwise the
    bytes before the NUL are the key and the rest of the payload is
    inflated. *)
Theorem TextChunk_decode_checks (chunk : list byte) (len : Z) :
  LodePNG.chunk_length chunk = Ok len →
  (1 ≤ len)%Z →
  (8 + len ≤ Z.of_nat (length chunk))%Z →
  let data := LodePNG.chunk_data_const chunk in
  (x00 ∉ take (Z.to_nat (len - 1)) data → TextChunk.decode chunk = Throw CorruptChunk) ∧
  (∀ i method,
     (Z.of_nat i < len - 1)%Z → x00 ∉ take i data → data !! i = Some x00 →
     data !! S i = Some method →
     TextChunk.decode chunk
     = if decide (method ≠ x00) then Throw CorruptChunk
       else
         value ← ImageImplementation.decompress
                   (take (Z.to_nat len - (i + 2)) (drop (i + 2) data));
         Ok (TextChunk.Build (take i data) value)).
Proof.
  intros Hlen Hpos Hbuf data.
  pose proof (chunk_length_range _ _ Hlen) as Hrange.
  assert (Z.of_nat (length data) = Z.of_nat (length chunk) - 8)%Z as Hdata
    by (unfold data, LodePNG.chunk_data_const; rewrite length_drop; lia).
  assert (wrap32 (len - 1) = (len - 1)%Z) as Hwrap
    by (unfold wrap32; apply Z.mod_small; lia).
  unfold TextChunk.decode. rewrite Hlen. step. fold data. rewrite Hwrap.
  split.
  - intros Habsent. rewrite memchr_none by (done || lia). done.
  - intros i method Hi Habsent Hnul Hmethod.
    rewrite (memchr_found _ _ _ i) by done. step.
    rewrite Hmethod. cbn [from_option]. step.
    case_decide; [done|].
    assert (wrap64 (len - Z.of_nat (S (S i))) = (len - Z.of_nat (S (S i)))%Z) as ->
      by (unfold wrap64; apply Z.mod_small; lia).
    unfold span. rewrite decide_True by (rewrite length_drop; lia).
    replace (Z.to_nat (len - Z.of_nat (S (S i)))) with (Z.to_nat len - (i + 2)) by lia.
    replace (S (S i)) with (i + 2) by lia. done.
Qed.
End checks.

Import Sample.

Lemma TextChunk_decode_checks_witness :
  TextChunk.decode (H := store)
    (LodePNG.chunk_create (bytes "Title" ++ [x00; x01] ++ bytes "zz") TextChunk.type)
  = Throw CorruptChunk.
Proof.
  apply (proj2 (@TextChunk_decode_checks store
                  (LodePNG.chunk_create (bytes "Title" ++ [x00; x01] ++ bytes "zz")
                     TextChunk.type) 9
                  ltac:(vm_compute; reflexivity) ltac:(lia) ltac:(vm_compute; discriminate))
           5 x01);
    try (vm_compute; reflexivity).
  match goal with
  | |- ?c ∉ ?l => let l' := eval vm_compute in l in change (c ∉ l')
  end.
  rewrite !not_elem_of_cons; repeat split; (done || apply not_elem_of_nil).
Defined.


(** ** Beyond the claims: what [clear_chunks] deletes *)

Lemma erase_each_app {T} `{ChunkT T} ranges1 ranges2 image :
  Image.erase_each (ranges1 ++ ranges2) image
  = (image' ← Image.erase_each ranges1 image; Image.erase_each ranges2 image').
Proof.
  revert image. induction ranges1 as [|[b e] ranges1 IH]; intros image; simpl; [done|].
  destruct (vector_erase image b e); step; done.
Qed.

Lemma vector_erase_middle front run back :
  vector_erase (front ++ run ++ back) (length front) (length front + length run)
  = Ok (front ++ back).
Proof.
  unfold vector_erase. rewrite decide_True by (rewrite !length_app; lia).
  rewrite take_app_length. rewrite app_assoc, <- length_app, drop_app_length. done.
Qed.

Lemma rejected_cons_true c vs : rejected ((c, true) :: vs) = rejected vs.
Proof. unfold rejected. by rewrite filter_cons_False. Qed.

Lemma rejected_cons_false c vs : rejected ((c, false) :: vs) = (c, false) :: rejected vs.
Proof. unfold rejected. by rewrite filter_cons_True. Qed.

Lemma accepted_cons_true c vs : accepted ((c, true) :: vs) = S (accepted vs).
Proof. unfold accepted. by rewrite filter_cons_True. Qed.

Lemma accepted_cons_false c vs : accepted ((c, false) :: vs) = accepted vs.
Proof. unfold accepted. by rewrite filter_cons_False. Qed.

Lemma scanned_count off rb vs :
  (scanned off rb vs).2 = accepted vs.
Proof.
  revert off rb. induction vs as [|[c [|]] vs IH]; intros off rb; [done|..].
  - rewrite accepted_cons_true. cbn [scanned].
    specialize (IH (off + length c) (match rb with None => Some off | Some _ => rb end)).
    destruct (scanned _ _ vs) as [[rs rb'] n]. simpl in *. by rewrite IH.
  - rewrite accepted_cons_false. cbn [scanned].
    specialize (IH (off + length c) None).
    by destruct (scanned _ _ vs) as [[rs rb'] n].
Qed.

Section clearing.
Context {T : Type} `{ChunkT T}.

Lemma clear_chunks_scan_stream vs : ∀ fuel front ranges rb count,
  Forall judged vs → length vs < fuel →
  Image.clear_chunks_scan fuel (front ++ concat vs.*1) (length front) ranges rb count
  = Ok (ranges ++ (scanned (length front) rb vs).1.1,
        (scanned (length front) rb vs).1.2,
        count + (scanned (length front) rb vs).2).
Proof.
  induction vs as [|[c v] vs IH]; intros fuel front ranges rb count Hvs Hfuel;
    (destruct fuel as [|fuel]; [simpl in Hfuel; lia|]); simpl.
  - rewrite decide_False by (rewrite length_app; simpl; lia).
    by rewrite app_nil_r, Nat.add_0_r.
  - apply Forall_cons in Hvs as [[Hc Hv] Hvs]. simpl in Hc, Hv.
    pose proof (wf_chunk_length _ Hc).
    rewrite decide_True by (rewrite !length_app; lia).
    rewrite drop_app_length, chunk_next_const_wf by done.
    rewrite Hv. step.
    rewrite <- length_app, (app_assoc front c).
    destruct v.
    + rewrite IH by (done || simpl in Hfuel; lia).
      rewrite length_app.
      destruct (scanned _ _ vs) as [[rs rb'] n]. simpl. do 2 f_equal. lia.
    + destruct rb as [b|].
      * rewrite IH by (done || simpl in Hfuel; lia).
        rewrite length_app.
        destruct (scanned _ _ vs) as [[rs rb'] n]. simpl.
        by rewrite <- app_assoc.
      * rewrite IH by (done || simpl in Hfuel; lia).
        rewrite length_app.
        by destruct (scanned _ _ vs) as [[rs rb'] n].
Qed.

(** Erasing the ranges last to first removes each closed run. *)
Lemma erase_each_scanned vs : ∀ front run rb,
  match rb with Some b => b = length front | None => run = [] end →
  Image.erase_each (rev (scanned (length front + length run) rb vs).1.1)
    (front ++ run ++ concat vs.*1)
  = Ok (front ++ remaining run vs).
Proof.
  induction vs as [|[c [|]] vs IH]; intros front run rb Hrb; csimpl.
  - by rewrite app_nil_r.
  - specialize (IH front (run ++ c)
                  (match rb with None => Some (length front + length run) | Some _ => rb end)).
    rewrite length_app, Nat.add_assoc in IH.
    destruct (scanned _ _ vs) as [[rs rb'] n]. simpl in *.
    rewrite <- app_assoc in IH. apply IH.
    destruct rb; [done|]. subst run. simpl. lia.
  - specialize (IH (front ++ run ++ c) [] None eq_refl).
    rewrite !length_app in IH. simpl in IH.
    rewrite Nat.add_0_r, Nat.add_assoc in IH.
    destruct (scanned _ _ vs) as [[rs rb'] n]. simpl in *.
    rewrite <- !app_assoc in IH.
    destruct rb as [b|].
    + subst b. csimpl. rewrite erase_each_app, IH. step. csimpl.
      rewrite vector_erase_middle. done.
    + subst run. simpl in *. done.
Qed.

Lemma clear_chunks_stream img vs :
  Image.image img = Image.PNG_SIGNATURE ++ concat vs.*1 →
  Forall judged vs →
  Image.clear_chunks img
  = Ok (accepted vs,
        Image.Build (Image.PNG_SIGNATURE ++ remaining [] vs) (Image.idat_end_pos img)).
Proof.
  intros Himg Hvs. unfold Image.clear_chunks. rewrite Himg.
  rewrite decide_True by (rewrite length_app; simpl; lia).
  change 8 with (length Image.PNG_SIGNATURE).
  rewrite clear_chunks_scan_stream; [|done|].
  - step. rewrite scanned_count.
    pose proof (erase_each_scanned vs Image.PNG_SIGNATURE [] None eq_refl) as Herase.
    simpl length in Herase. rewrite Nat.add_0_r in Herase.
    destruct (scanned _ _ vs) as [[rs rb'] n]. simpl in *.
    rewrite Herase. done.
  - assert (Forall wf_chunk vs.*1) as Hwf.
    { apply Forall_fmap. eapply Forall_impl; [exact Hvs|]. by intros ? [? _]. }
    pose proof (length_concat_wf _ Hwf). rewrite length_fmap in *.
    rewrite length_app. lia.
Qed.

Lemma remaining_rejected vs : ∀ run,
  (vs = [] ∧ run = []) ∨ snd <$> last vs = Some false →
  remaining run vs = concat (rejected vs).*1.
Proof.
  induction vs as [|[c [|]] vs IH]; intros run Hlast.
  - by destruct Hlast as [[_ ->]|?].
  - rewrite rejected_cons_true. cbn [remaining]. apply IH.
    right. destruct Hlast as [[? _]|Hlast]; [done|].
    destruct vs; [done|]. by rewrite last_cons_cons in Hlast.
  - rewrite rejected_cons_false. csimpl. f_equal.
    apply IH. destruct vs; [by left|]. right.
    destruct Hlast as [[? _]|Hlast]; [done|]. by rewrite last_cons_cons in Hlast.
Qed.

Lemma rejected_judged vs : Forall judged vs → Forall judged (rejected vs).
Proof.
  rewrite !Forall_forall. intros Hvs cv Hcv.
  apply list_elem_of_filter in Hcv as [_ Hcv]. by apply Hvs.
Qed.

Lemma accepted_rejected vs : accepted (rejected vs) = 0.
Proof.
  induction vs as [|[c [|]] vs IH]; [done|..].
  - by rewrite rejected_cons_true.
  - by rewrite rejected_cons_false, accepted_cons_false.
Qed.

Lemma remaining_all_rejected vs : remaining [] (rejected vs) = concat (rejected vs).*1.
Proof.
  induction vs as [|[c [|]] vs IH]; [done|..].
  - by rewrite rejected_cons_true.
  - rewrite rejected_cons_false. csimpl. by rewrite IH.
Qed.

(** X2.  An image whose buffer is the signature followed by whole chunks,
    each with a verdict of [is_valid] that does not depend on what follows
    it, the last chunk not being accepted (as [IEND] is not).  The first
    call of [clear_chunks] returns the number of accepted chunks and leaves
    exactly the other chunks, in their order and byte for byte; the second
    call returns 0 and leaves the buffer as it was. *)
Theorem clear_chunks_twice (img : Image.t) (vs : list (list byte * bool)) :
  Image.image img = Image.PNG_SIGNATURE ++ concat vs.*1 →
  Forall judged vs →
  snd <$> last vs = Some false →
  ∃ img',
    Image.clear_chunks img = Ok (accepted vs, img') ∧
    Image.image img' = Image.PNG_SIGNATURE ++ concat (rejected vs).*1 ∧
    Image.clear_chunks img' = Ok (0, img').
Proof.
  intros Himg Hvs Hlast.
  rewrite (clear_chunks_stream img vs) by done.
  rewrite remaining_rejected by (by right).
  eexists. split; [done|]. split; [done|].
  rewrite (clear_chunks_stream _ (rejected vs)) by (done || by apply rejected_judged).
  by rewrite accepted_rejected, remaining_all_rejected.
Qed.
End clearing.

Import Sample.

(** ** Closed instances of the theorems above *)

Lemma store_round_trip : ZlibRoundTrip (H := store).
Proof. intros data. reflexivity. Qed.

Ltac no_NUL :=
  match goal with
  | |- ?c ∉ ?l => let l' := eval vm_compute in l in change (c ∉ l')
  end;
  rewrite !not_elem_of_cons; repeat split; (done || apply not_elem_of_nil).
Ltac whole_chunk :=
  split; [vm_compute; lia|split; [vm_compute; reflexivity|vm_compute; discriminate]].
Ltac other_type :=
  apply FuseChunk_other_type_self_contained; [vm_compute; lia|vm_compute; discriminate].
Ltac embeddable := apply of_subfile_encodable; vm_compute; reflexivity.
Ltac each tac := repeat (apply Forall_cons; split; [tac|]); apply Forall_nil_2.
Ltac encoded_self_contained :=
  apply (encode_self_contained (FuseChunk_encodable (H := store))
           (ChunkCodec0 := @FuseChunk_codec store store_round_trip));
  embeddable.

Lemma TextChunk_decode_encode_witness :
  TextChunk.decode (H := store)
    (TextChunk.encode (H := store) (TextChunk.Build (bytes "Comment") (bytes "one pixel")))
  = Ok (TextChunk.Build (bytes "Comment") (bytes "one pixel")).
Proof.
  apply (@TextChunk_decode_encode store store_round_trip).
  - no_NUL.
  - vm_compute. reflexivity.
Defined.

Lemma SubFile_from_merged_merged_witness :
  SubFile.from_merged (SubFile.merged (file "hello.txt" "world")) = Ok (file "hello.txt" "world").
Proof.
  apply (SubFile_from_merged_merged (bytes "hello.txt") (bytes "world")).
  no_NUL.
Defined.

Lemma add_chunks_then_get_chunks_witness :
  ∃ img' l1 l2,
    Image.add_chunks (H := FuseChunk.chunkT (H := store)) [A; B; C] (Image.Build png_early 85)
    = Ok img' ∧
    [E] = l1 ++ l2 ∧
    Image.get_chunks (H := FuseChunk.chunkT (H := store)) img' = Ok (l1 ++ [A; B; C] ++ l2).
Proof.
  apply (@add_chunks_then_get_chunks FuseChunk.t (FuseChunk.chunkT (H := store))
           (FuseChunk_encodable (H := store)) (@FuseChunk_codec store store_round_trip)
           png_early [IHDR; early; IDAT; IEND]).
  - vm_compute. reflexivity.
  - each whole_chunk.
  - each ltac:(first [other_type|encoded_self_contained]).
  - vm_compute. reflexivity.
  - each embeddable.
  - vm_compute. reflexivity.
Defined.

Lemma get_chunks_scans_whole_stream_witness :
  Image.load png_early = Ok (Image.Build png_early 85) ∧
  length (Image.PNG_SIGNATURE ++ IHDR ++ early) < 85 ∧
  ∃ l c,
    Image.get_chunks (H := FuseChunk.chunkT (H := store)) (Image.Build png_early 85) = Ok l ∧
    FuseChunk.decode (H := store) (early ++ concat [IDAT; IEND]) = Ok c ∧ c ∈ l.
Proof.
  split; [vm_compute; reflexivity|]. split; [vm_compute; lia|].
  apply (@get_chunks_scans_whole_stream FuseChunk.t (FuseChunk.chunkT (H := store))
           (Image.Build png_early 85) [IHDR] early [IDAT; IEND]).
  - vm_compute. reflexivity.
  - each whole_chunk.
  - each ltac:(first
      [ exists false; split; [vm_compute; reflexivity|discriminate]
      | exists true; split; [vm_compute; reflexivity|];
        intros _; exists E; vm_compute; reflexivity ]).
  - vm_compute. reflexivity.
Defined.

Lemma add_chunk_prefix_stable_witness :
  (∃ img', Image.add_chunk (H := FuseChunk.chunkT (H := store)) A (Image.Build png 55) = Ok img' ∧
     ∀ i, i < 55 → Image.image img' !! i = png !! i) ∧
  (∃ img', Image.add_chunks (H := FuseChunk.chunkT (H := store)) [A; B; C] (Image.Build png 55)
           = Ok img' ∧
     ∀ i, i < 55 → Image.image img' !! i = png !! i).
Proof.
  apply (@add_chunk_prefix_stable FuseChunk.t (FuseChunk.chunkT (H := store))
           png (Image.Build png 55) A [A; B; C]).
  vm_compute. reflexivity.
Defined.

Lemma idat_end_pos_fixed_witness :
  ∃ img1 img2,
    Image.add_chunk (H := FuseChunk.chunkT (H := store)) A (Image.Build png 55) = Ok img1 ∧
    Image.add_chunk (H := FuseChunk.chunkT (H := store)) B img1 = Ok img2 ∧
    Image.image img2
    = take 55 png ++ FuseChunk.encode (H := store) B ++ FuseChunk.encode (H := store) A
        ++ drop 55 png.
Proof.
  apply (@idat_end_pos_fixed FuseChunk.t (FuseChunk.chunkT (H := store))
           png (Image.Build png 55) A B).
  vm_compute. reflexivity.
Defined.

Import Sample.

(** ** Beyond the claims: embedding files and getting them back *)

Section end_to_end.
Context `{ZlibRoundTrip}.

Lemma to_subfiles_app chunks1 chunks2 :
  SubFileImage.to_subfiles (chunks1 ++ chunks2)
  = (fs1 ← SubFileImage.to_subfiles chunks1;
     fs2 ← SubFileImage.to_subfiles chunks2;
     Ok (fs1 ++ fs2)).
Proof.
  induction chunks1 as [|c chunks1 IH]; simpl.
  - by destruct (SubFileImage.to_subfiles chunks2).
  - destruct (FuseChunk.to_subfile c); step; try done.
    rewrite IH. destruct (SubFileImage.to_subfiles chunks1); step; try done.
    by destruct (SubFileImage.to_subfiles chunks2).
Qed.

Lemma to_subfile_of_subfile f :
  x00 ∉ u8string (SubFile.name f) → FuseChunk.to_subfile (FuseChunk.of_subfile f) = Ok f.
Proof.
  destruct f as [[name] contents]. intros Hname.
  unfold FuseChunk.to_subfile, FuseChunk.of_subfile, SubFile.merged.
  cbn [FuseChunk.base TextChunk.value SubFile.name SubFile.contents u8string].
  by apply from_merged_separated.
Qed.

Lemma to_subfiles_of_subfile files :
  Forall (λ f, x00 ∉ u8string (SubFile.name f)) files →
  SubFileImage.to_subfiles (map FuseChunk.of_subfile files) = Ok files.
Proof.
  induction 1 as [|f files Hname _ IH]; [done|].
  cbn [map SubFileImage.to_subfiles].
  rewrite to_subfile_of_subfile by done. step. by rewrite IH.
Qed.

(** X3.  Embedding the files [files] into a loaded image with
    [add_sub_file] and listing the embedded files with [get_sub_files] gives
    [files] back, names and contents, in the order given, between the files
    that were embedded before.  No file name holds a NUL, and every merged
    and compressed record fits a chunk. *)
Theorem add_sub_files_then_get_sub_files
    (file : list byte) (cs : list (list byte)) (img : Image.t)
    (files fs0 : list SubFile.t) :
  file = Image.PNG_SIGNATURE ++ concat cs →
  Forall wf_chunk cs →
  Forall (self_contained (T := FuseChunk.t)) cs →
  Image.load file = Ok img →
  Forall (λ f, x00 ∉ u8string (SubFile.name f)) files →
  Forall (λ f,
    (Z.of_nat (length (lodepng_zlib_compress (SubFile.merged f))) + 9 < 2 ^ 32)%Z) files →
  SubFileImage.get_sub_files img = Ok fs0 →
  ∃ img' fs1 fs2,
    SubFileImage.add_sub_files files img = Ok img' ∧
    fs0 = fs1 ++ fs2 ∧
    SubFileImage.get_sub_files img' = Ok (fs1 ++ files ++ fs2).
Proof.
  intros Hfile Hwf Hsc Hload Hnames Hsizes Hget.
  assert (Forall FuseChunk_encodable (map FuseChunk.of_subfile files)) as Henc.
  { apply Forall_fmap. eapply Forall_impl; [exact Hsizes|].
    intros f Hf. by apply of_subfile_encodable. }
  destruct (add_chunks_stream FuseChunk_encodable file cs img _ Hfile Hwf Hsc Hload Henc)
    as (cs1 & cs2 & img' & _ & Hadd & _ & Hbefore & Hafter).
  revert Hget. unfold SubFileImage.get_sub_files, SubFileImage.add_sub_files.
  rewrite Hbefore.
  destruct (enumerate cs1) as [l1| |]; step; try done.
  destruct (enumerate cs2) as [l2| |]; step; try done.
  rewrite to_subfiles_app.
  destruct (SubFileImage.to_subfiles l1) as [fs1| |] eqn:Hfs1; step; try done.
  destruct (SubFileImage.to_subfiles l2) as [fs2| |] eqn:Hfs2; step; try done.
  intros [= <-]. exists img', fs1, fs2. split; [done|]. split; [done|].
  rewrite Hafter. step.
  by rewrite !to_subfiles_app, Hfs1, Hfs2, to_subfiles_of_subfile.
Qed.
End end_to_end.

Lemma clear_chunks_twice_witness :
  ∃ img',
    Image.clear_chunks (H := FuseChunk.chunkT (H := store))
      (Image.Build (Image.PNG_SIGNATURE ++ IHDR ++ IDAT
                      ++ FuseChunk.encode (H := store) A ++ FuseChunk.encode (H := store) B
                      ++ IEND) 55)
    = Ok (2, img') ∧
    Image.image img' = png ∧
    Image.clear_chunks (H := FuseChunk.chunkT (H := store)) img' = Ok (0, img').
Proof.
  apply (@clear_chunks_twice FuseChunk.t (FuseChunk.chunkT (H := store))
           (Image.Build (Image.PNG_SIGNATURE ++ IHDR ++ IDAT
                           ++ FuseChunk.encode (H := store) A
                           ++ FuseChunk.encode (H := store) B ++ IEND) 55)
           [(IHDR, false); (IDAT, false); (FuseChunk.encode (H := store) A, true);
            (FuseChunk.encode (H := store) B, true); (IEND, false)]).
  - vm_compute. reflexivity.
  - each ltac:(split; [whole_chunk|]; intros rest; cbn [fst snd];
      first
        [ apply FuseChunk_other_type; [vm_compute; lia|vm_compute; discriminate]
        | apply (encode_is_valid (ChunkCodec := @FuseChunk_codec store store_round_trip));
          embeddable ]).
  - reflexivity.
Defined.

Lemma add_sub_files_then_get_sub_files_witness :
  ∃ img' fs1 fs2,
    SubFileImage.add_sub_files (H := store)
      [file "hello.txt" "world"; file "notes.md" ""] (Image.Build png_early 85)
    = Ok img' ∧
    [file "E" "earlier"] = fs1 ++ fs2 ∧
    SubFileImage.get_sub_files (H := store) img'
    = Ok (fs1 ++ [file "hello.txt" "world"; file "notes.md" ""] ++ fs2).
Proof.
  apply (@add_sub_files_then_get_sub_files store store_round_trip
           png_early [IHDR; early; IDAT; IEND]).
  - vm_compute. reflexivity.
  - each whole_chunk.
  - each ltac:(first [other_type|encoded_self_contained]).
  - vm_compute. reflexivity.
  - each no_NUL.
  - each ltac:(vm_compute; reflexivity).
  - vm_compute. reflexivity.
Defined.


(** ** Beyond the claims: what the constructor of [Image] computes *)

Lemma chunk_type_equals_whole c rest type :
  8 ≤ length c →
  LodePNG.chunk_type_equals (c ++ rest) type = Ok (bool_decide (chunk_type c = type)).
Proof.
  intros Hlen. unfold LodePNG.chunk_type_equals, chunk_type.
  rewrite decide_True by (rewrite length_app; lia).
  by rewrite drop_app_le, take_app_le by (rewrite ?length_drop; lia).
Qed.

Lemma chunk_find_const_skip type front : ∀ fuel image pre rest pos,
  image = pre ++ concat front ++ rest → pos = length pre →
  Forall wf_chunk front → Forall (λ c, chunk_type c ≠ type) front →
  length front < fuel →
  LodePNG.chunk_find_const fuel image pos type
  = LodePNG.chunk_find_const (fuel - length front) image (pos + length (concat front)) type.
Proof.
  induction front as [|c front IH]; intros fuel image pre rest pos -> -> Hwf Hty Hfuel; simpl.
  - by rewrite Nat.sub_0_r, Nat.add_0_r.
  - apply Forall_cons in Hwf as [Hc Hwf]. apply Forall_cons in Hty as [Hcty Hty].
    pose proof (wf_chunk_length _ Hc). simpl in Hfuel.
    destruct fuel as [|fuel]; [lia|]. simpl.
    rewrite decide_False by (rewrite !length_app; lia).
    rewrite <- !app_assoc. rewrite drop_app_length.
    rewrite drop_app_le, take_app_le by (rewrite ?length_drop; lia).
    fold (chunk_type c). rewrite bool_decide_false by done.
    rewrite chunk_next_const_wf by done.
    rewrite (IH fuel _ (pre ++ c) rest (length pre + length c))
      by (first [done|lia|by rewrite length_app|by rewrite <- app_assoc]).
    by rewrite !length_app, Nat.add_assoc.
Qed.

Lemma chunk_find_const_here type c fuel image pre rest pos :
  image = pre ++ c ++ rest → pos = length pre → wf_chunk c → chunk_type c = type →
  0 < fuel →
  LodePNG.chunk_find_const fuel image pos type = Some pos.
Proof.
  intros -> -> Hc Hty Hfuel. pose proof (wf_chunk_length _ Hc).
  destruct fuel as [|fuel]; [lia|]. simpl.
  rewrite decide_False by (rewrite !length_app; lia).
  rewrite drop_app_length.
  rewrite drop_app_le, take_app_le by (rewrite ?length_drop; lia).
  fold (chunk_type c). by rewrite bool_decide_true.
Qed.

Lemma chunk_find_const_end type fuel image pos :
  length image ≤ pos → LodePNG.chunk_find_const fuel image pos type = None.
Proof. intros. destruct fuel; simpl; [done|]. by rewrite decide_True by lia. Qed.

Lemma find_idat_end_loop_run run : ∀ fuel image pre rest pos,
  image = pre ++ concat run ++ rest → pos = length pre →
  Forall wf_chunk run → Forall (λ c, chunk_type c = Image.IDAT) run →
  length run < fuel →
  Image.find_idat_end_loop fuel image pos
  = Image.find_idat_end_loop (fuel - length run) image (pos + length (concat run)).
Proof.
  induction run as [|c run IH]; intros fuel image pre rest pos -> -> Hwf Hty Hfuel; simpl.
  - by rewrite Nat.sub_0_r, Nat.add_0_r.
  - apply Forall_cons in Hwf as [Hc Hwf]. apply Forall_cons in Hty as [Hcty Hty].
    pose proof (wf_chunk_length _ Hc). simpl in Hfuel.
    destruct fuel as [|fuel]; [lia|]. simpl.
    rewrite <- !app_assoc. rewrite drop_app_length.
    rewrite chunk_type_equals_whole by lia. rewrite bool_decide_true by done. step.
    rewrite chunk_next_const_wf by done.
    rewrite (IH fuel _ (pre ++ c) rest (length pre + length c))
      by (first [done|lia|by rewrite length_app|by rewrite <- app_assoc]).
    by rewrite !length_app, Nat.add_assoc.
Qed.

Lemma find_idat_end_loop_stop c fuel image pre rest pos :
  image = pre ++ c ++ rest → pos = length pre → wf_chunk c → chunk_type c ≠ Image.IDAT →
  0 < fuel →
  Image.find_idat_end_loop fuel image pos = Ok pos.
Proof.
  intros -> -> Hc Hty Hfuel. pose proof (wf_chunk_length _ Hc).
  destruct fuel as [|fuel]; [lia|]. simpl.
  rewrite drop_app_length, chunk_type_equals_whole by lia.
  by rewrite bool_decide_false.
Qed.

Lemma find_idat_end_loop_end fuel image pos :
  length image ≤ pos → Image.find_idat_end_loop fuel image pos = Undefined.
Proof. intros. destruct fuel; simpl; [done|]. by rewrite drop_ge. Qed.

Lemma load_signed (cs : list (list byte)) :
  Image.load (Image.PNG_SIGNATURE ++ concat cs)
  = (idat_end_pos ← Image.find_idat_end (Image.PNG_SIGNATURE ++ concat cs);
     Ok (Image.Build (Image.PNG_SIGNATURE ++ concat cs) idat_end_pos)).
Proof.
  unfold Image.load. rewrite decide_False; [done|].
  rewrite take_app_length' by done. rewrite length_app. simpl. intros [?|?]; (lia || done).
Qed.

(** X4.  A file that is the signature followed by whole chunks: chunks [front]
    of other types, then a run [run] of one or more [IDAT] chunks, then a chunk
    [next] of another type and whatever chunks [back].  The constructor
    returns, the buffer is the file, and the insertion offset is the end of
    that first run of [IDAT] chunks, even when [back] holds more of them. *)
Theorem load_insertion_offset (file : list byte) (front run : list (list byte))
    (next : list byte) (back : list (list byte)) :
  file = Image.PNG_SIGNATURE ++ concat (front ++ run ++ next :: back) →
  Forall wf_chunk (front ++ run ++ next :: back) →
  Forall (λ c, chunk_type c ≠ Image.IDAT) front →
  run ≠ [] →
  Forall (λ c, chunk_type c = Image.IDAT) run →
  chunk_type next ≠ Image.IDAT →
  Image.load file
  = Ok (Image.Build file (length (Image.PNG_SIGNATURE ++ concat (front ++ run)))).
Proof.
  intros -> Hwf Hfront Hrun Hidat Hnext. rewrite load_signed.
  apply Forall_app in Hwf as [Hwf1 Hwf]. apply Forall_app in Hwf as [Hwf2 Hwf].
  apply Forall_cons in Hwf as [Hwfn Hwf3].
  pose proof (length_concat_wf _ Hwf1) as Hl1. pose proof (length_concat_wf _ Hwf2) as Hl2.
  pose proof (wf_chunk_length _ Hwfn).
  set (image := Image.PNG_SIGNATURE ++ concat (front ++ run ++ next :: back)).
  assert (image = Image.PNG_SIGNATURE ++ concat front
                    ++ (concat run ++ next ++ concat back)) as Himage1.
  { unfold image. rewrite !concat_app. cbn [concat]. by rewrite <- ?app_assoc. }
  assert (image = (Image.PNG_SIGNATURE ++ concat front) ++ concat run
                    ++ (next ++ concat back)) as Himage2
    by (by rewrite Himage1, <- ?app_assoc).
  assert (image = (Image.PNG_SIGNATURE ++ concat front ++ concat run) ++ next
                    ++ concat back) as Himage3
    by (by rewrite Himage1, <- ?app_assoc).
  assert (length front + length run + 2 ≤ length image) as Hlen
    by (rewrite Himage1, !length_app; simpl; lia).
  unfold Image.find_idat_end.
  rewrite (chunk_find_const_skip _ front _ _ _ _ 8 Himage1) by (done || lia).
  assert (∃ c run', run = c :: run') as (c & run' & Erun) by (destruct run; [done|eauto]).
  assert (wf_chunk c ∧ chunk_type c = Image.IDAT) as [Hwfc Hc].
  { rewrite Erun in Hwf2, Hidat.
    apply Forall_cons in Hwf2 as [? _]. by apply Forall_cons in Hidat as [? _]. }
  rewrite (chunk_find_const_here _ c _ image (Image.PNG_SIGNATURE ++ concat front)
             (concat run' ++ next ++ concat back))
    by first [done|lia|rewrite ?length_app; simpl; lia
             |rewrite Himage2, Erun; cbn [concat]; by rewrite <- ?app_assoc].
  rewrite (find_idat_end_loop_run run _ _ _ _ _ Himage2)
    by first [done|lia|rewrite ?length_app; simpl; lia].
  rewrite (find_idat_end_loop_stop next _ _ _ _ _ Himage3)
    by first [done|lia|rewrite ?length_app; simpl; lia].
  step. do 2 f_equal. rewrite concat_app, !length_app. simpl. lia.
Qed.

(** X5.  A file of whole chunks with no [IDAT] chunk at all, or in which the
    first run of [IDAT] chunks reaches the end of the file: the constructor
    has undefined behaviour, by a read outside the buffer.  With no [IDAT]
    chunk [lodepng_chunk_find_const] returns the null pointer and
    [find_idat_end] hands it to [lodepng_chunk_type_equals]; with a run that
    reaches the end, the loop of [find_idat_end] arrives at the end of the
    buffer and [lodepng_chunk_type_equals] reads the type code behind it.
    What the call does after that read is not fixed by the source: the
    outcome [Undefined] records the read, not that the call fails to
    return. *)
Theorem load_without_following_chunk (file : list byte) (front run : list (list byte)) :
  file = Image.PNG_SIGNATURE ++ concat (front ++ run) →
  Forall wf_chunk (front ++ run) →
  Forall (λ c, chunk_type c ≠ Image.IDAT) front →
  Forall (λ c, chunk_type c = Image.IDAT) run →
  (run = [] → LodePNG.chunk_find_const (S (length file)) file 8 Image.IDAT = None) ∧
  (run ≠ [] →
   ∃ chunk fuel,
     LodePNG.chunk_find_const (S (length file)) file 8 Image.IDAT = Some chunk ∧
     Image.find_idat_end_loop (S (length file)) file chunk
     = Image.find_idat_end_loop (S fuel) file (length file)) ∧
  LodePNG.chunk_type_equals (drop (length file) file) Image.IDAT = Undefined ∧
  Image.find_idat_end file = Undefined ∧
  Image.load file = Undefined.
Proof.
  intros -> Hwf Hfront Hidat. rewrite load_signed.
  apply Forall_app in Hwf as [Hwf1 Hwf2].
  pose proof (length_concat_wf _ Hwf1) as Hl1. pose proof (length_concat_wf _ Hwf2) as Hl2.
  set (image := Image.PNG_SIGNATURE ++ concat (front ++ run)).
  assert (image = Image.PNG_SIGNATURE ++ concat front ++ (concat run ++ [])) as Himage1
    by (unfold image; by rewrite concat_app, app_nil_r).
  assert (image = (Image.PNG_SIGNATURE ++ concat front) ++ concat run ++ []) as Himage2
    by (by rewrite Himage1, <- ?app_assoc).
  assert (length image = 8 + length (concat front) + length (concat run)) as Hlen
    by (rewrite Himage1, !length_app; simpl; lia).
  assert (LodePNG.chunk_type_equals (drop (length image) image) Image.IDAT = Undefined)
    as Hread.
  { unfold LodePNG.chunk_type_equals. rewrite drop_all. by rewrite decide_False by (simpl; lia). }
  assert (LodePNG.chunk_find_const (S (length image)) image 8 Image.IDAT
          = LodePNG.chunk_find_const (S (length image) - length front) image
              (8 + length (concat front)) Image.IDAT) as Hskip
    by (rewrite (chunk_find_const_skip _ front _ _ _ _ 8 Himage1) by (done || lia); done).
  destruct (decide (run = [])) as [->|Hrun].
  - assert (length image ≤ 8 + length (concat front)) as Hend
      by (change (length (concat (@nil (list byte)))) with 0 in Hlen; lia).
    assert (LodePNG.chunk_find_const (S (length image)) image 8 Image.IDAT = None) as Hnone
      by (rewrite Hskip; by apply chunk_find_const_end).
    split; [done|]. split; [done|]. split; [done|].
    unfold Image.find_idat_end. rewrite Hnone. done.
  - assert (∃ c run', run = c :: run') as (c & run' & Erun) by (destruct run; [done|eauto]).
    assert (wf_chunk c ∧ chunk_type c = Image.IDAT) as [Hwfc Hc].
    { rewrite Erun in Hwf2, Hidat.
      apply Forall_cons in Hwf2 as [? _]. by apply Forall_cons in Hidat as [? _]. }
    assert (LodePNG.chunk_find_const (S (length image)) image 8 Image.IDAT
            = Some (8 + length (concat front))) as Hfound.
    { rewrite Hskip.
      apply (chunk_find_const_here _ c _ image (Image.PNG_SIGNATURE ++ concat front)
               (concat run' ++ [])).
      - rewrite Himage2, Erun. cbn [concat]. by rewrite <- ?app_assoc.
      - rewrite length_app. reflexivity.
      - exact Hwfc.
      - exact Hc.
      - lia. }
    assert (Image.find_idat_end_loop (S (length image)) image (8 + length (concat front))
            = Image.find_idat_end_loop (S (length image - length run)) image (length image))
      as Hloop.
    { rewrite (find_idat_end_loop_run run _ _ _ _ _ Himage2)
        by first [done|lia|rewrite ?length_app; simpl; lia].
      f_equal; lia. }
    split; [done|]. split; [eauto|]. split; [done|].
    unfold Image.find_idat_end. rewrite Hfound, Hloop.
    rewrite find_idat_end_loop_end by lia. done.
Qed.


(** ** Beyond the claims: [clear_chunks] on any buffer *)

Lemma ranges_ok_le lo ranges hi : ranges_ok lo ranges hi → lo ≤ hi.
Proof.
  revert lo. induction ranges as [|[b e] ranges IH]; intros lo; simpl; [done|].
  intros (? & ? & Hrest). apply IH in Hrest. lia.
Qed.

Lemma ranges_ok_weaken lo ranges hi hi' :
  ranges_ok lo ranges hi → hi ≤ hi' → ranges_ok lo ranges hi'.
Proof.
  revert lo. induction ranges as [|[b e] ranges IH]; intros lo; simpl; [lia|].
  intros (? & ? & Hrest) ?. eauto.
Qed.

Lemma ranges_ok_snoc lo ranges mid b e hi :
  ranges_ok lo ranges mid → mid ≤ b → b < e → e ≤ hi →
  ranges_ok lo (ranges ++ [(b, e)]) hi.
Proof.
  revert lo. induction ranges as [|[b' e'] ranges IH]; intros lo; simpl.
  - lia.
  - intros (? & ? & Hrest) ? ? ?. eauto.
Qed.

Section any_buffer.
Context {T : Type} `{ChunkT T}.

(** Erasing well-ordered ranges last to first is defined and leaves what is
    in front of the first range alone. *)
Lemma erase_each_ranges_ok ranges : ∀ lo image,
  ranges_ok lo ranges (length image) →
  ∃ image',
    Image.erase_each (rev ranges) image = Ok image' ∧
    take lo image' = take lo image ∧
    length image' ≤ length image.
Proof.
  induction ranges as [|[b e] ranges IH]; intros lo image Hok; simpl in *.
  - by exists image.
  - destruct Hok as (Hlo & Hbe & Hrest).
    pose proof (ranges_ok_le _ _ _ Hrest) as He.
    destruct (IH e image Hrest) as (image1 & Herase & Htake & Hlen).
    assert (e ≤ length image1) as He1.
    { apply (f_equal length) in Htake. rewrite !length_take in Htake. lia. }
    rewrite erase_each_app, Herase. step. simpl.
    unfold vector_erase. rewrite decide_True by lia. step.
    eexists. split; [done|]. split.
    + rewrite take_app_le by (rewrite length_take; lia).
      rewrite take_take. replace (lo `min` b) with (lo `min` e) by lia.
      rewrite <- (take_take image1), Htake, take_take. f_equal. lia.
    + rewrite length_app, length_take, length_drop. lia.
Qed.

Lemma clear_chunks_scan_ranges_ok image : ∀ fuel chunk ranges rb count ranges' rb' count',
  Image.clear_chunks_scan fuel image chunk ranges rb count = Ok (ranges', rb', count') →
  chunk ≤ length image →
  ranges_ok 8 ranges (default chunk rb) →
  (∀ b, rb = Some b → b < chunk) →
  ranges_ok 8 ranges' (length image) ∧
  count ≤ count' ∧
  (rb = None → count' = count → ranges' = ranges).
Proof.
  induction fuel as [|fuel IH]; intros chunk ranges rb count ranges' rb' count';
    simpl; [done|].
  intros Hscan Hchunk Hok Hrb. revert Hscan. case_decide as Hlt.
  - pose proof (chunk_next_const_gt image chunk Hlt) as Hgt.
    pose proof (chunk_next_const_le image chunk Hchunk) as Hle.
    destruct (is_valid _) as [[|]| |]; step; try done.
    + intros Hscan. apply IH in Hscan as (? & ? & ?).
      * split; [done|]. split; [lia|]. intros _ ?. lia.
      * done.
      * destruct rb as [b|]; simpl in *; [done|]. done.
      * intros b Hb. destruct rb as [b0|]; simplify_eq; [|lia].
        specialize (Hrb _ eq_refl). lia.
    + destruct rb as [b|]; simpl in *.
      * intros Hscan. apply IH in Hscan as (? & ? & ?); [|done|..].
        -- split; [done|]. split; [lia|]. done.
        -- simpl. specialize (Hrb _ eq_refl).
           by apply (ranges_ok_snoc _ _ b); try lia.
        -- done.
      * intros Hscan. apply IH in Hscan as (? & ? & Hsame); [|done|..].
        -- split; [done|]. split; [lia|]. intros _ ?. by apply Hsame.
        -- simpl. by apply (ranges_ok_weaken _ _ chunk); try lia.
        -- done.
  - intros [= <- <- <-]. split; [|split; [lia|done]].
    destruct rb as [b|]; simpl in *.
    + specialize (Hrb _ eq_refl). apply (ranges_ok_weaken _ _ b); [done|lia].
    + apply (ranges_ok_weaken _ _ chunk); [done|lia].
Qed.

Lemma get_chunks_loop_count image : ∀ fuel chunk chunks l ranges rb count,
  Image.get_chunks_loop fuel image chunk chunks = Ok l →
  length chunks ≤ length l ∧
  ∃ ranges' rb',
    Image.clear_chunks_scan fuel image chunk ranges rb count
    = Ok (ranges', rb', count + (length l - length chunks)).
Proof.
  induction fuel as [|fuel IH]; intros chunk chunks l ranges rb count; simpl; [done|].
  case_decide.
  - destruct (is_valid _) as [[|]| |]; step; try done.
    + destruct (from_raw _) as [c| |]; step; try done.
      intros Hloop.
      destruct (IH _ _ _ ranges
                  (match rb with None => Some chunk | Some _ => rb end) (S count) Hloop)
        as (Hlen & ranges' & rb' & ->).
      rewrite length_app in *. simpl in *. split; [lia|].
      eexists _, _. do 2 f_equal. lia.
    + intros Hloop. destruct rb as [b|].
      * destruct (IH _ _ _ (ranges ++ [(b, chunk)]) None count Hloop)
          as (Hlen & ranges' & rb' & ->). eauto.
      * destruct (IH _ _ _ ranges None count Hloop) as (Hlen & ranges' & rb' & ->). eauto.
  - intros [= <-]. split; [done|]. eexists _, _. do 2 f_equal. lia.
Qed.

(** X6.  Whatever the buffer holds, when [clear_chunks] returns it has left
    the first eight bytes (the signature) as they were and has not made
    the buffer longer; when it reports that it deleted nothing, the buffer
    is unchanged. *)
Theorem clear_chunks_keeps_signature (img img' : Image.t) (n : nat) :
  Image.clear_chunks img = Ok (n, img') →
  take 8 (Image.image img') = take 8 (Image.image img) ∧
  length (Image.image img') ≤ length (Image.image img) ∧
  (n = 0 → Image.image img' = Image.image img).
Proof.
  unfold Image.clear_chunks. case_decide; [|done].
  destruct (Image.clear_chunks_scan _ _ _ _ _ _) as [[[ranges rb] count]| |] eqn:Hscan;
    step; [|done..].
  apply clear_chunks_scan_ranges_ok in Hscan as (Hok & _ & Hsame); [|done|simpl; lia|done].
  destruct (erase_each_ranges_ok _ _ _ Hok) as (image' & Herase & Htake & Hlen).
  rewrite Herase. step.
  intros [= <- <-]. simpl. split; [done|]. split; [done|].
  intros ->. rewrite Hsame in Herase by done. simpl in Herase. congruence.
Qed.

(** X7.  When [get_chunks] returns a list, [clear_chunks] on the same image
    returns too, and the number it reports is the length of that list. *)
Theorem clear_chunks_counts_get_chunks (img : Image.t) (l : list T) :
  Image.get_chunks img = Ok l →
  ∃ img', Image.clear_chunks img = Ok (length l, img').
Proof.
  unfold Image.get_chunks, Image.clear_chunks. case_decide; [|done].
  intros Hget.
  destruct (get_chunks_loop_count _ _ _ _ _ [] None 0 Hget) as (_ & ranges & rb & Hscan).
  rewrite Hscan. step.
  apply clear_chunks_scan_ranges_ok in Hscan as (Hok & _ & _); [|done|simpl; lia|done].
  destruct (erase_each_ranges_ok _ _ _ Hok) as (image' & -> & _). step.
  simpl. rewrite Nat.sub_0_r. eauto.
Qed.
End any_buffer.


(** ** Beyond the claims: how the insertions compose *)

Section composing.
Context {T : Type} `{ChunkT T}.

Lemma insert_each_outside encoded image pos :
  length image < pos → encoded ≠ [] → Image.insert_each encoded image pos = Undefined.
Proof.
  intros Hpos Hne. destruct encoded as [|e encoded]; [done|]. simpl.
  unfold vector_insert. by rewrite decide_False by lia.
Qed.

Lemma add_chunks_outside chunks img :
  length (Image.image img) < Image.idat_end_pos img → chunks ≠ [] →
  Image.add_chunks chunks img = Undefined.
Proof.
  intros Hpos Hne. unfold Image.add_chunks. rewrite insert_each_outside; [done..|].
  intros Hrev%(f_equal length). rewrite length_rev, length_map in Hrev.
  by destruct chunks.
Qed.

Lemma add_chunks_nil img : Image.add_chunks [] img = Ok img.
Proof. by destruct img. Qed.

Lemma add_chunk_singleton chunk img :
  Image.add_chunk chunk img = Image.add_chunks [chunk] img.
Proof.
  unfold Image.add_chunk, Image.add_chunks. simpl.
  by destruct (vector_insert _ _ _).
Qed.

(** X8.  Every insertion goes to the same offset, so a later insertion
    lands in front of an earlier one: inserting [chunks2] and then [chunks1]
    is inserting [chunks1 ++ chunks2] at once.  The single-chunk [add_chunk]
    is the multi-chunk one on a list of one chunk. *)
Theorem add_chunks_add_chunks (chunks1 chunks2 : list T) (chunk : T) (img : Image.t) :
  (img' ← Image.add_chunks chunks2 img; Image.add_chunks chunks1 img')
  = Image.add_chunks (chunks1 ++ chunks2) img ∧
  Image.add_chunk chunk img = Image.add_chunks [chunk] img.
Proof.
  split.
  - destruct (decide (Image.idat_end_pos img ≤ length (Image.image img))) as [Hpos|Hpos].
    + rewrite !add_chunks_ok by done. step.
      rewrite add_chunks_ok by (cbn [Image.image Image.idat_end_pos];
                                rewrite length_app, length_take; lia).
      cbn [Image.image Image.idat_end_pos].
      rewrite take_app_length', drop_app_length' by (rewrite length_take; lia).
      by rewrite map_app, concat_app, <- !app_assoc.
    + destruct chunks2 as [|c chunks2].
      * rewrite add_chunks_nil, app_nil_r. done.
      * rewrite !add_chunks_outside by (done || lia || by destruct chunks1). done.
  - apply add_chunk_singleton.
Qed.
End composing.

(** ** Beyond the claims: the merged record, both ways *)

(** X9.  [from_merged] returns a file exactly for the data that is the merged
    form of that file with a name free of NUL: it splits at the first NUL,
    and merging what it returned gives the data back. *)
Theorem from_merged_Ok_iff (data : list byte) (f : SubFile.t) :
  SubFile.from_merged data = Ok f ↔
  (x00 ∉ u8string (SubFile.name f)) ∧ SubFile.merged f = data.
Proof.
  split.
  - unfold SubFile.from_merged.
    destruct (memchr data x00 _) as [[i|]| |] eqn:Hi; step; try done.
    intros [= <-]. apply memchr_Some in Hi as (Hi & Habsent & _).
    split; [done|]. unfold SubFile.merged. simpl.
    by apply take_drop_middle.
  - intros [Hname <-]. destruct f as [[name] contents]. by apply from_merged_separated.
Qed.

(** ** Beyond the claims: what the [TextChunk] constructor reads *)

Lemma memchr_prefix buf1 buf2 c n :
  (0 ≤ n ≤ Z.of_nat (length buf1))%Z → (n ≤ Z.of_nat (length buf2))%Z →
  take (Z.to_nat n) buf1 = take (Z.to_nat n) buf2 →
  memchr buf1 c n = memchr buf2 c n.
Proof.
  intros Hn1 Hn2 Htake.
  destruct (decide (c ∈ take (Z.to_nat n) buf1)) as [Hin|Hout].
  - destruct (list_find_elem_of (λ b, b = c) _ _ Hin eq_refl) as [[i x] Hfind].
    apply list_find_Some in Hfind as (Hi & -> & Hfirst).
    apply lookup_take_Some in Hi as [Hi Hlt].
    assert (c ∉ take i buf1) as Habsent.
    { intros (k & Hk)%list_elem_of_lookup. apply lookup_take_Some in Hk as [Hk Hki].
      apply (Hfirst k c); [|done..]. rewrite lookup_take_lt by lia. done. }
    rewrite (memchr_found buf1 c n i) by (done || lia).
    rewrite (memchr_found buf2 c n i); [done| | |lia].
    + rewrite <- (lookup_take_lt buf2 (Z.to_nat n)), <- Htake by lia.
      by rewrite lookup_take_lt by lia.
    + replace (take i buf2) with (take i (take (Z.to_nat n) buf2))
        by (rewrite take_take; f_equal; lia).
      rewrite <- Htake, take_take. by replace (i `min` Z.to_nat n) with i by lia.
  - rewrite (memchr_none buf1) by done.
    rewrite (memchr_none buf2) by (lia || by rewrite <- Htake). done.
Qed.

Section payload_only.
Context `{Zlib}.

(** X10.  Two chunks with the same length field, at least 1, and the same
    payload decode alike: the constructor looks neither at the type code nor
    at the CRC, and at nothing behind the payload. *)
Theorem TextChunk_decode_payload_only (chunk1 chunk2 : list byte) (len : Z) :
  LodePNG.chunk_length chunk1 = Ok len →
  LodePNG.chunk_length chunk2 = Ok len →
  (1 ≤ len)%Z →
  (8 + len ≤ Z.of_nat (length chunk1))%Z →
  (8 + len ≤ Z.of_nat (length chunk2))%Z →
  take (Z.to_nat len) (LodePNG.chunk_data_const chunk1)
  = take (Z.to_nat len) (LodePNG.chunk_data_const chunk2) →
  TextChunk.decode chunk1 = TextChunk.decode chunk2.
Proof.
  intros Hlen1 Hlen2 Hpos Hbuf1 Hbuf2 Hpayload.
  pose proof (chunk_length_range _ _ Hlen1) as Hrange.
  unfold TextChunk.decode. rewrite Hlen1, Hlen2. step.
  set (data1 := LodePNG.chunk_data_const chunk1) in *.
  set (data2 := LodePNG.chunk_data_const chunk2) in *.
  assert (Z.of_nat (length data1) = Z.of_nat (length chunk1) - 8)%Z as Hdata1
    by (unfold data1, LodePNG.chunk_data_const; rewrite length_drop; lia).
  assert (Z.of_nat (length data2) = Z.of_nat (length chunk2) - 8)%Z as Hdata2
    by (unfold data2, LodePNG.chunk_data_const; rewrite length_drop; lia).
  assert (∀ k, k ≤ Z.to_nat len → take k data1 = take k data2) as Htake.
  { intros k Hk.
    transitivity (take k (take (Z.to_nat len) data1)); [rewrite take_take; f_equal; lia|].
    rewrite Hpayload, take_take. f_equal. lia. }
  assert (∀ k, k < Z.to_nat len → data1 !! k = data2 !! k) as Hlookup.
  { intros k Hk. rewrite <- (lookup_take_lt data1 (Z.to_nat len)) by done.
    rewrite <- (lookup_take_lt data2 (Z.to_nat len)) by done. by rewrite Hpayload. }
  assert (wrap32 (len - 1) = (len - 1)%Z) as ->
    by (unfold wrap32; apply Z.mod_small; lia).
  rewrite (memchr_prefix data1 data2) by (lia || apply Htake; lia).
  destruct (memchr data2 x00 (len - 1)) as [[i|]| |] eqn:Hi; step; try done.
  apply memchr_Some in Hi as (_ & _ & Hi).
  rewrite Htake, Hlookup by lia.
  destruct (data2 !! S i) as [method|]; cbn [from_option]; step; [|done].
  case_decide; [done|].
  assert (wrap64 (len - Z.of_nat (S (S i))) = (len - Z.of_nat (S (S i)))%Z) as ->
    by (unfold wrap64; apply Z.mod_small; lia).
  unfold span. rewrite !decide_True by (rewrite length_drop; lia).
  rewrite !take_drop_commute.
  replace (S (S i) + Z.to_nat (len - Z.of_nat (S (S i)))) with (Z.to_nat len) by lia.
  by rewrite Hpayload.
Qed.
End payload_only.


(** ** Beyond the claims: embedding and cleaning *)

Lemma rejected_app vs1 vs2 : rejected (vs1 ++ vs2) = rejected vs1 ++ rejected vs2.
Proof. apply filter_app. Qed.

Lemma accepted_app vs1 vs2 : accepted (vs1 ++ vs2) = accepted vs1 + accepted vs2.
Proof. unfold accepted. by rewrite filter_app, length_app. Qed.

Lemma accepted_0_rejected vs : accepted vs = 0 → rejected vs = vs.
Proof.
  induction vs as [|[c [|]] vs IH].
  - done.
  - by rewrite accepted_cons_true.
  - rewrite accepted_cons_false, rejected_cons_false. intros ?. by rewrite IH.
Qed.

Section embedded.
Context {T : Type} `{ChunkT T}.

(** The encoded chunks with the verdict [is_valid] has on them. *)
Lemma judged_encoded encodable `{!ChunkCodec encodable} chunks :
  Forall encodable chunks →
  Forall judged (map (λ x, (encode x, true)) chunks) ∧
  rejected (map (λ x, (encode x, true)) chunks) = [] ∧
  accepted (map (λ x, (encode x, true)) chunks) = length chunks ∧
  (map (λ x, (encode x, true)) chunks).*1 = map encode chunks.
Proof.
  induction 1 as [|x chunks Hx _ (IH1 & IH2 & IH3 & IH4)]; [done|]. cbn [map].
  split; [|split; [|split]].
  - apply Forall_cons. split; [|done]. split; [by apply encode_wf|].
    intros rest. by apply encode_is_valid.
  - by rewrite rejected_cons_true.
  - rewrite accepted_cons_true. simpl. by rewrite IH3.
  - csimpl. by rewrite IH4.
Qed.

(** X11.  A loaded image of whole chunks whose last chunk [is_valid] does
    not accept.  Embedding chunks and then calling [clear_chunks] reports
    the embedded chunks besides those that were there, and leaves the image
    that [clear_chunks] alone would have left; if no chunk was embedded
    before, that is the loaded image itself, buffer and insertion offset. *)
Theorem add_chunks_then_clear_chunks encodable `{!ChunkCodec encodable}
    (file : list byte) (vs : list (list byte * bool)) (img : Image.t) (chunks : list T) :
  file = Image.PNG_SIGNATURE ++ concat vs.*1 →
  Forall judged vs →
  snd <$> last vs = Some false →
  Image.load file = Ok img →
  Forall encodable chunks →
  ∃ img1,
    Image.clear_chunks img = Ok (accepted vs, img1) ∧
    (img' ← Image.add_chunks chunks img; Image.clear_chunks img')
    = Ok (accepted vs + length chunks, img1) ∧
    (accepted vs = 0 → img1 = img).
Proof.
  intros Hfile Hvs Hlast Hload Henc.
  pose proof (load_image _ _ Hload) as Himg.
  pose proof (load_idat_end_pos _ _ Hload) as Hpos.
  assert (Forall wf_chunk vs.*1) as Hwf.
  { apply Forall_fmap. eapply Forall_impl; [exact Hvs|]. by intros ? [? _]. }
  destruct (load_stream _ _ _ Hload Hfile Hwf) as (cs1 & cs2 & Hsplit & Hpos').
  apply fmap_app_inv in Hsplit as (vs1 & vs2 & -> & -> & ->).
  apply Forall_app in Hvs as [Hvs1 Hvs2].
  destruct (judged_encoded encodable chunks Henc) as (Hjenc & Hrenc & Haenc & Hfenc).
  set (enc := map (λ x, (encode x, true)) chunks) in *.
  assert (vs2 ≠ []) as Hvs2ne.
  { intros ->. rewrite Himg, Hfile, Hpos', app_nil_r in Hpos.
    rewrite length_app in Hpos. simpl in Hpos. lia. }
  assert (snd <$> last (vs1 ++ enc ++ vs2) = Some false) as Hlast'.
  { rewrite last_app in Hlast. rewrite !last_app.
    destruct (last vs2) eqn:Hl2; [exact Hlast|]. by apply last_None in Hl2. }
  rewrite (clear_chunks_stream img (vs1 ++ vs2)) by (by rewrite ?Himg; try apply Forall_app).
  rewrite remaining_rejected by (by right).
  rewrite add_chunks_ok by lia. step.
  rewrite (clear_chunks_stream _ (vs1 ++ enc ++ vs2)).
  - rewrite remaining_rejected by (by right).
    rewrite !rejected_app, !accepted_app, Hrenc, Haenc. simpl.
    eexists. split; [done|]. split; [f_equal; f_equal; lia|].
    intros Hnone.
    rewrite <- rejected_app, accepted_0_rejected by (by rewrite accepted_app).
    destruct img as [image pos]. simpl in *. by rewrite Himg, Hfile.
  - cbn [Image.image]. rewrite Himg, Hfile, Hpos', !fmap_app, Hfenc, !concat_app.
    change 8 with (length Image.PNG_SIGNATURE).
    rewrite <- length_app, (app_assoc Image.PNG_SIGNATURE), take_app_length,
      drop_app_length.
    by rewrite <- !app_assoc.
  - by repeat (apply Forall_app; split).
Qed.
End embedded.

Section single_file.
Context `{ZlibRoundTrip}.

(** X12.  The single-file [add_sub_file], which [fuse] takes for exactly one
    file: after it [get_sub_files] returns that file, name and contents, at
    the place of the insertion offset among the files embedded before. *)
Theorem add_sub_file_then_get_sub_files
    (file : list byte) (cs : list (list byte)) (img : Image.t)
    (f : SubFile.t) (fs0 : list SubFile.t) :
  file = Image.PNG_SIGNATURE ++ concat cs →
  Forall wf_chunk cs →
  Forall (self_contained (T := FuseChunk.t)) cs →
  Image.load file = Ok img →
  x00 ∉ u8string (SubFile.name f) →
  (Z.of_nat (length (lodepng_zlib_compress (SubFile.merged f))) + 9 < 2 ^ 32)%Z →
  SubFileImage.get_sub_files img = Ok fs0 →
  ∃ img' fs1 fs2,
    SubFileImage.add_sub_file f img = Ok img' ∧
    fs0 = fs1 ++ fs2 ∧
    SubFileImage.get_sub_files img' = Ok (fs1 ++ f :: fs2).
Proof.
  intros Hfile Hwf Hsc Hload Hname Hsize Hget.
  assert (Forall FuseChunk_encodable [FuseChunk.of_subfile f]) as Henc
    by (apply Forall_singleton; by apply of_subfile_encodable).
  destruct (add_chunks_stream FuseChunk_encodable file cs img _ Hfile Hwf Hsc Hload Henc)
    as (cs1 & cs2 & img' & _ & Hadd & _ & Hbefore & Hafter).
  revert Hget. unfold SubFileImage.get_sub_files, SubFileImage.add_sub_file.
  rewrite add_chunk_singleton, Hbefore.
  destruct (enumerate cs1) as [l1| |]; step; try done.
  destruct (enumerate cs2) as [l2| |]; step; try done.
  rewrite to_subfiles_app.
  destruct (SubFileImage.to_subfiles l1) as [fs1| |] eqn:Hfs1; step; try done.
  destruct (SubFileImage.to_subfiles l2) as [fs2| |] eqn:Hfs2; step; try done.
  intros [= <-]. exists img', fs1, fs2. split; [done|]. split; [done|].
  rewrite Hafter. step.
  rewrite to_subfiles_app, Hfs1. step. cbn [app SubFileImage.to_subfiles].
  by rewrite to_subfile_of_subfile, Hfs2.
Qed.
End single_file.

Import Sample.

(** ** Closed instances of the theorems beyond the claims *)

Ltac judged_chunk :=
  split; [whole_chunk|]; intros rest; cbn [fst snd];
  first
    [ apply FuseChunk_other_type; [vm_compute; lia|vm_compute; discriminate]
    | apply (encode_is_valid (ChunkCodec := @FuseChunk_codec store store_round_trip));
      embeddable ].

Lemma load_insertion_offset_witness :
  Image.load (Image.PNG_SIGNATURE ++ concat ([IHDR] ++ [IDAT; IDAT] ++ early :: [IDAT; IEND]))
  = Ok (Image.Build
          (Image.PNG_SIGNATURE ++ concat ([IHDR] ++ [IDAT; IDAT] ++ early :: [IDAT; IEND]))
          (length (Image.PNG_SIGNATURE ++ concat ([IHDR] ++ [IDAT; IDAT])))).
Proof.
  apply (load_insertion_offset _ [IHDR] [IDAT; IDAT] early [IDAT; IEND]).
  - reflexivity.
  - each whole_chunk.
  - each ltac:(vm_compute; discriminate).
  - discriminate.
  - each ltac:(vm_compute; reflexivity).
  - vm_compute. discriminate.
Defined.

Lemma load_without_following_chunk_witness :
  LodePNG.chunk_type_equals
    (drop (length (Image.PNG_SIGNATURE ++ concat ([IHDR] ++ [IDAT])))
       (Image.PNG_SIGNATURE ++ concat ([IHDR] ++ [IDAT]))) Image.IDAT = Undefined ∧
  Image.load (Image.PNG_SIGNATURE ++ concat ([IHDR] ++ [IDAT])) = Undefined.
Proof.
  destruct (load_without_following_chunk
              (Image.PNG_SIGNATURE ++ concat ([IHDR] ++ [IDAT])) [IHDR] [IDAT])
    as (_ & _ & Hread & _ & Hload).
  - reflexivity.
  - each whole_chunk.
  - each ltac:(vm_compute; discriminate).
  - each ltac:(vm_compute; reflexivity).
  - exact (conj Hread Hload).
Defined.

Lemma clear_chunks_keeps_signature_witness :
  take 8 (Image.image (Image.Build png 55))
  = take 8 (Image.image
              (Image.Build (Image.PNG_SIGNATURE ++ IHDR ++ IDAT
                              ++ FuseChunk.encode (H := store) A
                              ++ FuseChunk.encode (H := store) B ++ IEND) 55)) ∧
  length (Image.image (Image.Build png 55))
  ≤ length (Image.image
              (Image.Build (Image.PNG_SIGNATURE ++ IHDR ++ IDAT
                              ++ FuseChunk.encode (H := store) A
                              ++ FuseChunk.encode (H := store) B ++ IEND) 55)) ∧
  (2 = 0 →
   Image.image (Image.Build png 55)
   = Image.image
       (Image.Build (Image.PNG_SIGNATURE ++ IHDR ++ IDAT
                       ++ FuseChunk.encode (H := store) A
                       ++ FuseChunk.encode (H := store) B ++ IEND) 55)).
Proof.
  apply (@clear_chunks_keeps_signature FuseChunk.t (FuseChunk.chunkT (H := store))).
  vm_compute. reflexivity.
Defined.

Lemma clear_chunks_counts_get_chunks_witness :
  ∃ img',
    Image.clear_chunks (H := FuseChunk.chunkT (H := store))
      (Image.Build (Image.PNG_SIGNATURE ++ IHDR ++ IDAT
                      ++ FuseChunk.encode (H := store) A
                      ++ FuseChunk.encode (H := store) B ++ IEND) 55)
    = Ok (length [A; B], img').
Proof.
  apply (@clear_chunks_counts_get_chunks FuseChunk.t (FuseChunk.chunkT (H := store))).
  vm_compute. reflexivity.
Defined.

Lemma TextChunk_decode_payload_only_witness :
  TextChunk.decode (H := store) fuSe_a_txt
  = TextChunk.decode (H := store)
      (LodePNG.chunk_create (bytes "PNGFuse" ++ [x00; x00] ++ stored_a_txt) TextChunk.type
         ++ IEND).
Proof.
  apply (@TextChunk_decode_payload_only store _ _ 28%Z).
  - vm_compute. reflexivity.
  - vm_compute. reflexivity.
  - lia.
  - vm_compute. discriminate.
  - vm_compute. discriminate.
  - vm_compute. reflexivity.
Defined.

Lemma add_chunks_then_clear_chunks_witness :
  ∃ img1,
    Image.clear_chunks (H := FuseChunk.chunkT (H := store)) (Image.Build png_early 85)
    = Ok (accepted [(IHDR, false); (early, true); (IDAT, false); (IEND, false)], img1) ∧
    (img' ← Image.add_chunks (H := FuseChunk.chunkT (H := store)) [A; B]
              (Image.Build png_early 85);
     Image.clear_chunks (H := FuseChunk.chunkT (H := store)) img')
    = Ok (accepted [(IHDR, false); (early, true); (IDAT, false); (IEND, false)]
          + length [A; B], img1) ∧
    (accepted [(IHDR, false); (early, true); (IDAT, false); (IEND, false)] = 0 →
     img1 = Image.Build png_early 85).
Proof.
  apply (@add_chunks_then_clear_chunks FuseChunk.t (FuseChunk.chunkT (H := store))
           (FuseChunk_encodable (H := store)) (@FuseChunk_codec store store_round_trip)
           png_early).
  - vm_compute. reflexivity.
  - each judged_chunk.
  - reflexivity.
  - vm_compute. reflexivity.
  - each embeddable.
Defined.

Lemma add_sub_file_then_get_sub_files_witness :
  ∃ img' fs1 fs2,
    SubFileImage.add_sub_file (H := store) (file "hello.txt" "world") (Image.Build png_early 85)
    = Ok img' ∧
    [file "E" "earlier"] = fs1 ++ fs2 ∧
    SubFileImage.get_sub_files (H := store) img'
    = Ok (fs1 ++ file "hello.txt" "world" :: fs2).
Proof.
  apply (@add_sub_file_then_get_sub_files store store_round_trip
           png_early [IHDR; early; IDAT; IEND]).
  - vm_compute. reflexivity.
  - each whole_chunk.
  - each ltac:(first [other_type|encoded_self_contained]).
  - vm_compute. reflexivity.
  - no_NUL.
  - vm_compute. reflexivity.
  - vm_compute. reflexivity.
Defined.


(** ** Beyond the claims: the command line *)

Ltac pstep := cbn [mbind parse_bind mret parse_ret].

Lemma read_output_Parsed args index flags extra flags' extra' :
  Flags.read_output args index flags extra = Parsed (flags', extra') →
  is_Some (Flags.output flags') ∧ (extra' = true → extra = true ∨ index + 1 < length args)
  ∧ Flags._ignore_rest flags' = Flags._ignore_rest flags.
Proof.
  unfold Flags.read_output, Flags.FlagValue, at_index.
  destruct (args !! index) as [arg|]; simpl; [|done].
  destruct (Flags.split_value arg) as [value|]; pstep.
  - intros [= <- <-]. simpl. rewrite orb_false_r. eauto.
  - case_decide; pstep; [|done].
    destruct (args !! (index + 1)); simpl; [|done].
    intros [= <- <-]. simpl. eauto.
Qed.

Lemma short_flags_Parsed arg args index equals flags extra flags' extra' :
  Flags.short_flags arg args index equals flags extra = Parsed (flags', extra') →
  (extra = true → is_Some (Flags.output flags)) →
  (extra' = true → is_Some (Flags.output flags')) ∧
  (is_Some (Flags.output flags) → is_Some (Flags.output flags')).
Proof.
  revert equals flags extra.
  induction arg as [|c arg IH]; intros equals flags extra; simpl.
  - intros [= <- <-]. done.
  - destruct equals; [intros [= <- <-]; done|].
    repeat case_decide; try done;
      try (intros Hrun Hextra; by apply IH in Hrun).
    destruct (Flags.read_output _ _ _ _) as [[flags1 extra1]| |] eqn:Hread; pstep; try done.
    apply read_output_Parsed in Hread as (Hout & _).
    intros Hrun _. apply IH in Hrun; [|done]. destruct Hrun. split; [done|]. eauto.
Qed.

Lemma process_flag_Parsed flags args index n flags' :
  Flags.process_flag flags args index = Parsed (n, flags') →
  n ≤ 1 ∧ (n = 1 → is_Some (Flags.output flags')) ∧
  (is_Some (Flags.output flags) → is_Some (Flags.output flags')).
Proof.
  unfold Flags.process_flag.
  destruct (Flags._ignore_rest flags); [intros [= <- <-]; split; [lia|]; split; [lia|done]|].
  destruct (at_index args index) as [arg| |]; pstep; try done.
  case_decide; [intros [= <- <-]; split; [lia|]; split; [lia|done]|].
  repeat (case_match; try done);
    try (intros [= <- <-]; split; [lia|]; split; [lia|done]).
  - destruct (Flags.read_output _ _ _ _) as [[flags1 extra1]| |] eqn:Hread; pstep; try done.
    apply read_output_Parsed in Hread as (Hout & _).
    intros [= <- <-]. split; [destruct extra1; simpl; lia|]. done.
  - destruct (Flags.short_flags _ _ _ _ _ _) as [[flags1 extra1]| |] eqn:Hrun; pstep; try done.
    apply short_flags_Parsed in Hrun as [Hextra Hout]; [|done].
    intros [= <- <-]. split; [destruct extra1; simpl; lia|]. split; [|done].
    destruct extra1; [auto|done].
Qed.

Lemma sublist_filter_mono {A} (P : A → Prop) `{∀ x, Decision (P x)} (l1 l2 : list A) :
  l1 `sublist_of` l2 → filter P l1 `sublist_of` filter P l2.
Proof.
  induction 1 as [|x l1 l2 _ IH|x l1 l2 _ IH]; [done| |].
  - rewrite !filter_cons. case_decide; [by apply sublist_skip|done].
  - rewrite filter_cons. case_decide; [by apply sublist_cons|done].
Qed.

Lemma loop_args fuel argv i flags acc flags' args' :
  Arguments.loop fuel argv i flags acc = Parsed (flags', args') →
  ∃ extra,
    args' = acc ++ extra ∧
    extra `sublist_of` (Path <$> filter positional (drop i argv)) ∧
    (is_Some (Flags.output flags) → is_Some (Flags.output flags')) ∧
    (Flags.output flags' = None → extra = Path <$> filter positional (drop i argv)).
Proof.
  revert i flags acc.
  induction fuel as [|fuel IH]; intros i flags acc; simpl; [done|].
  case_decide as Hi.
  - destruct (lookup_lt_is_Some_2 argv i Hi) as [arg Harg].
    unfold at_index. rewrite Harg. cbn [from_option]. pstep.
    rewrite (drop_S _ _ _ Harg), filter_cons.
    destruct (head arg) as [front|] eqn:Hfront; cbn [from_option]; pstep; [|done].
    case_decide as Hdash.
    + subst front.
      rewrite decide_False by (unfold positional; rewrite Hfront; by intros []).
      destruct (Flags.process_flag flags argv i) as [[n flags1]| |] eqn:Hflag; pstep; try done.
      apply process_flag_Parsed in Hflag as (Hn & Hone & Hout).
      intros Hloop. apply IH in Hloop as (extra & -> & Hsub & Hout' & Hnone).
      exists extra. split; [done|]. split; [|split; [by auto|]].
      * etrans; [exact Hsub|]. apply fmap_sublist, sublist_filter_mono.
        replace (S (i + n)) with (S i + n) by lia. rewrite <- drop_drop. apply sublist_drop.
      * intros Hnone'. assert (n = 0) as ->.
        { destruct (decide (n = 1)) as [->|]; [|lia].
          destruct Hout' as [? Hsome]; [by apply Hone|]. congruence. }
        rewrite Nat.add_0_r in Hnone. by apply Hnone.
    + rewrite decide_True by (unfold positional; rewrite Hfront; congruence).
      intros Hloop. apply IH in Hloop as (extra & -> & Hsub & Hout' & Hnone).
      exists (Path arg :: extra). rewrite <- app_assoc. split; [done|].
      split; [by apply sublist_skip|]. split; [done|].
      intros Hnone'. rewrite fmap_cons. f_equal. by apply Hnone.
  - intros [= <- <-]. exists []. rewrite app_nil_r, drop_ge by lia. done.
Qed.

(** X13.  The positional arguments are taken from the command line in their
    order: what [Arguments] keeps in [args] is a sublist of the arguments
    after the program name that do not start with [-], and it is all of them
    when no output flag was read, since only the value of an output flag is
    skipped. *)
Theorem parse_arguments_positional (argv : list (list byte)) (a : Arguments.t) :
  Arguments.parse_arguments argv = Parsed a →
  Arguments.args a `sublist_of` (Path <$> filter positional (tail argv)) ∧
  (Flags.output (Arguments.flags a) = None →
   Arguments.args a = Path <$> filter positional (tail argv)).
Proof.
  unfold Arguments.parse_arguments.
  destruct argv as [|program argv']; [done|]. cbn [head from_option]. pstep.
  destruct (Arguments.loop _ _ _ _ _) as [[flags args]| |] eqn:Hloop; pstep; try done.
  apply loop_args in Hloop as (extra & -> & Hsub & _ & Hnone).
  case_match; [done|]. intros [= <-]. cbn [Arguments.args Arguments.flags].
  cbn [drop tail app] in *. rewrite drop_0 in *. done.
Qed.

Lemma read_output_defined args index flags extra :
  index < length args → Flags.read_output args index flags extra ≠ Unspecified.
Proof.
  intros Hi. unfold Flags.read_output, Flags.FlagValue, at_index.
  destruct (lookup_lt_is_Some_2 args index Hi) as [arg ->]. cbn [from_option]. pstep.
  destruct (Flags.split_value arg); pstep; [done|].
  case_decide as Hnext; pstep; [|done].
  destruct (lookup_lt_is_Some_2 args (index + 1) Hnext) as [next ->]. done.
Qed.

Lemma short_flags_defined arg args index equals flags extra :
  index < length args → Flags.short_flags arg args index equals flags extra ≠ Unspecified.
Proof.
  intros Hi. revert equals flags extra.
  induction arg as [|c arg IH]; intros equals flags extra; simpl; [done|].
  destruct equals; [done|]. repeat case_decide; try done.
  destruct (Flags.read_output _ _ _ _) as [[flags1 extra1]| |] eqn:Hread; pstep; try done.
  by apply read_output_defined in Hread.
Qed.

Lemma process_flag_defined flags args index :
  index < length args → Flags.process_flag flags args index ≠ Unspecified.
Proof.
  intros Hi. unfold Flags.process_flag, at_index.
  destruct (Flags._ignore_rest flags); [done|].
  destruct (lookup_lt_is_Some_2 args index Hi) as [arg ->]. cbn [from_option]. pstep.
  repeat (case_match; try done).
  - destruct (Flags.read_output _ _ _ _) as [[flags1 extra1]| |] eqn:Hread; pstep; try done.
    by apply read_output_defined in Hread.
  - destruct (Flags.short_flags _ _ _ _ _ _) as [[flags1 extra1]| |] eqn:Hrun; pstep; try done.
    by apply short_flags_defined in Hrun.
Qed.

Lemma loop_defined fuel argv i flags acc :
  length argv - i < fuel →
  (∀ j arg, i ≤ j → argv !! j = Some arg → arg ≠ []) →
  Arguments.loop fuel argv i flags acc ≠ Unspecified.
Proof.
  revert i flags acc.
  induction fuel as [|fuel IH]; intros i flags acc Hfuel Hargs; simpl; [lia|].
  case_decide as Hi; [|done].
  destruct (lookup_lt_is_Some_2 argv i Hi) as [arg Harg].
  unfold at_index. rewrite Harg. cbn [from_option]. pstep.
  destruct arg as [|front arg]; [by destruct (Hargs i [])|].
  cbn [head from_option]. pstep. case_decide.
  - destruct (Flags.process_flag flags argv i) as [[n flags1]| |] eqn:Hflag; pstep; try done.
    + apply IH; [lia|]. intros j a Hj. apply Hargs. lia.
    + by apply process_flag_defined in Hflag.
  - apply IH; [lia|]. intros j a Hj. apply Hargs. lia.
Qed.

(** X14.  For a command line with a program name and no empty argument the
    constructor of [Arguments] returns or throws: no index leaves the
    arguments, [front()] is never taken of an empty string, and the loop ends
    within [argc] rounds. *)
Theorem parse_arguments_defined (argv : list (list byte)) :
  argv ≠ [] →
  Forall (λ arg, arg ≠ []) (tail argv) →
  Arguments.parse_arguments argv ≠ Unspecified.
Proof.
  intros Hargv Hargs. unfold Arguments.parse_arguments.
  destruct argv as [|program argv']; [done|]. cbn [head from_option tail] in *. pstep.
  destruct (Arguments.loop _ _ _ _ _) as [[flags args]| |] eqn:Hloop; pstep; try done.
  - by case_match.
  - apply loop_defined in Hloop; [done|simpl; lia|].
    intros [|j] arg Hj; [lia|]. simpl. intros Harg.
    by eapply (Forall_lookup_1 _ _ _ _ Hargs).
Qed.


(** ** Beyond the claims: the flags *)

Lemma tolower_not_letter c d :
  tolower c = d → ¬ (97 ≤ Z_of_byte d ≤ 122)%Z → c = d.
Proof.
  intros <- Hd. destruct c; try reflexivity; exfalso; apply Hd; vm_compute; split; discriminate.
Qed.

Lemma string_to_lowercase_app a b :
  string_to_lowercase (a ++ b) = string_to_lowercase a ++ string_to_lowercase b.
Proof. apply map_app. Qed.

Lemma string_to_lowercase_no_equals a :
  "="%byte ∉ a → "="%byte ∉ string_to_lowercase a.
Proof.
  intros Ha Hin. apply Ha. unfold string_to_lowercase in Hin.
  apply list_elem_of_fmap in Hin as (c & Hc & Hin).
  symmetry in Hc. apply tolower_not_letter in Hc; [by subst|vm_compute; intros [_ []]; done].
Qed.

Lemma find_app_first a b c : c ∉ a → find (a ++ c :: b) c = Some (length a).
Proof.
  intros Ha. unfold find.
  induction a as [|x a IH]; simpl.
  - by rewrite decide_True.
  - apply not_elem_of_cons in Ha as [Hx Ha].
    rewrite decide_False by done.
    specialize (IH Ha). destruct (list_find _ (a ++ c :: b)) as [[i y]|]; simpl in *; congruence.
Qed.

Lemma find_absent a c : c ∉ a → find a c = None.
Proof.
  intros Ha. unfold find.
  destruct (list_find _ a) as [[i y]|] eqn:Hfind; [|done].
  apply list_find_Some in Hfind as (Hi & -> & _).
  destruct Ha. by eapply list_elem_of_lookup_2.
Qed.

Lemma starts_with_cons a x b y :
  starts_with (a :: x) (b :: y) = bool_decide (a = b) && starts_with x y.
Proof.
  unfold starts_with.
  destruct (decide (a = b)) as [->|Hne].
  - rewrite (bool_decide_eq_true_2 (b = b)) by done. simpl. apply bool_decide_ext.
    split; [apply prefix_cons_inv_2|apply prefix_cons].
  - rewrite (bool_decide_eq_false_2 (a = b)) by done. simpl.
    apply bool_decide_eq_false_2. intros Hp. by apply prefix_cons_inv_1 in Hp.
Qed.

Lemma starts_with_nil_r a : starts_with a [] = true.
Proof. apply bool_decide_eq_true_2, prefix_nil. Qed.

Lemma starts_with_nil_cons b y : starts_with [] (b :: y) = false.
Proof. apply bool_decide_eq_false_2, prefix_nil_not. Qed.

Lemma starts_with_app a b : starts_with (a ++ b) a = true.
Proof. apply bool_decide_eq_true_2, prefix_app_r. done. Qed.


Lemma starts_with_ne a x b y : a ≠ b → starts_with (a :: x) (b :: y) = false.
Proof. intros. rewrite starts_with_cons, bool_decide_eq_false_2; done. Qed.

Lemma starts_with_eq a x y : starts_with (a :: x) (a :: y) = starts_with x y.
Proof. rewrite starts_with_cons, bool_decide_eq_true_2; done. Qed.

Lemma split_value_equals flag value :
  "="%byte ∉ flag → value ≠ [] → Flags.split_value (flag ++ "="%byte :: value) = Some value.
Proof.
  intros Hflag Hvalue. unfold Flags.split_value. rewrite find_app_first by done.
  rewrite decide_True by (rewrite length_app; destruct value; simpl; [done|lia]).
  rewrite drop_app_ge by lia.
  by replace (length flag + 1 - length flag) with 1 by lia.
Qed.

Lemma split_value_absent flag : "="%byte ∉ flag → Flags.split_value flag = None.
Proof. intros Hflag. unfold Flags.split_value. by rewrite find_absent. Qed.

Lemma read_output_equals args index flags extra flag value :
  args !! index = Some (flag ++ "="%byte :: value) → "="%byte ∉ flag → value ≠ [] →
  Flags.read_output args index flags extra
  = Parsed (Flags.emplace_output value flags, extra).
Proof.
  intros Harg Hflag Hvalue. unfold Flags.read_output, Flags.FlagValue, at_index.
  rewrite Harg. cbn [from_option]. pstep.
  rewrite split_value_equals by done. pstep. by rewrite orb_false_r.
Qed.

Lemma read_output_next args index flags extra flag value :
  args !! index = Some flag → "="%byte ∉ flag → args !! S index = Some value →
  Flags.read_output args index flags extra
  = Parsed (Flags.emplace_output value flags, true).
Proof.
  intros Harg Hflag Hnext. unfold Flags.read_output, Flags.FlagValue, at_index.
  rewrite Harg. cbn [from_option]. pstep.
  rewrite split_value_absent by done.
  apply lookup_lt_Some in Hnext as Hlen.
  rewrite decide_True by lia. replace (index + 1) with (S index) by lia.
  rewrite Hnext. cbn [from_option]. pstep. by rewrite orb_true_r.
Qed.

Lemma read_output_last args index flags extra flag :
  args !! index = Some flag → "="%byte ∉ flag → length args = S index →
  Flags.read_output args index flags extra = Rejected NoOutputPath.
Proof.
  intros Harg Hflag Hlen. unfold Flags.read_output, Flags.FlagValue, at_index.
  rewrite Harg. cbn [from_option]. pstep.
  rewrite split_value_absent by done. by rewrite decide_False by lia.
Qed.

(** The long flags that [process_flag] takes for the output flag, after the
    two dashes and in lower case: [rest] is empty or starts with [=]. *)
Lemma long_output_branch flags args index arg name rest :
  Flags._ignore_rest flags = false →
  args !! index = Some arg →
  string_to_lowercase arg = bytes "--" ++ name ++ rest →
  "="%byte ∉ name → name ≠ [] →
  Flags.output_flag `prefix_of` name ∨ name `prefix_of` Flags.output_flag →
  rest = [] ∨ (∃ value, rest = "="%byte :: value) →
  Flags.process_flag flags args index
  = ('(flags, extra_value_consumed) ← Flags.read_output args index flags false;
     Parsed (Nat.b2n extra_value_consumed, flags)).
Proof.
  intros Hign Harg Hlower Hequals Hname Hout Hrest.
  unfold Flags.process_flag, at_index. rewrite Hign, Harg. cbn [from_option]. pstep.
  rewrite Hlower. change (bytes "--") with ["-"%byte; "-"%byte].
  rewrite decide_False by (destruct name; [done|discriminate]).
  rewrite starts_with_app. cbn [app drop]. rewrite !drop_0.
  assert (Flags.split_prefix (name ++ rest) = name) as ->.
  { unfold Flags.split_prefix. destruct Hrest as [->|[value ->]].
    - by rewrite app_nil_r, find_absent.
    - by rewrite find_app_first, take_app_length by done. }
  assert (starts_with Flags.output_flag name || starts_with name Flags.output_flag = true)
    as ->.
  { unfold starts_with. destruct Hout.
    - rewrite (bool_decide_eq_true_2 (Flags.output_flag `prefix_of` name)) by done.
      apply orb_true_r.
    - by rewrite (bool_decide_eq_true_2 (name `prefix_of` Flags.output_flag)). }
  assert (∃ tail, name ++ rest = "o"%byte :: tail ∧
            (tail = [] ∨ ∃ c tail', tail = c :: tail' ∧ c ≠ "v"%byte)) as (tail & -> & Htail).
  { destruct Hout as [[k ->]|[k Hk]].
    - eexists. split; [reflexivity|]. right. eexists _, _. split; [reflexivity|done].
    - destruct name as [|c1 name]; [done|]. injection Hk as <- Hk.
      eexists. split; [reflexivity|].
      destruct name as [|c2 name].
      + destruct Hrest as [->|[value ->]]; [by left|].
        right. eexists _, _. split; [reflexivity|done].
      + injection Hk as <- Hk. right. eexists _, _. split; [reflexivity|done]. }
  unfold Flags.help_flag, Flags.list_flag, Flags.clean_flag_1, Flags.clean_flag_2,
    Flags.overwrite_flag_1, Flags.overwrite_flag_2.
  rewrite !(starts_with_ne _ _ "o"%byte) by discriminate.
  rewrite starts_with_eq. cbn [orb].
  destruct Htail as [->|(c & tail' & -> & Hc)].
  - simpl. done.
  - rewrite starts_with_ne by done. by rewrite andb_false_r.
Qed.

Lemma short_output_branch flags args index arg rest :
  Flags._ignore_rest flags = false →
  args !! index = Some arg →
  string_to_lowercase arg = bytes "-o" ++ rest →
  rest = [] ∨ (∃ value, rest = "="%byte :: value) →
  Flags.process_flag flags args index
  = ('(flags, extra_value_consumed) ← Flags.read_output args index flags false;
     Parsed (Nat.b2n extra_value_consumed, flags)).
Proof.
  intros Hign Harg Hlower Hrest.
  unfold Flags.process_flag, at_index. rewrite Hign, Harg. cbn [from_option]. pstep.
  rewrite Hlower. change (bytes "-o") with ["-"%byte; "o"%byte].
  change (bytes "--") with ["-"%byte; "-"%byte]. change (bytes "-") with ["-"%byte].
  cbn [app]. rewrite decide_False by discriminate.
  rewrite !starts_with_eq, starts_with_ne, starts_with_nil_r by discriminate.
  cbn [drop Flags.short_flags]. rewrite ?drop_0.
  repeat (rewrite decide_False by (try intros [|]; discriminate)).
  rewrite decide_True by done.
  destruct (Flags.read_output args index flags false) as [[flags1 extra1]| |]; pstep; try done.
  destruct Hrest as [->|[value ->]]; [done|].
  cbn [Flags.short_flags]. rewrite decide_True by done. by destruct value.
Qed.

(** X15.  The forms of the output flag: [-o] in either case, or two dashes and
    a name without [=] that in lower case starts with [out] or is the start
    of [out].  With [=] and a value behind it in the same argument the value
    is taken as it is written, and no further argument is used up; without,
    the next argument is the value and is used up, whatever it is; and when
    there is no next argument the call throws. *)
Theorem output_flag_value (flags : Flags.t) (args : list (list byte)) (index : nat)
    (flag value : list byte) :
  Flags._ignore_rest flags = false →
  (string_to_lowercase flag = bytes "-o" ∨
   ∃ name, flag = bytes "--" ++ name ∧ ("="%byte ∉ name) ∧ name ≠ [] ∧
     (Flags.output_flag `prefix_of` string_to_lowercase name ∨
      string_to_lowercase name `prefix_of` Flags.output_flag)) →
  (value ≠ [] → args !! index = Some (flag ++ "="%byte :: value) →
   Flags.process_flag flags args index = Parsed (0, Flags.emplace_output value flags)) ∧
  (args !! index = Some flag → args !! S index = Some value →
   Flags.process_flag flags args index = Parsed (1, Flags.emplace_output value flags)) ∧
  (args !! index = Some flag → length args = S index →
   Flags.process_flag flags args index = Rejected NoOutputPath).
Proof.
  intros Hign Hflag.
  assert (("="%byte ∉ flag) ∧
          ∀ arg rest, string_to_lowercase arg = string_to_lowercase flag ++ rest →
            args !! index = Some arg →
            rest = [] ∨ (∃ value, rest = "="%byte :: value) →
            Flags.process_flag flags args index
            = ('(flags, extra_value_consumed) ← Flags.read_output args index flags false;
               Parsed (Nat.b2n extra_value_consumed, flags))) as [Hequals Hbranch].
  { destruct Hflag as [Hshort|(name & -> & Hequals & Hname & Hout)].
    - split.
      + destruct flag as [|c1 [|c2 [|c3 flag]]]; try discriminate.
        injection Hshort as H1 H2.
        apply tolower_not_letter in H1 as ->; [|vm_compute; intros [[] _]; done].
        rewrite !not_elem_of_cons. split; [done|]. split; [|apply not_elem_of_nil].
        intros <-. discriminate.
      + intros arg rest Hlower Harg Hrest. rewrite Hshort in Hlower.
        by eapply short_output_branch.
    - split.
      + rewrite not_elem_of_app. split; [|done].
        change (bytes "--") with ["-"%byte; "-"%byte].
        rewrite !not_elem_of_cons. split; [done|]. split; [done|apply not_elem_of_nil].
      + intros arg rest Hlower Harg Hrest.
        rewrite string_to_lowercase_app, <- app_assoc in Hlower.
        eapply long_output_branch; [done|done|exact Hlower| | |done|done].
        * by apply string_to_lowercase_no_equals.
        * by destruct name. }
  split; [|split].
  - intros Hvalue Harg.
    rewrite (Hbranch (flag ++ "="%byte :: value) ("="%byte :: string_to_lowercase value));
      [|by rewrite string_to_lowercase_app|done|eauto].
    by rewrite (read_output_equals _ _ _ _ flag value).
  - intros Harg Hnext.
    rewrite (Hbranch flag []); [|by rewrite app_nil_r|done|by left].
    by rewrite (read_output_next _ _ _ _ flag value).
  - intros Harg Hlen.
    rewrite (Hbranch flag []); [|by rewrite app_nil_r|done|by left].
    by rewrite (read_output_last _ _ _ _ flag).
Qed.

Lemma prefix_head (l : list byte) x k : l ≠ [] → l `prefix_of` x :: k → ∃ l', l = x :: l'.
Proof. intros Hl [k' Hk]. destruct l as [|y l]; [done|]. injection Hk as <- _. eauto. Qed.

Lemma long_flag_start flags args index name :
  Flags._ignore_rest flags = false →
  args !! index = Some (bytes "--" ++ name) → name ≠ [] →
  ∃ arg,
    arg = string_to_lowercase name ∧ arg ≠ [] ∧ length arg = length name ∧
    Flags.process_flag flags args index
    = if starts_with Flags.help_flag arg then Parsed (0, Flags.set_help flags)
      else if starts_with Flags.list_flag arg then Parsed (0, Flags.set_list flags)
      else if starts_with Flags.clean_flag_1 arg || starts_with Flags.clean_flag_2 arg
      then Parsed (0, Flags.set_clean flags)
      else if starts_with Flags.overwrite_flag_2 arg
              || (bool_decide (1 < length arg) && starts_with Flags.overwrite_flag_1 arg)
      then Parsed (0, Flags.set_overwrite flags)
      else
        let arg_prefix := Flags.split_prefix arg in
        if starts_with Flags.output_flag arg_prefix || starts_with arg_prefix Flags.output_flag
        then
          '(flags, extra_value_consumed) ← Flags.read_output args index flags false;
          Parsed (Nat.b2n extra_value_consumed, flags)
        else Rejected (UnknownFlag arg).
Proof.
  intros Hign Harg Hname. exists (string_to_lowercase name).
  split; [done|]. split; [by destruct name|]. split; [apply length_map|].
  unfold Flags.process_flag, at_index. rewrite Hign, Harg. cbn [from_option]. pstep.
  rewrite string_to_lowercase_app. change (string_to_lowercase (bytes "--")) with (bytes "--").
  change (bytes "--") with ["-"%byte; "-"%byte].
  rewrite decide_False by (destruct name; [done|discriminate]).
  rewrite starts_with_app. cbn [app drop]. by rewrite drop_0.
Qed.

(** X16.  A long flag may be shortened and written in either case: two dashes
    and a name that in lower case is the start of [help], [list], [clean],
    [remove] or [modify], or two or more letters that are the start of
    [overwrite], sets the flag of that name and nothing else, and uses up no
    further argument. *)
Theorem long_flag_abbreviation (flags : Flags.t) (args : list (list byte)) (index : nat)
    (name : list byte) :
  Flags._ignore_rest flags = false →
  args !! index = Some (bytes "--" ++ name) →
  name ≠ [] →
  (string_to_lowercase name `prefix_of` Flags.help_flag →
   Flags.process_flag flags args index = Parsed (0, Flags.set_help flags)) ∧
  (string_to_lowercase name `prefix_of` Flags.list_flag →
   Flags.process_flag flags args index = Parsed (0, Flags.set_list flags)) ∧
  (string_to_lowercase name `prefix_of` Flags.clean_flag_1 ∨
   string_to_lowercase name `prefix_of` Flags.clean_flag_2 →
   Flags.process_flag flags args index = Parsed (0, Flags.set_clean flags)) ∧
  (string_to_lowercase name `prefix_of` Flags.overwrite_flag_2 ∨
   (1 < length name ∧ string_to_lowercase name `prefix_of` Flags.overwrite_flag_1) →
   Flags.process_flag flags args index = Parsed (0, Flags.set_overwrite flags)).
Proof.
  intros Hign Harg Hname.
  destruct (long_flag_start _ _ _ _ Hign Harg Hname) as (arg & <- & Hne & Hlen & ->).
  split; [|split; [|split]].
  - intros Hp. unfold starts_with. by rewrite bool_decide_eq_true_2.
  - intros Hp. destruct (prefix_head _ _ _ Hne Hp) as [l' El].
    unfold starts_with at 2. rewrite (bool_decide_eq_true_2 _ Hp).
    rewrite El. unfold Flags.help_flag. by rewrite starts_with_ne.
  - intros [Hp|Hp]; destruct (prefix_head _ _ _ Hne Hp) as [l' El].
    + unfold starts_with at 3. rewrite (bool_decide_eq_true_2 _ Hp).
      rewrite El. unfold Flags.help_flag, Flags.list_flag.
      by rewrite !(starts_with_ne _ _ "c"%byte).
    + unfold starts_with at 4. rewrite (bool_decide_eq_true_2 _ Hp).
      rewrite El. unfold Flags.help_flag, Flags.list_flag, Flags.clean_flag_1.
      by rewrite !(starts_with_ne _ _ "r"%byte).
  - intros [Hp|[Hlong Hp]]; destruct (prefix_head _ _ _ Hne Hp) as [l' El].
    + unfold starts_with at 5. rewrite (bool_decide_eq_true_2 _ Hp).
      rewrite El. unfold Flags.help_flag, Flags.list_flag, Flags.clean_flag_1,
        Flags.clean_flag_2.
      by rewrite !(starts_with_ne _ _ "m"%byte).
    + unfold starts_with at 6. rewrite (bool_decide_eq_true_2 _ Hp).
      rewrite (bool_decide_eq_true_2 (1 < _)) by lia.
      rewrite El. unfold Flags.help_flag, Flags.list_flag, Flags.clean_flag_1,
        Flags.clean_flag_2, Flags.overwrite_flag_2.
      by rewrite !(starts_with_ne _ _ "o"%byte).
Qed.

Lemma has_cons (c d : byte) g :
  bool_decide (c ∈ d :: g) = bool_decide (c = d) || bool_decide (c ∈ g).
Proof.
  rewrite <- bool_decide_or. apply bool_decide_ext, elem_of_cons.
Qed.

Lemma short_flags_plain g args index flags extra :
  Forall (λ d, d ∈ [ "h"%byte; "l"%byte; "c"%byte; "r"%byte; "m"%byte ]) g →
  Flags.short_flags g args index false flags extra
  = Parsed
      (Flags.Build
         (Flags.help flags || bool_decide ("h"%byte ∈ g))
         (Flags.list' flags || bool_decide ("l"%byte ∈ g))
         (Flags.clean flags || bool_decide ("c"%byte ∈ g) || bool_decide ("r"%byte ∈ g))
         (Flags.overwrite flags || bool_decide ("m"%byte ∈ g))
         (Flags._ignore_rest flags) (Flags.output flags), extra).
Proof.
  intros Hg. revert flags. induction Hg as [|d g Hd _ IH]; intros flags.
  - simpl. destruct flags. simpl. by rewrite !orb_false_r.
  - cbn [Flags.short_flags]. rewrite !has_cons.
    rewrite !elem_of_cons in Hd.
    destruct Hd as [->|[->|[->|[->|[->|Hd]]]]]; [..|by apply elem_of_nil in Hd];
      repeat (rewrite decide_False by (try intros [|]; discriminate));
      rewrite decide_True by auto; rewrite IH; destruct flags as [h l c w i o];
      cbn [Flags.help Flags.list' Flags.clean Flags.overwrite Flags._ignore_rest
             Flags.output Flags.set_help Flags.set_list Flags.set_clean Flags.set_overwrite];
      repeat (rewrite (bool_decide_eq_false_2 (_ = _)) by discriminate
              || rewrite (bool_decide_eq_true_2 (_ = _)) by reflexivity);
      cbn [orb]; do 2 f_equal;
      by destruct h, l, c, w, (bool_decide ("h"%byte ∈ g)), (bool_decide ("l"%byte ∈ g)),
           (bool_decide ("c"%byte ∈ g)), (bool_decide ("r"%byte ∈ g)),
           (bool_decide ("m"%byte ∈ g)).
Qed.

(** X17.  A group of short flags without a value: one dash and letters among
    [h], [l], [c], [r] and [m] in either case (or no letter at all) sets the
    flags whose letters occur, in whatever order and however often they are
    written, leaves the other flags and the output path as they were, and uses
    up no further argument. *)
Theorem short_flag_group (flags : Flags.t) (args : list (list byte)) (index : nat)
    (group : list byte) :
  Flags._ignore_rest flags = false →
  args !! index = Some ("-"%byte :: group) →
  Forall plain_short_flag group →
  Flags.process_flag flags args index
  = Parsed (0, Flags.Build
      (Flags.help flags || bool_decide ("h"%byte ∈ string_to_lowercase group))
      (Flags.list' flags || bool_decide ("l"%byte ∈ string_to_lowercase group))
      (Flags.clean flags || bool_decide ("c"%byte ∈ string_to_lowercase group)
       || bool_decide ("r"%byte ∈ string_to_lowercase group))
      (Flags.overwrite flags || bool_decide ("m"%byte ∈ string_to_lowercase group))
      false (Flags.output flags)).
Proof.
  intros Hign Harg Hgroup.
  assert (Forall (λ d, d ∈ [ "h"%byte; "l"%byte; "c"%byte; "r"%byte; "m"%byte ])
            (string_to_lowercase group)) as Hlower
    by (by apply Forall_fmap).
  unfold Flags.process_flag, at_index. rewrite Hign, Harg. cbn [from_option]. pstep.
  change (string_to_lowercase ("-"%byte :: group))
    with ("-"%byte :: string_to_lowercase group).
  change (bytes "--") with ["-"%byte; "-"%byte]. change (bytes "-") with ["-"%byte].
  assert (starts_with (string_to_lowercase group) ["-"%byte] = false) as Hdash.
  { destruct Hlower as [|d g Hd _]; [apply starts_with_nil_cons|].
    apply starts_with_ne. intros ->. rewrite !elem_of_cons in Hd.
    destruct Hd as [?|[?|[?|[?|[?|Hd]]]]]; try discriminate. by apply elem_of_nil in Hd. }
  rewrite decide_False.
  2:{ intros [= Heq]. rewrite Heq in Hdash. by rewrite starts_with_eq, starts_with_nil_r in Hdash. }
  rewrite !starts_with_eq, Hdash, starts_with_nil_r. cbn [drop]. rewrite ?drop_0.
  rewrite short_flags_plain by done. pstep. by rewrite Hign.
Qed.

Lemma loop_positional_step fuel argv i flags acc arg :
  argv !! i = Some arg → arg ≠ [] → positional arg →
  Arguments.loop (S fuel) argv i flags acc
  = Arguments.loop fuel argv (S i) flags (acc ++ [Path arg]).
Proof.
  intros Harg Hne Hpos. cbn [Arguments.loop].
  rewrite decide_True by (by eapply lookup_lt_Some).
  unfold at_index. rewrite Harg. cbn [from_option]. pstep.
  destruct arg as [|front arg]; [done|]. cbn [head from_option]. pstep.
  rewrite decide_False; [done|]. intros ->. by apply Hpos.
Qed.

Lemma loop_ignored_step fuel argv i flags acc arg :
  Flags._ignore_rest flags = true →
  argv !! i = Some arg → arg ≠ [] → ¬ positional arg →
  Arguments.loop (S fuel) argv i flags acc = Arguments.loop fuel argv (S i) flags acc.
Proof.
  intros Hign Harg Hne Hpos. cbn [Arguments.loop].
  rewrite decide_True by (by eapply lookup_lt_Some).
  unfold at_index. rewrite Harg. cbn [from_option]. pstep.
  destruct arg as [|front arg]; [done|]. cbn [head from_option]. pstep.
  rewrite decide_True.
  2:{ destruct (decide (front = "-"%byte)) as [|Hfront]; [done|].
      destruct Hpos. unfold positional. simpl. congruence. }
  unfold Flags.process_flag. rewrite Hign. pstep. by rewrite Nat.add_0_r.
Qed.

Lemma loop_positional_run pre : ∀ fuel before rest flags acc,
  Forall (λ arg, arg ≠ [] ∧ positional arg) pre →
  Arguments.loop (length pre + fuel) (before ++ pre ++ rest) (length before) flags acc
  = Arguments.loop fuel (before ++ pre ++ rest) (length before + length pre) flags
      (acc ++ (Path <$> pre)).
Proof.
  induction pre as [|arg pre IH]; intros fuel before rest flags acc Hpre.
  - simpl. by rewrite Nat.add_0_r, app_nil_r.
  - apply Forall_cons in Hpre as [[Hne Hpos] Hpre].
    cbn [length Nat.add].
    rewrite (loop_positional_step _ _ _ _ _ arg); [|by apply list_lookup_middle|done..].
    specialize (IH fuel (before ++ [arg]) rest flags (acc ++ [Path arg]) Hpre).
    rewrite <- !app_assoc, length_app in IH. cbn [app length] in IH.
    replace (length before + 1) with (S (length before)) in IH by lia.
    cbn [app]. rewrite IH. rewrite fmap_cons. f_equal; lia.
Qed.

Lemma loop_ignored_run post : ∀ fuel before flags acc,
  Flags._ignore_rest flags = true →
  Forall (λ arg, arg ≠ []) post →
  Arguments.loop (length post + S fuel) (before ++ post) (length before) flags acc
  = Parsed (flags, acc ++ (Path <$> filter positional post)).
Proof.
  induction post as [|arg post IH]; intros fuel before flags acc Hign Hpost.
  - simpl. rewrite decide_False by (rewrite app_nil_r; lia). by rewrite app_nil_r.
  - apply Forall_cons in Hpost as [Hne Hpost]. cbn [length Nat.add].
    specialize (IH fuel (before ++ [arg]) flags).
    rewrite <- !app_assoc, length_app in IH. cbn [app length] in IH.
    replace (length before + 1) with (S (length before)) in IH by lia.
    rewrite filter_cons. destruct (decide (positional arg)) as [Hpos|Hpos].
    + rewrite (loop_positional_step _ _ _ _ _ arg); [|by apply list_lookup_middle|done..].
      rewrite IH by done. by rewrite fmap_cons, <- app_assoc.
    + rewrite (loop_ignored_step _ _ _ _ _ arg); [|done|by apply list_lookup_middle|done..].
      by rewrite IH.
Qed.

(** X18.  After an argument [--] every argument that starts with a dash is
    dropped: it is neither read as a flag nor kept as a positional argument.
    For a command line of positional arguments, [--], and any arguments behind
    it, the constructor returns the positional arguments on both sides and
    no flag set. *)
Theorem parse_arguments_double_dash (program : list byte) (pre post : list (list byte)) :
  Forall (λ arg, arg ≠ [] ∧ positional arg) pre →
  Forall (λ arg, arg ≠ []) post →
  Arguments.parse_arguments (program :: pre ++ bytes "--" :: post)
  = Parsed (Arguments.Build (Flags.set_ignore_rest Flags.initial)
              (Path <$> pre ++ filter positional post) (Some (Path program))).
Proof.
  intros Hpre Hpost. unfold Arguments.parse_arguments. cbn [head from_option]. pstep.
  replace (length (program :: pre ++ bytes "--" :: post))
    with (length pre + S (length post + 1)) by (simpl; rewrite length_app; simpl; lia).
  rewrite (loop_positional_run pre _ [program] (bytes "--" :: post)) by done.
  cbn [Arguments.loop].
  rewrite decide_True by (simpl; rewrite length_app; simpl; lia).
  assert ((([program] ++ pre) ++ bytes "--" :: post) !! (length [program] + length pre)
          = Some (bytes "--")) as Hdash
    by (rewrite <- length_app; apply list_lookup_middle; done).
  rewrite <- app_assoc in Hdash.
  unfold at_index. rewrite Hdash. cbn [from_option]. pstep.
  change (head (bytes "--")) with (Some "-"%byte). cbn [from_option]. pstep.
  rewrite decide_True by done.
  unfold Flags.process_flag at 1. cbn [Flags._ignore_rest Flags.initial].
  unfold at_index. rewrite Hdash. cbn [from_option]. pstep.
  rewrite decide_True by done. pstep. rewrite Nat.add_0_r.
  pose proof (loop_ignored_run post 0 ([program] ++ pre ++ [bytes "--"])
                (Flags.set_ignore_rest Flags.initial) ([] ++ (Path <$> pre))
                eq_refl Hpost) as Hrun.
  rewrite <- !app_assoc, !length_app in Hrun. cbn [app length] in Hrun.
  cbn [app length Nat.add] in *.
  replace (S (length pre + 1)) with (S (S (length pre))) in Hrun by lia.
  rewrite Hrun. pstep. cbn. by rewrite fmap_app.
Qed.


(** ** Beyond the claims: the names of the files written *)

Lemma rfind_None a c : fs.rfind a c = None ↔ c ∉ a.
Proof.
  induction a as [|b a IH]; simpl.
  - split; [intros _; apply not_elem_of_nil|done].
  - rewrite not_elem_of_cons. destruct (fs.rfind a c) as [pos|].
    + split; [done|]. intros [_ Ha]. by apply IH in Ha.
    + case_decide; [split; [done|intros [? _]; congruence]|].
      split; [|done]. intros _. split; [congruence|]. by apply IH.
Qed.

Lemma rfind_app a b c : c ∉ b → fs.rfind (a ++ c :: b) c = Some (length a).
Proof.
  intros Hb. apply rfind_None in Hb.
  induction a as [|x a IH]; simpl.
  - by rewrite Hb, decide_True.
  - by rewrite IH.
Qed.

Lemma rfind_Some a c pos :
  fs.rfind a c = Some pos → ∃ x y, a = x ++ c :: y ∧ (c ∉ y) ∧ pos = length x.
Proof.
  revert pos. induction a as [|b a IH]; intros pos; simpl; [done|].
  destruct (fs.rfind a c) as [pos'|] eqn:Hfind.
  - intros [= <-]. destruct (IH _ eq_refl) as (x & y & -> & Hy & ->).
    by exists (b :: x), y.
  - case_decide; [|done]. intros [= <-]. subst b.
    exists [], a. split; [done|]. split; [by apply rfind_None|done].
Qed.

Lemma filename_splits p : ∃ d f, splits p d f.
Proof.
  destruct (fs.rfind p "/"%byte) as [pos|] eqn:Hfind.
  - apply rfind_Some in Hfind as (x & y & -> & Hy & _).
    exists (x ++ ["/"%byte]), y. split; [by rewrite <- app_assoc|]. split; [done|]. eauto.
  - exists [], p. split; [done|]. split; [by apply rfind_None|by left].
Qed.

Lemma filename_of_splits p d f : splits p d f → fs.filename (Path p) = Path f.
Proof.
  intros (-> & Hf & Hd). unfold fs.filename. cbn [u8string].
  destruct Hd as [->|[d' ->]].
  - simpl. apply rfind_None in Hf. by rewrite Hf.
  - rewrite <- app_assoc. cbn [app]. rewrite rfind_app by done.
    f_equal. rewrite drop_app_ge by lia.
    by replace (S (length d') - length d') with 1 by lia.
Qed.

Lemma extension_pos_Some f pos :
  fs.extension_pos f = Some pos →
  ∃ s e, f = s ++ "."%byte :: e ∧ s ≠ [] ∧ ("."%byte ∉ e) ∧ f ≠ bytes ".." ∧ pos = length s.
Proof.
  unfold fs.extension_pos. case_decide as Hdots; [done|].
  destruct (fs.rfind f "."%byte) as [[|pos']|] eqn:Hfind; try done.
  intros [= <-]. apply rfind_Some in Hfind as (s & e & -> & He & Hpos).
  exists s, e. split; [done|]. split; [by destruct s|]. split; [done|]. split; [tauto|done].
Qed.

Lemma extension_pos_split s e :
  s ≠ [] → "."%byte ∉ e → s ++ "."%byte :: e ≠ bytes ".." →
  fs.extension_pos (s ++ "."%byte :: e) = Some (length s).
Proof.
  intros Hs He Hdots. unfold fs.extension_pos.
  rewrite decide_False.
  2:{ intros [Hdot|?]; [|done]. destruct s as [|? [|? ?]]; done. }
  rewrite rfind_app by done. by destruct s.
Qed.

Lemma extension_split p d s e :
  splits p d (s ++ "."%byte :: e) → s ≠ [] → "."%byte ∉ e →
  s ++ "."%byte :: e ≠ bytes ".." →
  fs.extension (Path p) = Path ("."%byte :: e) ∧ fs.stem (Path p) = Path s.
Proof.
  intros Hp Hs He Hdots. unfold fs.extension, fs.stem.
  rewrite (filename_of_splits _ _ _ Hp). cbn [u8string].
  rewrite extension_pos_split by done.
  by rewrite drop_app_length, take_app_length.
Qed.

Lemma extension_cases p d f :
  splits p d f →
  (fs.extension (Path p) = Path [] ∧ fs.stem (Path p) = Path f) ∨
  (∃ s e, f = s ++ "."%byte :: e ∧ s ≠ [] ∧ ("."%byte ∉ e) ∧ f ≠ bytes ".." ∧
     fs.extension (Path p) = Path ("."%byte :: e) ∧ fs.stem (Path p) = Path s).
Proof.
  intros Hp. unfold fs.extension, fs.stem.
  rewrite (filename_of_splits _ _ _ Hp). cbn [u8string].
  destruct (fs.extension_pos f) as [pos|] eqn:Hpos; [|by left].
  apply extension_pos_Some in Hpos as (s & e & -> & Hs & He & Hdots & ->).
  right. exists s, e. by rewrite drop_app_length, take_app_length.
Qed.

Lemma append_splits d r :
  (d = [] ∨ ∃ d', d = d' ++ ["/"%byte]) → head r ≠ Some "/"%byte →
  fs.append (Path d) (Path r) = Path (d ++ r).
Proof.
  intros Hd Hr. unfold fs.append. cbn [u8string].
  rewrite decide_False by done.
  rewrite (filename_of_splits d d []).
  2:{ split; [by rewrite app_nil_r|]. split; [apply not_elem_of_nil|done]. }
  by rewrite decide_True.
Qed.

Lemma replace_filename_splits p d f r :
  splits p d f → head r ≠ Some "/"%byte →
  fs.replace_filename (Path p) (Path r) = Path (d ++ r).
Proof.
  intros Hp Hr. unfold fs.replace_filename, fs.remove_filename.
  rewrite (filename_of_splits _ _ _ Hp). destruct Hp as (-> & Hf & Hd). cbn [u8string].
  rewrite length_app, Nat.add_sub, take_app_length. by apply append_splits.
Qed.

Lemma head_no_separator a b :
  "/"%byte ∉ a → head b ≠ Some "/"%byte → head (a ++ b) ≠ Some "/"%byte.
Proof.
  destruct a as [|c a]; [done|]. simpl. rewrite not_elem_of_cons. intros [? _] _. congruence.
Qed.

(** What [fuse] and [clean] do with a path that is [d ++ f]. *)
Lemma fuse_output_file_splits p d f :
  splits p d f →
  (fs.extension (Path p) = Path [] ∧
   fuse_output_file (Path p) false None = Path (d ++ f ++ bytes ".fused")) ∨
  (∃ s e, f = s ++ "."%byte :: e ∧ s ≠ [] ∧ ("."%byte ∉ e) ∧
     fs.extension (Path p) = Path ("."%byte :: e) ∧
     fuse_output_file (Path p) false None
     = Path (d ++ (s ++ bytes ".fused") ++ "."%byte :: e)).
Proof.
  intros Hp. unfold fuse_output_file, fs.replace_extension, fs.concat.
  cbn [default u8string].
  rewrite (bool_decide_eq_false_2 (is_Some (@None path))) by apply is_Some_None.
  cbn [negb andb].
  destruct (extension_cases _ _ _ Hp) as [[-> _]|(s & e & Hf & Hs & He & _ & -> & _)].
  - left. split; [done|]. destruct Hp as (-> & _). cbn [u8string length bytes].
    rewrite Nat.sub_0_r, firstn_all. cbn. rewrite decide_True by done.
    cbn [u8string]. by rewrite app_nil_r, <- ?app_assoc.
  - right. exists s, e. do 4 (split; [done|]).
    destruct Hp as (-> & _). subst f. cbn [u8string].
    replace (d ++ s ++ "."%byte :: e) with ((d ++ s) ++ "."%byte :: e) by (by rewrite <- app_assoc).
    rewrite length_app, Nat.add_sub, take_app_length. cbn. rewrite decide_True by done.
    cbn [u8string]. by rewrite <- ?app_assoc.
Qed.

Lemma stem_extension p d f :
  splits p d f →
  ∃ stem ext, f = stem ++ ext ∧ fs.stem (Path p) = Path stem ∧ fs.extension (Path p) = Path ext.
Proof.
  intros Hp.
  destruct (extension_cases _ _ _ Hp) as [[-> ->]|(s & e & -> & _ & _ & _ & -> & ->)].
  - exists f, []. by rewrite app_nil_r.
  - by exists s, ("."%byte :: e).
Qed.

Lemma clean_output_path_splits p d f stem ext :
  splits p d f → f = stem ++ ext →
  fs.stem (Path p) = Path stem → fs.extension (Path p) = Path ext →
  clean_output_path (Path p) false None
  = Path (d ++ (if ends_with (string_to_lowercase stem) (bytes ".fused")
                then take (length stem - 6) stem ++ ext
                else stem ++ bytes ".unfused" ++ ext)).
Proof.
  intros Hp Hf Hstem Hext. unfold clean_output_path. cbn [default].
  rewrite (bool_decide_eq_false_2 (is_Some (@None path))) by apply is_Some_None.
  cbn [negb andb]. rewrite Hstem, Hext. cbn [u8string].
  assert (("/"%byte ∉ stem) ∧ ("/"%byte ∉ ext)) as [Hs He].
  { destruct Hp as (_ & Hsep & _). subst f. by apply not_elem_of_app in Hsep. }
  destruct (ends_with _ _).
  - apply (replace_filename_splits _ _ _ _ Hp).
    apply head_no_separator.
    + rewrite <- (take_drop (length stem - 6) stem) in Hs.
      by apply not_elem_of_app in Hs as [Hs _].
    + destruct ext as [|c ext]; [done|]. simpl. apply not_elem_of_cons in He as [? _].
      congruence.
  - apply (replace_filename_splits _ _ _ _ Hp).
    apply head_no_separator; [done|]. discriminate.
Qed.

(** X19.  The name that [fuse] gives its result and the name that [clean]
    gives its result undo each other: for a path with an extension, as every
    target of [fuse] has one, the fused name has the same extension, is a
    target exactly when the path is, and [clean] turns it back into the
    path. *)
Theorem clean_output_path_fuse_output_file (p : path) :
  u8string (fs.extension p) ≠ [] →
  fs.extension (fuse_output_file p false None) = fs.extension p ∧
  is_target (fuse_output_file p false None) = is_target p ∧
  clean_output_path (fuse_output_file p false None) false None = p.
Proof.
  destruct p as [p]. intros Hext.
  destruct (filename_splits p) as (d & f & Hp).
  destruct (fuse_output_file_splits _ _ _ Hp)
    as [[Hnone _]|(s & e & -> & Hs & He & Hpe & ->)]; [by rewrite Hnone in Hext|].
  assert (splits (d ++ (s ++ bytes ".fused") ++ "."%byte :: e) d
            ((s ++ bytes ".fused") ++ "."%byte :: e)) as Hfused.
  { destruct Hp as (_ & Hsep & Hd). split; [done|]. split; [|done].
    rewrite not_elem_of_app, not_elem_of_cons in Hsep. destruct Hsep as (? & ? & ?).
    rewrite !not_elem_of_app, !not_elem_of_cons. vm_compute bytes.
    rewrite !not_elem_of_cons. split_and!; try done. apply not_elem_of_nil. }
  destruct (extension_split _ _ _ _ Hfused) as [Hfe Hfs];
    [by destruct s|done| |].
  { intros Heq. apply (f_equal length) in Heq. rewrite !length_app in Heq.
    simpl in Heq. lia. }
  assert (fs.extension (Path (d ++ (s ++ bytes ".fused") ++ "."%byte :: e))
          = fs.extension (Path p)) as Hsame by (by rewrite Hfe, Hpe).
  split; [done|]. split; [unfold is_target; by rewrite Hsame|].
  rewrite (clean_output_path_splits _ _ _ _ _ Hfused eq_refl Hfs Hfe).
  unfold ends_with. rewrite bool_decide_eq_true_2.
  2:{ rewrite string_to_lowercase_app. by apply suffix_app_r. }
  destruct Hp as (-> & _). f_equal. f_equal.
  rewrite length_app, Nat.add_sub, take_app_length. done.
Qed.

(** X20.  The names that [fuse] and [clean] make up are never the name they
    start from: [fuse] makes the path six bytes longer, [clean] makes it
    eight bytes longer or six bytes shorter.  With [overwrite] the path is
    the one given, and an output path is taken as it is. *)
Theorem output_names_differ (p : path) (overwrite : bool) (output : path) :
  length (u8string (fuse_output_file p false None)) = length (u8string p) + 6 ∧
  (length (u8string (clean_output_path p false None)) = length (u8string p) + 8 ∨
   length (u8string (clean_output_path p false None)) + 6 = length (u8string p)) ∧
  fuse_output_file p false None ≠ p ∧
  clean_output_path p false None ≠ p ∧
  fuse_output_file p true None = p ∧
  clean_output_path p true None = p ∧
  fuse_output_file p overwrite (Some output) = output ∧
  clean_output_path p overwrite (Some output) = output.
Proof.
  destruct p as [p].
  destruct (filename_splits p) as (d & f & Hp).
  assert (length (u8string (fuse_output_file (Path p) false None)) = length p + 6) as Hfuse.
  { destruct (fuse_output_file_splits _ _ _ Hp)
      as [[_ ->]|(s & e & -> & _ & _ & _ & ->)]; destruct Hp as (-> & _);
      cbn [u8string]; rewrite ?length_app; simpl; rewrite ?length_app; simpl; lia. }
  assert (length (u8string (clean_output_path (Path p) false None)) = length p + 8 ∨
          length (u8string (clean_output_path (Path p) false None)) + 6 = length p) as Hclean.
  { destruct (stem_extension _ _ _ Hp) as (stem & ext & Hf & Hstem & Hext).
    rewrite (clean_output_path_splits _ _ _ _ _ Hp Hf Hstem Hext).
    destruct Hp as (-> & _). subst f. cbn [u8string].
    unfold ends_with. case_bool_decide as Hsuffix.
    - right. apply suffix_length in Hsuffix. unfold string_to_lowercase in Hsuffix.
      rewrite length_map in Hsuffix. simpl in Hsuffix.
      rewrite !length_app, length_take. lia.
    - left. rewrite !length_app. simpl. lia. }
  split; [done|]. split; [done|].
  split; [intros Heq; rewrite Heq in Hfuse; simpl in Hfuse; lia|].
  split; [intros Heq; rewrite Heq in Hclean; simpl in Hclean; lia|].
  unfold fuse_output_file, clean_output_path. cbn [default].
  rewrite (bool_decide_eq_true_2 (is_Some (Some output))) by done.
  cbn [negb andb]. by rewrite !andb_false_r.
Qed.


(** ** Closed instances of the theorems about the command line and the names *)

Lemma parse_arguments_positional_witness :
  [Path (bytes "host.png"); Path (bytes "notes.txt")]
    `sublist_of` (Path <$> filter positional
       (tail [bytes "pngfuse"; bytes "host.png"; bytes "-o"; bytes "out.png";
              bytes "notes.txt"])) ∧
  (Flags.output (Flags.emplace_output (bytes "out.png") Flags.initial) = None →
   [Path (bytes "host.png"); Path (bytes "notes.txt")]
   = Path <$> filter positional
       (tail [bytes "pngfuse"; bytes "host.png"; bytes "-o"; bytes "out.png";
              bytes "notes.txt"])).
Proof.
  apply (parse_arguments_positional
           [bytes "pngfuse"; bytes "host.png"; bytes "-o"; bytes "out.png"; bytes "notes.txt"]
           (Arguments.Build (Flags.emplace_output (bytes "out.png") Flags.initial)
              [Path (bytes "host.png"); Path (bytes "notes.txt")]
              (Some (Path (bytes "pngfuse"))))).
  vm_compute. reflexivity.
Defined.

Lemma parse_arguments_defined_witness :
  Arguments.parse_arguments [bytes "pngfuse"; bytes "-x"; bytes "host.png"] ≠ Unspecified.
Proof.
  apply (parse_arguments_defined [bytes "pngfuse"; bytes "-x"; bytes "host.png"]).
  - discriminate.
  - each ltac:(discriminate).
Defined.

Lemma output_flag_value_witness :
  Flags.process_flag Flags.initial
    [bytes "pngfuse"; bytes "--OUTPUT" ++ "="%byte :: bytes "Out.png"; bytes "host.png"] 1
  = Parsed (0, Flags.emplace_output (bytes "Out.png") Flags.initial).
Proof.
  refine (proj1 (output_flag_value Flags.initial
                   [bytes "pngfuse"; bytes "--OUTPUT" ++ "="%byte :: bytes "Out.png";
                    bytes "host.png"] 1 (bytes "--OUTPUT") (bytes "Out.png") _ _) _ _).
  - reflexivity.
  - right. exists (bytes "OUTPUT"). split; [reflexivity|]. split; [no_NUL|].
    split; [discriminate|]. left. by exists (bytes "put").
  - discriminate.
  - reflexivity.
Defined.

Lemma long_flag_abbreviation_witness :
  Flags.process_flag Flags.initial [bytes "pngfuse"; bytes "--" ++ bytes "CLe"] 1
  = Parsed (0, Flags.set_clean Flags.initial).
Proof.
  refine (proj1 (proj2 (proj2 (long_flag_abbreviation Flags.initial
                   [bytes "pngfuse"; bytes "--" ++ bytes "CLe"] 1 (bytes "CLe") _ _ _))) _).
  - reflexivity.
  - reflexivity.
  - discriminate.
  - left. by exists (bytes "an").
Defined.

Lemma short_flag_group_witness :
  Flags.process_flag Flags.initial [bytes "pngfuse"; "-"%byte :: bytes "lCl"] 1
  = Parsed (0, Flags.Build
      (Flags.help Flags.initial || bool_decide ("h"%byte ∈ string_to_lowercase (bytes "lCl")))
      (Flags.list' Flags.initial || bool_decide ("l"%byte ∈ string_to_lowercase (bytes "lCl")))
      (Flags.clean Flags.initial || bool_decide ("c"%byte ∈ string_to_lowercase (bytes "lCl"))
       || bool_decide ("r"%byte ∈ string_to_lowercase (bytes "lCl")))
      (Flags.overwrite Flags.initial
       || bool_decide ("m"%byte ∈ string_to_lowercase (bytes "lCl")))
      false (Flags.output Flags.initial)).
Proof.
  apply (short_flag_group Flags.initial [bytes "pngfuse"; "-"%byte :: bytes "lCl"] 1
           (bytes "lCl")).
  - reflexivity.
  - reflexivity.
  - vm_compute bytes. each ltac:(unfold plain_short_flag; apply (bool_decide_unpack _); vm_compute; exact I).
Defined.

Lemma parse_arguments_double_dash_witness :
  Arguments.parse_arguments
    (bytes "pngfuse" :: [bytes "host.png"] ++ bytes "--" :: [bytes "-notes.txt"; bytes "b.txt"])
  = Parsed (Arguments.Build (Flags.set_ignore_rest Flags.initial)
              (Path <$> [bytes "host.png"]
                        ++ filter positional [bytes "-notes.txt"; bytes "b.txt"])
              (Some (Path (bytes "pngfuse")))).
Proof.
  apply (parse_arguments_double_dash (bytes "pngfuse") [bytes "host.png"]
           [bytes "-notes.txt"; bytes "b.txt"]).
  - each ltac:(split; [discriminate|vm_compute; discriminate]).
  - each ltac:(discriminate).
Defined.

Lemma clean_output_path_fuse_output_file_witness :
  fs.extension (fuse_output_file (Path (bytes "dir/host.PNG")) false None)
  = fs.extension (Path (bytes "dir/host.PNG")) ∧
  is_target (fuse_output_file (Path (bytes "dir/host.PNG")) false None)
  = is_target (Path (bytes "dir/host.PNG")) ∧
  clean_output_path (fuse_output_file (Path (bytes "dir/host.PNG")) false None) false None
  = Path (bytes "dir/host.PNG").
Proof.
  apply (clean_output_path_fuse_output_file (Path (bytes "dir/host.PNG"))).
  vm_compute. discriminate.
Defined.
